(** * ProgressionExplorer: music-theory engine, voicing resolver, catalogue
    validator, arpeggio scheduler and MIDI serialiser

    A shallow embedding of the TypeScript sources

    - [data/theory.ts]   (note names, diatonic tables, transition tables),
    - [harmonics.ts]     (chord parsing, voicing resolver, transposer,
                          harmonic analyser, successor engine,
                          classification and substitutions),
    - [chord-validator.ts] and its caller [runChordVoicingValidator],
    - [audio.ts]         (the note order of an arpeggiated chord),
    - [midi.ts]          ([exportProgressionToMidi]),
    - [logger.ts],
    - [data/rhythms.ts]  (the preset strumming and arpeggio patterns),
    - [strumming.ts]     (the pattern library and the custom grids)

    followed by the properties established about them.

    Conventions.  JavaScript numbers that are integers in the program are
    [Z]; strings are [string] (the UTF-8 bytes of the source text; every
    character the program inspects is ASCII); objects used as tables are
    association lists in insertion order, because [for .. in] and
    [Object.keys] enumerate in that order, and [lookup] reads their own
    properties; an array that is mutated in place while shared is
    threaded as explicit state; a note that may be the number [NaN]
    where a name is expected is a [NoteValue]; a duration is the exact
    rational its double approximates. *)

From Stdlib Require Import List String Ascii ZArith Lia Bool.
From Stdlib Require Import Permutation Sorted QArith Qround DecimalString.
Import ListNotations.
Close Scope Q_scope.
Open Scope Z_scope.
Open Scope string_scope.

(* ================================================================== *)
(** * JavaScript primitives used by the sources *)
(* ================================================================== *)

Module JS.

(** A computation that may end in an uncaught exception. *)
Inductive Outcome (A : Type) : Type :=
| Ok (a : A)
| Throw (msg : string).
Arguments Ok {A} a.
Arguments Throw {A} msg.

Definition bind {A B} (m : Outcome A) (k : A -> Outcome B) : Outcome B :=
  match m with
  | Ok a => k a
  | Throw e => Throw e
  end.

Notation "x <- m ;; k" := (bind m (fun x => k))
  (at level 61, m at next level, right associativity).

(** [xs.map(f)] for an [f] that may throw: stops at the first exception. *)
Fixpoint mapM {A B} (f : A -> Outcome B) (l : list A) : Outcome (list B) :=
  match l with
  | [] => Ok []
  | x :: t => y <- f x ;; ys <- mapM f t ;; Ok (y :: ys)
  end.

(** [s.startsWith(p)], [s.endsWith(p)], [s.includes(p)]. *)
Definition startsWith (s p : string) : bool := String.prefix p s.

Fixpoint endsWith (s p : string) : bool :=
  (s =? p) ||
  match s with
  | EmptyString => false
  | String _ t => endsWith t p
  end.

Fixpoint includes (s p : string) : bool :=
  String.prefix p s ||
  match s with
  | EmptyString => false
  | String _ t => includes t p
  end.

(** [s.slice(0, -1)]. *)
Fixpoint dropLast (s : string) : string :=
  match s with
  | EmptyString => EmptyString
  | String _ EmptyString => EmptyString
  | String c t => String c (dropLast t)
  end.

(** [s.replace(a, b)] with a string pattern: the first occurrence only. *)
Fixpoint dropChars (n : nat) (s : string) : string :=
  match n, s with
  | O, _ => s
  | S k, String _ t => dropChars k t
  | S _, EmptyString => EmptyString
  end.

Fixpoint replace (s a b : string) : string :=
  if String.prefix a s then b ++ dropChars (String.length a) s
  else match s with
       | EmptyString => EmptyString
       | String c t => String c (replace t a b)
       end.

(** [xs.join(sep)]. *)
Fixpoint join (sep : string) (xs : list string) : string :=
  match xs with
  | [] => ""
  | [x] => x
  | x :: t => x ++ sep ++ join sep t
  end.

(** The text of an integer, as template literals and [+] print it. *)
Definition showZ (z : Z) : string := NilZero.string_of_int (Z.to_int z).

(** Line terminators: the characters the regular-expression dot refuses
    (LF, CR, U+2028, U+2029; the last two as their UTF-8 bytes). *)
Fixpoint hasLineTerminator (s : string) : bool :=
  match s with
  | EmptyString => false
  | String c t =>
      (Ascii.eqb c "010"%char) || (Ascii.eqb c "013"%char) ||
      (match c, t with
       | "226"%char, String "128"%char (String d _) =>
           (Ascii.eqb d "168"%char) || (Ascii.eqb d "169"%char)
       | _, _ => false
       end) ||
      hasLineTerminator t
  end.

Definition isDigit (c : ascii) : bool :=
  let n := nat_of_ascii c in (48 <=? n)%nat && (n <=? 57)%nat.

Definition isAtoG (c : ascii) : bool :=
  let n := nat_of_ascii c in (65 <=? n)%nat && (n <=? 71)%nat.

Definition isAccidental (c : ascii) : bool :=
  (Ascii.eqb c "#"%char) || (Ascii.eqb c "b"%char).

(** The longest prefix of decimal digits, and what follows it. *)
Fixpoint spanDigits (s : string) : string * string :=
  match s with
  | String c t =>
      if isDigit c then let (d, r) := spanDigits t in (String c d, r)
      else (EmptyString, s)
  | EmptyString => (EmptyString, EmptyString)
  end.

(** [parseInt(ds, 10)] on a non-empty string of digits. *)
Definition digitsToZ (ds : string) : Z :=
  fold_left (fun acc c => 10 * acc + (Z.of_nat (nat_of_ascii c) - 48))
            (list_ascii_of_string ds) 0.

(** [xs.indexOf(x)]: the first position, or -1. *)
Fixpoint indexOfFrom (i : Z) (xs : list string) (x : string) : Z :=
  match xs with
  | [] => -1
  | y :: t => if y =? x then i else indexOfFrom (i + 1) t x
  end.

Definition indexOf (xs : list string) (x : string) : Z := indexOfFrom 0 xs x.

(** [xs[i]]: [None] stands for [undefined]. *)
Definition at_ {A} (xs : list A) (i : Z) : option A :=
  if (i <? 0)%Z then None else nth_error xs (Z.to_nat i).

(** [obj[key]] on a table whose keys are its own properties: the own
    properties of an object literal, in insertion order.  A key that
    names a property every object inherits is outside this model: there
    [obj[key]] is the inherited function or object, not [undefined]. *)
Fixpoint lookup {V} (k : string) (tbl : list (string * V)) : option V :=
  match tbl with
  | [] => None
  | (k', v) :: t => if k' =? k then Some v else lookup k t
  end.

(** The property names an object literal inherits from [Object.prototype]. *)
Definition objectPrototypeNames : list string :=
  ["constructor"; "__defineGetter__"; "__defineSetter__"; "hasOwnProperty";
   "__lookupGetter__"; "__lookupSetter__"; "isPrototypeOf";
   "propertyIsEnumerable"; "toString"; "valueOf"; "__proto__";
   "toLocaleString"].

(** [obj[key] = v] on an existing key (the assignment an in-place
    array operation amounts to for the table that holds the array). *)
Fixpoint store {V} (k : string) (v : V) (tbl : list (string * V))
  : list (string * V) :=
  match tbl with
  | [] => []
  | (k', v') :: t =>
      if k' =? k then (k', v) :: t else (k', v') :: store k v t
  end.

(** [x || null] for a string-valued lookup: [undefined] and the empty
    string are falsy. *)
Definition truthy (o : option string) : option string :=
  match o with
  | Some "" => None
  | _ => o
  end.

(** [Array.prototype.sort(cmp)].  The language requires the sort to be
    stable, so for a comparator that is a total preorder the result is
    determined uniquely; stable insertion computes it. *)
Fixpoint insertBy {A} (cmp : A -> A -> Z) (x : A) (l : list A) : list A :=
  match l with
  | [] => [x]
  | y :: t => if (cmp x y <=? 0)%Z then x :: y :: t else y :: insertBy cmp x t
  end.

Definition sort {A} (cmp : A -> A -> Z) (l : list A) : list A :=
  fold_right (insertBy cmp) [] l.

(** [[...new Set(xs)]]: first occurrences, in order. *)
Fixpoint uniqueBy {A} (eqb : A -> A -> bool) (l : list A) : list A :=
  match l with
  | [] => []
  | x :: t => x :: filter (fun y => negb (eqb x y)) (uniqueBy eqb t)
  end.

(** [xs.map((x, i) => f(x, i))]. *)
Fixpoint mapiFrom {A B} (i : Z) (f : A -> Z -> B) (l : list A) : list B :=
  match l with
  | [] => []
  | x :: t => f x i :: mapiFrom (i + 1) f t
  end.

Definition mapi {A B} (f : A -> Z -> B) (l : list A) : list B :=
  mapiFrom 0 f l.

(** [Math.round] on a rational: the nearest integer, halves upwards. *)
Definition round (q : Q) : Z := Qfloor (Qplus q (1 # 2)).

(** 32-bit integer conversion, and the bit operators built on it. *)
Definition toInt32 (z : Z) : Z := (z + 2147483648) mod 4294967296 - 2147483648.
Definition band (a b : Z) : Z := Z.land (toInt32 a) (toInt32 b).
Definition bor (a b : Z) : Z := Z.lor (toInt32 a) (toInt32 b).
Definition shl (a n : Z) : Z := toInt32 (Z.shiftl (toInt32 a) (n mod 32)).
Definition shr (a n : Z) : Z := Z.shiftr (toInt32 a) (n mod 32).

End JS.

Import JS.

(* ================================================================== *)
(** * data/theory.ts *)
(* ================================================================== *)

Definition NOTES : list string :=
  ["C"; "C#"; "D"; "D#"; "E"; "F"; "F#"; "G"; "G#"; "A"; "A#"; "B"].

Definition CHORD_INTERVALS : list (string * list Z) :=
  [ ("", [0; 4; 7]);
    ("maj7", [0; 4; 7; 11]);
    ("m", [0; 3; 7]);
    ("m7", [0; 3; 7; 10]);
    ("7", [0; 4; 7; 10]);
    ("m7b5", [0; 3; 6; 10]);
    ("dim", [0; 3; 6]) ].

Definition MAJOR_KEYS_DIATONIC : list (string * list (string * string)) :=
  [
    ("C", [("I", "C"); ("ii", "Dm"); ("iii", "Em"); ("IV", "F"); ("V", "G"); ("vi", "Am"); ("vii", "Bdim")]);
    ("G", [("I", "G"); ("ii", "Am"); ("iii", "Bm"); ("IV", "C"); ("V", "D"); ("vi", "Em"); ("vii", "F#dim")]);
    ("D", [("I", "D"); ("ii", "Em"); ("iii", "F#m"); ("IV", "G"); ("V", "A"); ("vi", "Bm"); ("vii", "C#dim")]);
    ("A", [("I", "A"); ("ii", "Bm"); ("iii", "C#m"); ("IV", "D"); ("V", "E"); ("vi", "F#m"); ("vii", "G#dim")]);
    ("E", [("I", "E"); ("ii", "F#m"); ("iii", "G#m"); ("IV", "A"); ("V", "B"); ("vi", "C#m"); ("vii", "D#dim")]);
    ("B", [("I", "B"); ("ii", "C#m"); ("iii", "D#m"); ("IV", "E"); ("V", "F#"); ("vi", "G#m"); ("vii", "A#dim")]);
    ("F#", [("I", "F#"); ("ii", "G#m"); ("iii", "A#m"); ("IV", "B"); ("V", "C#"); ("vi", "D#m"); ("vii", "Fdim")]);
    ("C#", [("I", "C#"); ("ii", "D#m"); ("iii", "Fm"); ("IV", "F#"); ("V", "G#"); ("vi", "A#m"); ("vii", "Cdim")]);
    ("Ab", [("I", "Ab"); ("ii", "Bbm"); ("iii", "Cm"); ("IV", "Db"); ("V", "Eb"); ("vi", "Fm"); ("vii", "Gdim")]);
    ("Eb", [("I", "Eb"); ("ii", "Fm"); ("iii", "Gm"); ("IV", "Ab"); ("V", "Bb"); ("vi", "Cm"); ("vii", "Ddim")]);
    ("Bb", [("I", "Bb"); ("ii", "Cm"); ("iii", "Dm"); ("IV", "Eb"); ("V", "F"); ("vi", "Gm"); ("vii", "Adim")]);
    ("F", [("I", "F"); ("ii", "Gm"); ("iii", "Am"); ("IV", "Bb"); ("V", "C"); ("vi", "Dm"); ("vii", "Edim")])
  ].

(** Natural minor, with the Dorian IV. *)
Definition MINOR_KEYS_DIATONIC : list (string * list (string * string)) :=
  [
    ("Am", [("i", "Am"); ("ii", "Bdim"); ("III", "C"); ("iv", "Dm"); ("IV", "D"); ("v", "Em"); ("VI", "F"); ("VII", "G")]);
    ("Em", [("i", "Em"); ("ii", "F#dim"); ("III", "G"); ("iv", "Am"); ("IV", "A"); ("v", "Bm"); ("VI", "C"); ("VII", "D")]);
    ("Bm", [("i", "Bm"); ("ii", "C#dim"); ("III", "D"); ("iv", "Em"); ("IV", "E"); ("v", "F#m"); ("VI", "G"); ("VII", "A")]);
    ("F#m", [("i", "F#m"); ("ii", "G#dim"); ("III", "A"); ("iv", "Bm"); ("IV", "B"); ("v", "C#m"); ("VI", "D"); ("VII", "E")]);
    ("C#m", [("i", "C#m"); ("ii", "D#dim"); ("III", "E"); ("iv", "F#m"); ("IV", "F#"); ("v", "G#m"); ("VI", "A"); ("VII", "B")]);
    ("G#m", [("i", "G#m"); ("ii", "A#dim"); ("III", "B"); ("iv", "C#m"); ("IV", "C#"); ("v", "D#m"); ("VI", "E"); ("VII", "F#")]);
    ("D#m", [("i", "D#m"); ("ii", "Fdim"); ("III", "F#"); ("iv", "G#m"); ("IV", "G#"); ("v", "A#m"); ("VI", "B"); ("VII", "C#")]);
    ("Bbm", [("i", "Bbm"); ("ii", "Cdim"); ("III", "Db"); ("iv", "Ebm"); ("IV", "Eb"); ("v", "Fm"); ("VI", "Gb"); ("VII", "Ab")]);
    ("Fm", [("i", "Fm"); ("ii", "Gdim"); ("III", "Ab"); ("iv", "Bbm"); ("IV", "Bb"); ("v", "Cm"); ("VI", "Db"); ("VII", "Eb")]);
    ("Cm", [("i", "Cm"); ("ii", "Ddim"); ("III", "Eb"); ("iv", "Fm"); ("IV", "F"); ("v", "Gm"); ("VI", "Ab"); ("VII", "Bb")]);
    ("Gm", [("i", "Gm"); ("ii", "Adim"); ("III", "Bb"); ("iv", "Cm"); ("IV", "C"); ("v", "Dm"); ("VI", "Eb"); ("VII", "F")]);
    ("Dm", [("i", "Dm"); ("ii", "Edim"); ("III", "F"); ("iv", "Gm"); ("IV", "G"); ("v", "Am"); ("VI", "Bb"); ("VII", "C")])
  ].

(** [interface Transition]; an absent [isBorrowed] is [false]. *)
Record Transition : Type := mkTransition
  { to : string; weight : Z; isBorrowed : bool }.

Definition tr (t : string) (w : Z) : Transition := mkTransition t w false.
Definition tb (t : string) (w : Z) : Transition := mkTransition t w true.

Definition Rules : Type := list (string * list Transition).

Definition PROGRESSION_RULES_MAJOR : Rules :=
  [
    ("I", [tr "I" 2; tr "IV" 8; tr "V" 7; tr "ii" 6; tr "vi" 5; tb "iv" 5; tr "V/V" 4; tb "♭VII" 4; tr "iii" 3; tr "V/iii" 3]);
    ("ii", [tr "ii" 2; tr "V" 10; tr "vii" 4; tr "IV" 2]);
    ("iii", [tr "iii" 2; tr "vi" 9; tr "IV" 7; tr "ii" 4; tr "V/vi" 6]);
    ("IV", [tr "IV" 2; tr "V" 9; tb "iv" 7; tr "V/V" 6; tr "I" 5; tr "ii" 4]);
    ("V", [tr "V" 2; tr "I" 12; tr "vi" 6; tr "V/ii" 3; tr "V/vi" 3]);
    ("vi", [tr "vi" 2; tr "ii" 8; tr "IV" 8; tr "V" 5; tr "V/ii" 4]);
    ("vii", [tr "vii" 2; tr "I" 9; tr "iii" 4]);
    ("V/V", [tr "V/V" 1; tr "V" 12]);
    ("V/ii", [tr "V/ii" 1; tr "ii" 12]);
    ("V/vi", [tr "V/vi" 1; tr "vi" 12]);
    ("V/iii", [tr "V/iii" 1; tr "iii" 12]);
    ("iv", [tr "iv" 2; tr "I" 8; tr "V" 6]);
    ("♭VII", [tr "♭VII" 2; tr "I" 8; tr "IV" 6])
  ].

(** Natural minor, with the harmonic-minor V. *)
Definition PROGRESSION_RULES_MINOR : Rules :=
  [
    ("i", [tr "i" 2; tr "VI" 9; tr "iv" 8; tr "V" 7; tr "v" 6; tr "VII" 5; tr "III" 4; tr "ii" 3]);
    ("ii", [tr "ii" 2; tr "V" 10; tr "v" 9; tr "VII" 5]);
    ("III", [tr "III" 2; tr "VI" 9; tr "iv" 8]);
    ("iv", [tr "iv" 2; tr "V" 9; tr "v" 8; tr "VII" 6; tr "i" 4]);
    ("v", [tr "v" 2; tr "i" 10; tr "VI" 5]);
    ("V", [tr "V" 2; tr "i" 12; tr "VI" 6]);
    ("VI", [tr "VI" 2; tr "ii" 8; tr "iv" 7; tr "V" 6; tr "v" 5]);
    ("VII", [tr "VII" 2; tr "i" 10; tr "III" 8])
  ].

(** The two transition tables are module-level objects shared by every
    caller; their current contents are the state of the program. *)
Record RulesStore : Type := mkRulesStore
  { rulesMajor : Rules; rulesMinor : Rules }.

Definition loadedRules : RulesStore :=
  mkRulesStore PROGRESSION_RULES_MAJOR PROGRESSION_RULES_MINOR.

(** data/tunings.ts: open strings, top to bottom (index 0 is the
    highest-pitched string). *)
Definition GUITAR_TUNING : list string := ["E4"; "B3"; "G3"; "D3"; "A2"; "E2"].
Definition UKULELE_TUNING : list string := ["A4"; "E4"; "C4"; "G4"].

(* ================================================================== *)
(** * harmonics.ts *)
(* ================================================================== *)

Module Harmonics.

(** What a [note] field holds at run time: a string or, for a pitch
    below C-1, the number [NaN] that [midiToNote] returns (the field is
    declared a string). *)
Inductive NoteValue : Type :=
| NoteName (s : string)
| NaN.

Coercion NoteName : string >-> NoteValue.

(** [interface ChordVoicing], [interface ChordInfo]. *)
Record ChordVoicing : Type := mkVoicing { note : NoteValue; stringIndex : Z }.
Record ChordInfo : Type := mkChordInfo { root : string; quality : string }.

(** [type ChordVoicingData]: one fret per string, ['x'] for a muted one. *)
Inductive Fret : Type :=
| X
| Fr (n : Z).

Record Barre : Type := mkBarre { fret : Z; from : Z; to_ : Z }.

Record ChordVoicingData : Type := mkVoicingData
  { frets : list Fret; barres : list Barre }.

Definition ChordDB : Type := list (string * list ChordVoicingData).

(** The anchored pattern of [parseChordName]: a letter A to G, an
    optional sharp or flat sign, then any text free of line terminators
    up to the end of the string. *)
Definition parseChordName (chordName : string) : option ChordInfo :=
  match chordName with
  | String c rest =>
      if isAtoG c then
        let '(acc, q) :=
          match rest with
          | String d rest' =>
              if isAccidental d then (String d EmptyString, rest')
              else (EmptyString, rest)
          | EmptyString => (EmptyString, EmptyString)
          end in
        if hasLineTerminator rest then None
        else Some (mkChordInfo (String c acc) q)
      else None
  | EmptyString => None
  end.

(** The unanchored pattern of [noteToMidi]: the leftmost letter A to G
    followed by an optional sharp or flat sign and at least one digit;
    the sign is taken when digits follow it. *)
Fixpoint matchNoteOctave (s : string) : option (string * string) :=
  match s with
  | EmptyString => None
  | String c t =>
      let here :=
        if isAtoG c then
          let plain :=
            match fst (spanDigits t) with
            | EmptyString => None
            | ds => Some (String c EmptyString, ds)
            end in
          match t with
          | String a t' =>
              if isAccidental a then
                match fst (spanDigits t') with
                | EmptyString => plain
                | ds => Some (String c (String a EmptyString), ds)
                end
              else plain
          | EmptyString => None
          end
        else None in
      match here with
      | Some r => Some r
      | None => matchNoteOctave t
      end
  end.

(** C4 (middle C) is 60; -1 when the name is not understood.  The
    octave is an exact integer; the source's [parseInt] and product are
    exact up to 2^53, that is for every octave of at most 15 digits. *)
Definition noteToMidi (note : string) : Z :=
  match matchNoteOctave note with
  | None => -1
  | Some (noteName, ds) =>
      let octave := digitsToZ ds in
      let noteIndex := indexOf NOTES noteName in
      if (noteIndex =? -1)%Z then -1 else 12 * (octave + 1) + noteIndex
  end.

(** [NOTES[noteIndex] + octave].  The remainder [midi % 12] has the sign
    of [midi]: below zero it is a negative index (unless [midi] is a
    multiple of 12), [NOTES[noteIndex]] is [undefined], and [undefined]
    plus a number is the number [NaN]. *)
Definition midiToNote (midi : Z) : NoteValue :=
  let octave := midi / 12 - 1 in
  let noteIndex := Z.rem midi 12 in
  match at_ NOTES noteIndex with
  | Some n => NoteName (n ++ showZ octave)
  | None => NaN
  end.

Definition getNoteFromFret (openStringNote : string) (fret : Z) : NoteValue :=
  let startMidi := noteToMidi openStringNote in
  if (startMidi =? -1)%Z then NoteName "" else midiToNote (startMidi + fret).

(** [getNotesInChord], for a quality that is a key of
    [CHORD_INTERVALS] or no property of it at all; under a quality that
    names an inherited property ([objectPrototypeNames]) the source
    finds a value without [map] and raises, which this model leaves
    out. *)
Definition getNotesInChord (chordName : string)
  : option (string * list string) :=
  match parseChordName chordName with
  | None => None
  | Some parsed =>
      match lookup (quality parsed) CHORD_INTERVALS with
      | None => None
      | Some intervals =>
          let rootIndex := indexOf NOTES (root parsed) in
          if (rootIndex =? -1)%Z then None
          else Some (root parsed,
                     map (fun interval =>
                            match at_ NOTES (Z.rem (rootIndex + interval) 12) with
                            | Some n => n
                            | None => "undefined"
                            end) intervals)
      end
  end.

(** [fretting.map((fret, stringIndex) => ..).filter(v => v !== null)]: one
    note per unmuted string.  Reading [tuning[stringIndex]] past the
    tuning yields [undefined], and [noteToMidi(undefined)] raises a
    [TypeError] at [note.match]. *)
Definition soundedStrings (tuning : list string) (fretting : list Fret)
  : Outcome (list ChordVoicing) :=
  cells <- mapM (fun cell : Fret * Z =>
                   let (f, stringIndex) := cell in
                   match f with
                   | X => Ok None
                   | Fr n =>
                       match at_ tuning stringIndex with
                       | None => Throw "TypeError: note is undefined"
                       | Some openString =>
                           Ok (Some (mkVoicing (getNoteFromFret openString n)
                                               stringIndex))
                       end
                   end)
                (mapi (fun f i => (f, i)) fretting) ;;
  Ok (flat_map (fun c => match c with Some v => [v] | None => [] end) cells).

Section VoicingResolver.

(** data/chords.ts is not part of the sources at hand: the two
    catalogues are parameters of everything that reads them. *)
Variables GUITAR_CHORDS UKULELE_CHORDS : ChordDB.

Definition getVoicingForChord (chordName instrument : string)
           (voicingIndex : Z) : Outcome (list ChordVoicing) :=
  let chordDB := if instrument =? "guitar" then GUITAR_CHORDS else UKULELE_CHORDS in
  let tuning := if instrument =? "guitar" then GUITAR_TUNING else UKULELE_TUNING in
  match lookup chordName chordDB with
  | None => Ok []
  | Some [] => Ok []
  | Some (first :: others) =>
      let allVoicings := first :: others in
      let voicingData :=
        match at_ allVoicings voicingIndex with
        | Some v => v
        | None => first
        end in
      soundedStrings tuning (frets voicingData)
  end.

End VoicingResolver.

(** ** Harmonic analyser *)

(** [roman.split('/')[1]], for a [roman] that contains a slash. *)
Fixpoint upToSlash (s : string) : string :=
  match s with
  | EmptyString => EmptyString
  | String c t => if Ascii.eqb c "/"%char then EmptyString else String c (upToSlash t)
  end.

Fixpoint afterSlash (s : string) : string :=
  match s with
  | EmptyString => EmptyString
  | String c t => if Ascii.eqb c "/"%char then t else afterSlash t
  end.

Definition secondSegment (roman : string) : string := upToSlash (afterSlash roman).

(** [realizeRomanNumeral], for keys and numerals that are rows and
    columns of the tables or no property of them at all
    ([objectPrototypeNames] lists the names that are inherited ones). *)
Definition realizeRomanNumeral (roman key : string) : option string :=
  let isMinorKey := endsWith key "m" in
  if isMinorKey then
    match lookup key MINOR_KEYS_DIATONIC with
    | None => None
    | Some minorChords =>
        let diatonic := truthy (lookup roman minorChords) in
        if roman =? "V" then
          match truthy (lookup "v" minorChords) with
          | Some v_chord =>
              match parseChordName v_chord with
              | Some parsed =>
                  if quality parsed =? "m" then Some (root parsed) else diatonic
              | None => diatonic
              end
          | None => diatonic
          end
        else diatonic
    end
  else
    match lookup key MAJOR_KEYS_DIATONIC with
    | None => None
    | Some keyChordsMajor =>
        if startsWith roman "V/" then
          let targetRoman := secondSegment roman in
          match truthy (lookup targetRoman keyChordsMajor) with
          | None => None
          | Some targetChordName =>
              match parseChordName targetChordName with
              | None => None
              | Some targetParsed =>
                  let targetRootIndex := indexOf NOTES (root targetParsed) in
                  if (targetRootIndex =? -1)%Z then None
                  else at_ NOTES (Z.rem (targetRootIndex + 7) 12)
              end
          end
        else
          let parallelMinorKey := key ++ "m" in
          let parallelMinorChords := lookup parallelMinorKey MINOR_KEYS_DIATONIC in
          if roman =? "iv" then
            match parallelMinorChords with
            | Some pm => truthy (lookup "iv" pm)
            | None => None
            end
          else if roman =? "♭VII" then
            match parallelMinorChords with
            | Some pm => truthy (lookup "VII" pm)
            | None => None
            end
          else truthy (lookup roman keyChordsMajor)
    end.

(** [for (const roman in keyChords) if (keyChords[roman] === chordName)
    return roman]. *)
Fixpoint firstRomanOf (chordName : string) (keyChords : list (string * string))
  : option string :=
  match keyChords with
  | [] => None
  | (roman, c) :: t => if c =? chordName then Some roman else firstRomanOf chordName t
  end.

(** The loop over [Object.keys(PROGRESSION_RULES_MAJOR)]. *)
Fixpoint nonDiatonicFunction (chordName key : string)
         (keyChords : list (string * string)) (allFunctions : list string)
  : option string :=
  match allFunctions with
  | [] => None
  | func :: rest =>
      match truthy (lookup func keyChords) with
      | Some _ => nonDiatonicFunction chordName key keyChords rest
      | None =>
          let realizedChordName := realizeRomanNumeral func key in
          let exact :=
            match realizedChordName with
            | Some r => r =? chordName
            | None => false
            end in
          if exact then Some func
          else
            let parsedRealized :=
              parseChordName (match realizedChordName with
                              | Some r => r
                              | None => ""
                              end) in
            let parsedCurrent := parseChordName chordName in
            match parsedRealized, parsedCurrent with
            | Some pr, Some pc =>
                if (root pr =? root pc) && startsWith func "V/" &&
                   ((quality pc =? "") || (quality pc =? "7"))
                then Some func
                else nonDiatonicFunction chordName key keyChords rest
            | _, _ => nonDiatonicFunction chordName key keyChords rest
            end
      end
  end.

(** Reads the keys of the major transition table, hence the argument. *)
Definition findFunctionOfChord (major : Rules) (chordName key : string)
  : option string :=
  let isMinorKey := endsWith key "m" in
  if isMinorKey then
    match lookup key MINOR_KEYS_DIATONIC with
    | None => None
    | Some keyChords =>
        match firstRomanOf chordName keyChords with
        | Some roman => Some roman
        | None =>
            match truthy (lookup "v" keyChords) with
            | Some v_chord =>
                match parseChordName v_chord, parseChordName chordName with
                | Some parsedV, Some parsedCurrent =>
                    if (root parsedV =? root parsedCurrent) &&
                       ((quality parsedCurrent =? "") || (quality parsedCurrent =? "7"))
                    then Some "V" else None
                | _, _ => None
                end
            | None => None
            end
        end
    end
  else
    match lookup key MAJOR_KEYS_DIATONIC with
    | None => None
    | Some keyChords =>
        match firstRomanOf chordName keyChords with
        | Some roman => Some roman
        | None => nonDiatonicFunction chordName key keyChords (map fst major)
        end
    end.

(** ** Transposer *)

Definition keyTonic (key : string) : string :=
  if endsWith key "m" then dropLast key else key.

Definition fallbackTranspose (oldKeyTonic newKeyTonic chord : string) : string :=
  match parseChordName oldKeyTonic, parseChordName newKeyTonic with
  | Some oldKeyParsed, Some newKeyParsed =>
      let oldKeyRootIndex := indexOf NOTES (root oldKeyParsed) in
      let newKeyRootIndex := indexOf NOTES (root newKeyParsed) in
      if (oldKeyRootIndex =? -1)%Z || (newKeyRootIndex =? -1)%Z then chord
      else
        let interval := newKeyRootIndex - oldKeyRootIndex in
        match parseChordName chord with
        | None => chord
        | Some parsed =>
            let rootIndex := indexOf NOTES (root parsed) in
            if (rootIndex =? -1)%Z then chord
            else
              let newRootIndex := Z.rem (rootIndex + interval + 12) 12 in
              match at_ NOTES newRootIndex with
              | Some newRoot => newRoot ++ quality parsed
              | None => "undefined" ++ quality parsed
              end
        end
  | _, _ => chord
  end.

Definition minorToMajorMap : list (string * string) :=
  [("i", "I"); ("ii", "ii"); ("III", "iii"); ("iv", "IV"); ("v", "V");
   ("V", "V"); ("VI", "vi"); ("VII", "vii")].

Definition majorToMinorMap : list (string * string) :=
  [("I", "i"); ("ii", "ii"); ("iii", "III"); ("IV", "iv"); ("V", "V");
   ("vi", "VI"); ("vii", "VII")].

Definition transposeChordSequence (major : Rules) (sequence : list string)
           (oldKey newKey : string) : list string :=
  let oldKeyTonic := keyTonic oldKey in
  let newKeyTonic := keyTonic newKey in
  let oldKeyIsMinor := endsWith oldKey "m" in
  let newKeyIsMinor := endsWith newKey "m" in
  if Bool.eqb oldKeyIsMinor newKeyIsMinor then
    map (fallbackTranspose oldKeyTonic newKeyTonic) sequence
  else
    map (fun chord =>
           match truthy (findFunctionOfChord major chord oldKey) with
           | None => fallbackTranspose oldKeyTonic newKeyTonic chord
           | Some roman =>
               let targetRoman :=
                 match truthy (lookup roman
                                 (if oldKeyIsMinor then minorToMajorMap
                                  else majorToMinorMap)) with
                 | Some r => r
                 | None => roman
                 end in
               match truthy (realizeRomanNumeral targetRoman newKey) with
               | Some newChord => newChord
               | None => fallbackTranspose oldKeyTonic newKeyTonic chord
               end
           end) sequence.

(** ** Successor engine *)

(** The comparator [(a, b) => b.weight - a.weight]. *)
Definition byWeightDescending (a b : Transition) : Z := weight b - weight a.

(** [progressionRules[f].sort(..)] sorts the array held by the table, in
    place: the call returns its list and the tables as it leaves them. *)
Definition getCommonProgressions (fromChord key : string) (allowBorrowed : bool)
           (st : RulesStore) : list string * RulesStore :=
  let isMinorKey := endsWith key "m" in
  let progressionRules := if isMinorKey then rulesMinor st else rulesMajor st in
  match truthy (findFunctionOfChord (rulesMajor st) fromChord key) with
  | None => ([], st)
  | Some currentFunction =>
      match lookup currentFunction progressionRules with
      | None => ([], st)
      | Some row =>
          let sorted := sort byWeightDescending row in
          let st' :=
            if isMinorKey
            then mkRulesStore (rulesMajor st) (store currentFunction sorted (rulesMinor st))
            else mkRulesStore (store currentFunction sorted (rulesMajor st)) (rulesMinor st) in
          let transitions :=
            if isMinorKey then sorted
            else filter (fun rule => allowBorrowed || negb (isBorrowed rule)) sorted in
          let nextChords :=
            flat_map (fun t =>
                        match truthy (if to t =? currentFunction
                                      then Some fromChord
                                      else realizeRomanNumeral (to t) key) with
                        | Some c => [c]
                        | None => []
                        end) transitions in
          (uniqueBy String.eqb nextChords, st')
      end
  end.

End Harmonics.

Import Harmonics.

(* ================================================================== *)
(** * logger.ts *)
(* ================================================================== *)

Module Logger.

Inductive LogType : Type := info | warn | error | action.

(** [interface LogEntry]; the wall-clock [timestamp] is not modelled. *)
Record LogEntry : Type := mkEntry
  { type : LogType; message : string; details : option string }.

(** [entries.unshift(e); if (entries.length > 200) entries.pop()]:
    newest first, at most 200 kept. *)
Definition addEntry (t : LogType) (msg : string) (d : option string)
           (entries : list LogEntry) : list LogEntry :=
  let entries' := mkEntry t msg d :: entries in
  if (200 <? List.length entries')%nat then removelast entries' else entries'.

Definition logInfo (msg : string) := addEntry info msg None.
Definition logWarn (msg : string) := addEntry warn msg None.

End Logger.

(* ================================================================== *)
(** * chord-validator.ts *)
(* ================================================================== *)

Module Validator.

Import Harmonics.

(** A number that may be [NaN] ([None]): [midiOf] looks note names up in
    a table that lacks some of the names its pattern lets through. *)
Definition Num : Type := option Z.

Definition PC (n : Z) : Z := Z.rem (Z.rem n 12 + 12) 12.

Definition noteToPc (name : string) : Z :=
  indexOf NOTES
    (replace (replace (replace (replace (replace name "Db" "C#")
                                        "Eb" "D#") "Gb" "F#") "Ab" "G#") "Bb" "A#").

Definition pcsSharps : list (string * Z) :=
  [("C", 0); ("C#", 1); ("D", 2); ("D#", 3); ("E", 4); ("F", 5); ("F#", 6);
   ("G", 7); ("G#", 8); ("A", 9); ("A#", 10); ("B", 11)].

Definition pcsAll : list (string * Z) :=
  [("C", 0); ("C#", 1); ("Db", 1); ("D", 2); ("D#", 3); ("Eb", 3); ("E", 4);
   ("F", 5); ("F#", 6); ("Gb", 6); ("G", 7); ("G#", 8); ("Ab", 8); ("A", 9);
   ("A#", 10); ("Bb", 10); ("B", 11)].

(** An optional minus sign and at least one digit, up to the end. *)
Definition signedDigits (s : string) : option Z :=
  let '(neg, body) :=
    match s with
    | String "-"%char t => (true, t)
    | _ => (false, s)
    end in
  match spanDigits body with
  | (EmptyString, _) => None
  | (ds, EmptyString) => Some (if neg then - digitsToZ ds else digitsToZ ds)
  | (_, String _ _) => None
  end.

(** The first pattern wants a letter, an optional sharp and an octave; the
    second, tried when the first fails, a bare note name, placed in
    octave 4. *)
Definition midiOf (note : string) : Outcome Num :=
  let withOctave :=
    match note with
    | String c t =>
        if isAtoG c then
          match t with
          | String "#"%char t' =>
              match signedDigits t' with
              | Some o => Some (String c "#", o)
              | None => None
              end
          | _ =>
              match signedDigits t with
              | Some o => Some (String c "", o)
              | None => None
              end
          end
        else None
    | EmptyString => None
    end in
  match withOctave with
  | Some (n, o) =>
      Ok (match lookup n pcsSharps with
          | Some pc => Some ((o + 1) * 12 + pc)
          | None => None
          end)
  | None =>
      let bare :=
        match note with
        | String c EmptyString => isAtoG c
        | String c (String a EmptyString) => isAtoG c && isAccidental a
        | _ => false
        end in
      if bare then
        Ok (match lookup (replace note "b" "#") pcsAll with
            | Some pc => Some ((4 + 1) * 12 + pc)
            | None => None
            end)
      else Throw ("Bad note " ++ note)
  end.

Definition tuningToPcs (tuning : list string) : Outcome (list Num) :=
  mapM (fun n => m <- midiOf n ;; Ok (option_map PC m)) tuning.

(** The roots the symbol pattern lists with an accidental. *)
Definition twoLetterRoots : list string :=
  ["A#"; "Bb"; "C#"; "Db"; "D#"; "Eb"; "F#"; "Gb"; "G#"; "Ab"].

Definition parseRoot (symbol : string) : Outcome (Z * string) :=
  let bad := Throw ("Bad chord symbol " ++ symbol) in
  match symbol with
  | String c rest =>
      if isAtoG c && negb (hasLineTerminator rest) then
        let '(root, qual) :=
          match rest with
          | String d rest' =>
              if existsb (String.eqb (String c (String d ""))) twoLetterRoots
              then (String c (String d ""), rest')
              else (String c "", rest)
          | EmptyString => (String c "", "")
          end in
        let pc := noteToPc root in
        if qual =? "" then Ok (pc, "")
        else if startsWith qual "maj7" then Ok (pc, "maj7")
        else if startsWith qual "m7b5" then Ok (pc, "m7b5")
        else if startsWith qual "m7" then Ok (pc, "m7")
        else if qual =? "m" then Ok (pc, "m")
        else if qual =? "7" then Ok (pc, "7")
        else if qual =? "dim" then Ok (pc, "dim")
        else Throw ("Unsupported quality: " ++ qual ++ " in " ++ symbol)
      else bad
  | EmptyString => bad
  end.

Definition numEqb (a b : Num) : bool :=
  match a, b with
  | Some x, Some y => (x =? y)%Z
  | None, None => true
  | _, _ => false
  end.

(** [parseRoot] only lets the keys of [CHORD_INTERVALS] through. *)
Definition expectedSet (rootPc : Z) (quality : string) : list Num :=
  uniqueBy numEqb
    (map (fun iv => Some (PC (rootPc + iv)))
         (match lookup quality CHORD_INTERVALS with
          | Some ivs => ivs
          | None => []
          end)).

Definition numAdd (a : Num) (b : Z) : Num := option_map (fun x => x + b) a.

Fixpoint collectPcs (i : Z) (fs : list Fret) (openPcs : list Num)
  : Outcome (list Num) :=
  match fs, openPcs with
  | f :: fs', o :: os =>
      match f with
      | X => collectPcs (i + 1) fs' os
      | Fr n =>
          if (n <? 0)%Z
          then Throw ("Bad fret " ++ showZ n ++ " at string " ++ showZ i)
          else rest <- collectPcs (i + 1) fs' os ;;
               Ok (option_map PC (numAdd o n) :: rest)
      end
  | _, _ => Ok []
  end.

Definition voicingToPcs (voicing : ChordVoicingData) (openPcs : list Num)
  : Outcome (list Num) :=
  if negb (List.length (frets voicing) =? List.length openPcs)%nat
  then Throw ("String count mismatch: frets="
              ++ showZ (Z.of_nat (List.length (frets voicing)))
              ++ ", tuning=" ++ showZ (Z.of_nat (List.length openPcs)))
  else collectPcs 0 (frets voicing) openPcs.

Record Issue : Type := mkIssue
  { symbol : string; index : Z; problems : list string }.

(** [NOTES[x]] inside [join]: [undefined] prints as the empty string. *)
Definition noteName (x : Num) : string :=
  match x with
  | Some z => match at_ NOTES z with Some n => n | None => "" end
  | None => ""
  end.

Definition validateVoicing (sym : string) (want openPcs : list Num)
           (v : ChordVoicingData) (idx : Z) : list Issue :=
  match voicingToPcs v openPcs with
  | Throw e => [mkIssue sym idx [e]]
  | Ok pcs =>
      let unique := uniqueBy numEqb pcs in
      let missing := filter (fun w => negb (existsb (numEqb w) unique)) want in
      let extraneous := filter (fun p => negb (existsb (numEqb p) want)) unique in
      let prob :=
        List.app
          (if (0 <? List.length missing)%nat
           then ["missing: " ++ join "," (map noteName missing)] else [])
          (List.app
             (if (0 <? List.length extraneous)%nat
              then ["non-chord tones: " ++ join "," (map noteName extraneous)]
              else [])
             (if (List.length pcs =? 0)%nat then ["all strings muted"] else [])) in
      if (0 <? List.length prob)%nat then [mkIssue sym idx prob] else []
  end.

Definition validateSymbol (openPcs : list Num)
           (entry : string * list ChordVoicingData) : list Issue :=
  let (sym, voicings) := entry in
  match parseRoot sym with
  | Throw e => [mkIssue sym (-1) [e]]
  | Ok (rootPc, quality) =>
      let want := expectedSet rootPc quality in
      List.concat (mapi (validateVoicing sym want openPcs) voicings)
  end.

Definition validateCatalog (label : string) (chords : ChordDB)
  : Outcome (list Issue) :=
  openPcs <- (if label =? "guitar" then tuningToPcs GUITAR_TUNING
              else tuningToPcs UKULELE_TUNING) ;;
  Ok (List.concat (map (validateSymbol openPcs) chords)).

(** ** The validator's caller, [runChordVoicingValidator] *)

Import Logger.

Definition logIssues (found allValid : string) (issues : list Issue)
           (entries : list LogEntry) : list LogEntry :=
  if (0 <? List.length issues)%nat then
    fold_left
      (fun log issue =>
         logWarn ("- " ++ symbol issue ++ " (voicing " ++ showZ (index issue)
                  ++ "): " ++ join "; " (problems issue)) log)
      issues
      (logWarn (found ++ showZ (Z.of_nat (List.length issues))) entries)
  else logInfo allValid entries.

Definition runChordVoicingValidator (GUITAR_CHORDS UKULELE_CHORDS : ChordDB)
           (entries : list LogEntry) : Outcome (list LogEntry) :=
  let entries := logInfo "Running chord voicing validation..." entries in
  guitarIssues <- validateCatalog "guitar" GUITAR_CHORDS ;;
  let entries := logIssues "Guitar chord voicing issues found: "
                           "✅ All guitar chord voicings are valid."
                           guitarIssues entries in
  ukuleleIssues <- validateCatalog "ukulele" UKULELE_CHORDS ;;
  Ok (logIssues "Ukulele chord voicing issues found: "
                "✅ All ukulele chord voicings are valid."
                ukuleleIssues entries).

End Validator.

(* ================================================================== *)
(** * types.ts: rhythm patterns *)
(* ================================================================== *)

Inductive BeatType : Type := down | up | rest.

(** [duration] is a fraction of one measure. *)
Record StrumBeat : Type := mkBeat { beatType : BeatType; duration : Q }.

Record StrummingPattern : Type := mkStrum
  { strumName : string;
    strumBpm : Z;
    strumBeatsPerMeasure : Z;
    strumTimeSignature : string;
    beats : list StrumBeat }.

Record ArpeggioPattern : Type := mkArpeggio
  { name : string;
    bpm : Z;
    beatsPerMeasure : Z;
    timeSignature : string;
    noteOrder : list Z }.

(** [StrummingPattern | ArpeggioPattern]: the source tells them apart by
    the presence of the [beats], respectively [noteOrder], property. *)
Inductive Pattern : Type :=
| Strum (p : StrummingPattern)
| Arpeggio (p : ArpeggioPattern).

(* ================================================================== *)
(** * audio.ts: the arpeggio scheduler *)
(* ================================================================== *)

Module Audio.

Import Harmonics.

(** [voicing.find(v => v.stringIndex === s)]. *)
Definition findString (voicing : list ChordVoicing) (s : Z) : option ChordVoicing :=
  find (fun v => (stringIndex v =? s)%Z) voicing.

(** The [noteOrder] that [playArpeggiatedChord] walks: the pattern's own,
    or for a scalable pattern the sounded strings, sorted on a copy. *)
Definition arpeggiatedNoteOrder (voicing : list ChordVoicing)
           (pattern : ArpeggioPattern) : list Z :=
  let isScalablePattern := (List.length (noteOrder pattern) =? 0)%nat in
  if isScalablePattern then
    let voicedStringIndexes := map stringIndex voicing in
    if includes (name pattern) "Ascending"
    then sort (fun a b => b - a) voicedStringIndexes
    else sort (fun a b => a - b) voicedStringIndexes
  else noteOrder pattern.

(** One [player.play] call: the note, its string and the step [i] it is
    scheduled at (start time [startTime + i * noteDuration]). *)
Record Scheduled : Type := mkScheduled
  { playedNote : NoteValue; playedString : Z; step : Z }.

(** The calls [playArpeggiatedChord] makes once the player is ready; a
    step whose string the voicing does not sound stays silent. *)
Definition playArpeggiatedChord (voicing : list ChordVoicing)
           (pattern : ArpeggioPattern) : list Scheduled :=
  let noteOrder := arpeggiatedNoteOrder voicing pattern in
  List.concat
    (mapi (fun stringIndexToPlay i =>
             match findString voicing stringIndexToPlay with
             | Some noteInfo => [mkScheduled (note noteInfo) (stringIndex noteInfo) i]
             | None => []
             end) noteOrder).

End Audio.

(* ================================================================== *)
(** * midi.ts *)
(* ================================================================== *)

Module Midi.

Import Harmonics.

Definition NOTE_TO_MIDI_VAL : list (string * Z) :=
  [("C", 0); ("C#", 1); ("Db", 1); ("D", 2); ("D#", 3); ("Eb", 3); ("E", 4);
   ("F", 5); ("F#", 6); ("Gb", 6); ("G", 7); ("G#", 8); ("Ab", 8); ("A", 9);
   ("A#", 10); ("Bb", 10); ("B", 11)].

Definition MIDI_NOTE_ON : Z := 144.
Definition MIDI_NOTE_OFF : Z := 128.
Definition MIDI_VELOCITY : Z := 100.
Definition timeDivision : Z := 480.

Inductive EventType : Type := on | off.

Record MidiEvent : Type := mkEvent { tick : Z; type : EventType; pitch : Z }.

Record ProgressionChord : Type := mkProgChord
  { chord : string;
    voicingIndex : Z;
    strumPatternId : option string;
    arpeggioPatternId : option string }.

(** ** Binary helpers: each returns the bytes it pushes *)

Definition writeInt32 (value : Z) : list Z :=
  [band (shr value 24) 255; band (shr value 16) 255;
   band (shr value 8) 255; band value 255].

Definition writeInt16 (value : Z) : list Z :=
  [band (shr value 8) 255; band value 255].

(** The first loop of [writeVarInt], [while ((value >>= 7) > 0)].  A
    32-bit value is exhausted after four shifts, so the fuel is never
    what ends the loop ([packGroups_fuel]). *)
Fixpoint packGroups (fuel : nat) (value buffer : Z) : Z :=
  match fuel with
  | O => buffer
  | S k =>
      let value' := shr value 7 in
      if (0 <? value')%Z
      then packGroups k value' (bor (shl buffer 8) (bor (band value' 127) 128))
      else buffer
  end.

(** The second loop, [while (true)]: it leaves when the byte just written
    has no continuation bit.  [None] when the fuel runs out (a negative
    buffer whose signed shifts keep that bit set for ever); a result does
    not depend on the fuel left ([emitBytes_fuel]). *)
Fixpoint emitBytes (fuel : nat) (buffer : Z) : option (list Z) :=
  match fuel with
  | O => None
  | S k =>
      let b := band buffer 255 in
      if (band buffer 128 =? 0)%Z then Some [b]
      else option_map (cons b) (emitBytes k (shr buffer 8))
  end.

Definition writeVarInt (value : Z) : option (list Z) :=
  emitBytes 8 (packGroups 8 value (band value 127)).

(** A letter A to G, an optional sharp or flat sign, one digit; [None]
    is the [null] of a name that does not match.  The function begins
    with [note.match]: on the number [NaN], which has no such method, it
    raises a [TypeError]. *)
Definition noteToMidi (note : NoteValue) : Outcome (option Z) :=
  match note with
  | NaN => Throw "TypeError: note.match is not a function"
  | NoteName note =>
      let parts :=
        match note with
        | String c (String d EmptyString) =>
            if isAtoG c && isDigit d then Some (String c "", d) else None
        | String c (String a (String d EmptyString)) =>
            if isAtoG c && isAccidental a && isDigit d
            then Some (String c (String a ""), d) else None
        | _ => None
        end in
      match parts with
      | None => Ok None
      | Some (noteName, d) =>
          let octave := Z.of_nat (nat_of_ascii d) - 48 in
          match lookup noteName NOTE_TO_MIDI_VAL with
          | None => Ok None
          | Some noteVal => Ok (Some (12 * (octave + 1) + noteVal))
          end
      end
  end.

(** ** Event generation *)

(** [voicing.map(v => noteToMidi(v.note)).filter(n => n !== null)]. *)
Definition midiNotesOf (voicing : list ChordVoicing) : Outcome (list Z) :=
  pitches <- mapM (fun v => noteToMidi (note v)) voicing ;;
  Ok (flat_map (fun n : option Z => match n with
                                    | Some p => [p]
                                    | None => []
                                    end) pitches).

Definition noteOnOff (startTick endTick p : Z) : list MidiEvent :=
  [mkEvent startTick on p; mkEvent endTick off p].

(** The note order the serialiser walks for an arpeggio. *)
Definition exportNoteOrder (voicing : list ChordVoicing)
           (activeArpeggio : ArpeggioPattern) : list Z :=
  let isScalablePattern := (List.length (noteOrder activeArpeggio) =? 0)%nat in
  if isScalablePattern then
    let voicedStringIndexes := map stringIndex voicing in
    if includes (name activeArpeggio) "Ascending"
    then sort (fun a b => b - a) voicedStringIndexes
    else sort (fun a b => a - b) voicedStringIndexes
  else noteOrder activeArpeggio.

(** [noteOrder.forEach((stringIndex, i) => ..)]: the events each step
    pushes; an exception of [noteToMidi] ends the walk. *)
Definition arpeggioEvents (voicing : list ChordVoicing) (order : list Z)
           (currentTick ticksPerNote : Z) : Outcome (list MidiEvent) :=
  pushed <- mapM (fun step : Z * Z =>
                    let (stringIndex, i) := step in
                    match Audio.findString voicing stringIndex with
                    | Some noteInfo =>
                        pitch <- noteToMidi (note noteInfo) ;;
                        match pitch with
                        | Some p =>
                            if (p =? 0)%Z then Ok []
                            else let startTick := currentTick + i * ticksPerNote in
                                 Ok (noteOnOff startTick (startTick + ticksPerNote) p)
                        | None => Ok []
                        end
                    | None => Ok []
                    end)
                 (mapi (fun stringIndex i => (stringIndex, i)) order) ;;
  Ok (List.concat pushed).

(** [Math.round(beat.duration * ticksPerMeasure)]; the product is taken
    exactly, where the source takes it in floating point. *)
Definition beatTicksOf (beat : StrumBeat) (ticksPerMeasure : Z) : Z :=
  round (Qmult (duration beat) (inject_Z ticksPerMeasure)).

Definition strumBeatEvents (midiNotes : list Z) (beat : StrumBeat)
           (currentTick tickInMeasure beatTicks : Z) : list MidiEvent :=
  match beatType beat with
  | rest => []
  | ty =>
      let strumNotes := match ty with down => midiNotes | _ => rev midiNotes end in
      List.concat
        (mapi (fun p i =>
                 let strumDelay := i * 5 in
                 let startTick := currentTick + tickInMeasure + strumDelay in
                 noteOnOff startTick (startTick + beatTicks - strumDelay) p)
              strumNotes)
  end.

Fixpoint strumEvents (midiNotes : list Z) (bs : list StrumBeat)
         (currentTick ticksPerMeasure tickInMeasure : Z) : list MidiEvent :=
  match bs with
  | [] => []
  | beat :: more =>
      let beatTicks := beatTicksOf beat ticksPerMeasure in
      List.app
        (strumBeatEvents midiNotes beat currentTick tickInMeasure beatTicks)
        (strumEvents midiNotes more currentTick ticksPerMeasure
                     (tickInMeasure + beatTicks))
  end.

Definition blockEvents (midiNotes : list Z) (currentTick ticksPerChord : Z)
  : list MidiEvent :=
  flat_map (noteOnOff currentTick (currentTick + ticksPerChord)) midiNotes.

Section Serialiser.

(** What the serialiser reads from the rest of the program: the two
    catalogues, the saved instrument, the tempo of the session, and the
    pattern library (presets and the stored custom patterns). *)
Variables GUITAR_CHORDS UKULELE_CHORDS : ChordDB.
Variable getSavedInstrument : option string.
Variable getActiveBpm : Z.
Variable getPatternById : string -> option Pattern.

(** [id ? getPatternById(id) : null]. *)
Definition patternFor (id : option string) : option Pattern :=
  match id with
  | None => None
  | Some s => if s =? "" then None else getPatternById s
  end.

(** One turn of the loop over the progression, for a resolved voicing:
    the events it pushes and the tick counter it leaves. *)
Definition chordEvents (voicing : list ChordVoicing)
           (progChord : ProgressionChord) (currentTick : Z)
  : Outcome (list MidiEvent * Z) :=
  if (List.length voicing =? 0)%nat then Ok ([], currentTick)
  else
    let activeStrum :=
      match patternFor (strumPatternId progChord) with
      | Some (Strum p) => Some p
      | _ => None
      end in
    let activeArpeggio :=
      match patternFor (arpeggioPatternId progChord) with
      | Some (Arpeggio p) => Some p
      | _ => None
      end in
    match activeArpeggio, activeStrum with
    | Some arp, _ =>
        let order := exportNoteOrder voicing arp in
        let ticksPerMeasure := beatsPerMeasure arp * timeDivision in
        let numNotes := Z.of_nat (List.length order) in
        if (numNotes =? 0)%Z then Ok ([], currentTick)
        else
          let ticksPerNote := ticksPerMeasure / numNotes in
          evs <- arpeggioEvents voicing order currentTick ticksPerNote ;;
          Ok (evs, currentTick + ticksPerMeasure)
    | None, Some st =>
        midiNotes <- midiNotesOf voicing ;;
        let ticksPerMeasure := strumBeatsPerMeasure st * timeDivision in
        Ok (strumEvents midiNotes (beats st) currentTick ticksPerMeasure 0,
            currentTick + ticksPerMeasure)
    | None, None =>
        midiNotes <- midiNotesOf voicing ;;
        let ticksPerChord := timeDivision * 4 in
        Ok (blockEvents midiNotes currentTick ticksPerChord,
            currentTick + ticksPerChord)
    end.

(** The loop: [allMidiEvents] in push order and the final [currentTick];
    an exception of the voicing resolver or of [noteToMidi] ends the
    export. *)
Fixpoint collectEvents (instrument : string)
         (progression : list ProgressionChord) (currentTick : Z)
  : Outcome (list MidiEvent * Z) :=
  match progression with
  | [] => Ok ([], currentTick)
  | progChord :: more =>
      voicing <- getVoicingForChord GUITAR_CHORDS UKULELE_CHORDS
                   (chord progChord) instrument (voicingIndex progChord) ;;
      pushed <- chordEvents voicing progChord currentTick ;;
      let (evs, tick') := pushed in
      r <- collectEvents instrument more tick' ;;
      Ok (List.app evs (fst r), snd r)
  end.

(** [allMidiEvents.sort((a, b) => a.tick - b.tick)]. *)
Definition sortEvents (events : list MidiEvent) : list MidiEvent :=
  sort (fun a b => tick a - tick b) events.

(** The delta times handed to [writeVarInt], in order. *)
Fixpoint deltaTimes (events : list MidiEvent) (lastTick : Z) : list Z :=
  match events with
  | [] => []
  | e :: more => (tick e - lastTick) :: deltaTimes more (tick e)
  end.

Definition statusOf (e : MidiEvent) : Z :=
  match type e with
  | on => MIDI_NOTE_ON
  | off => MIDI_NOTE_OFF
  end.

Fixpoint eventBytes (events : list MidiEvent) (lastTick : Z)
  : option (list Z) :=
  match events with
  | [] => Some []
  | e :: more =>
      match writeVarInt (tick e - lastTick) with
      | None => None
      | Some d =>
          option_map
            (fun r => List.app d (statusOf e :: pitch e :: MIDI_VELOCITY :: r))
            (eventBytes more (tick e))
      end
  end.

Definition microsecondsPerQuarter : Z :=
  let bpm := if (getActiveBpm =? 0)%Z then 120 else getActiveBpm in
  round (Qdiv (inject_Z 60000000) (inject_Z bpm)).

Definition trackBytesOf (events : list MidiEvent) : option (list Z) :=
  match writeVarInt 0, eventBytes events 0, writeVarInt 0 with
  | Some t0, Some body, Some e0 =>
      Some (List.app t0
             (List.app [255; 81; 3;
                        band (shr microsecondsPerQuarter 16) 255;
                        band (shr microsecondsPerQuarter 8) 255;
                        band microsecondsPerQuarter 255]
                (List.app body (List.app e0 [255; 47; 0]))))
  | _, _, _ => None
  end.

Definition charCodes (s : string) : list Z :=
  map (fun c => Z.of_nat (nat_of_ascii c)) (list_ascii_of_string s).

Inductive ExportResult : Type :=
| NoInstrument
| Raised (msg : string)
| Diverges
| File (midiData : list Z).

(** The contents of the [Uint8Array] handed to the download. *)
Definition exportProgressionToMidi (progression : list ProgressionChord)
  : ExportResult :=
  match getSavedInstrument with
  | None => NoInstrument
  | Some instrument =>
      match collectEvents instrument progression 0 with
      | Throw e => Raised e
      | Ok (allMidiEvents, _) =>
          match trackBytesOf (sortEvents allMidiEvents) with
          | None => Diverges
          | Some trackBytes =>
              let headerBytes :=
                List.app (charCodes "MThd")
                  (List.app [0; 0; 0; 6; 0; 0; 0; 1] (writeInt16 timeDivision)) in
              let trackHeader :=
                List.app (charCodes "MTrk")
                  (writeInt32 (Z.of_nat (List.length trackBytes))) in
              File (map (fun b => b mod 256)
                        (List.app headerBytes (List.app trackHeader trackBytes)))
          end
      end
  end.

End Serialiser.

End Midi.

(* ================================================================== *)
(** * The specification's vocabulary *)
(* ================================================================== *)

Module Spec.

Import Harmonics.

(** Pitch class of a root as the specification's chord parser defines it:
    flats fold onto their sharp spelling (Db to C#, Eb to D#, Gb to F#,
    Ab to G#, Bb to A#), C is 0. *)
Definition rootPc (r : string) : Z :=
  indexOf NOTES
    (if r =? "Db" then "C#" else if r =? "Eb" then "D#"
     else if r =? "Gb" then "F#" else if r =? "Ab" then "G#"
     else if r =? "Bb" then "A#" else r).

(** [result] is the chromatic shift of [chord] from tonic [oldTonic] to
    tonic [newTonic]: the root moved by the difference of the tonics'
    pitch classes modulo 12, the quality kept. *)
Definition isChromaticShift (oldTonic newTonic chord result : string) : bool :=
  match parseChordName chord, parseChordName result with
  | Some c, Some r =>
      (0 <=? rootPc (root c))%Z && (0 <=? rootPc (root r))%Z &&
      (rootPc (root r) =? (rootPc (root c) + (rootPc newTonic - rootPc oldTonic)) mod 12)%Z &&
      (quality r =? quality c)
  | _, _ => false
  end.

(** The diatonic Roman numerals of a key: the numerals of its row in the
    diatonic table and, in a minor key, the harmonic-minor V. *)
Definition diatonicRomans (key : string) : list string :=
  if endsWith key "m" then
    match lookup key MINOR_KEYS_DIATONIC with
    | Some row => List.app (map fst row) ["V"]
    | None => []
    end
  else
    match lookup key MAJOR_KEYS_DIATONIC with
    | Some row => map fst row
    | None => []
    end.

Definition supportedKeys : list string :=
  List.app (map fst MAJOR_KEYS_DIATONIC) (map fst MINOR_KEYS_DIATONIC).

(** On the spellings [NOTES] has, for both tonics and for the root, the
    transposer does shift chromatically, in either mode. *)
Definition sharpSpelledShiftHolds : bool :=
  forallb (fun minor : bool =>
  forallb (fun oldTonic =>
  forallb (fun newTonic =>
  forallb (fun r =>
  forallb (fun q =>
    let suffix := if minor then "m" else "" in
    match transposeChordSequence PROGRESSION_RULES_MAJOR [r ++ q]
            (oldTonic ++ suffix) (newTonic ++ suffix) with
    | [res] => isChromaticShift oldTonic newTonic (r ++ q) res
    | _ => false
    end)
    (map fst CHORD_INTERVALS)) NOTES) NOTES) NOTES) [false; true].

(** The round trip of one numeral through [realizeRomanNumeral] and
    [findFunctionOfChord], as a test. *)
Definition roundTrips (major : Rules) (K r : string) : bool :=
  match realizeRomanNumeral r K with
  | Some c =>
      match findFunctionOfChord major c K with
      | Some r' => r' =? r
      | None => false
      end
  | None => false
  end.

End Spec.

(* ================================================================== *)
(** * Sample catalogues *)
(* ================================================================== *)

(** A guitar catalogue with the open C chord alone (frets listed from
    the high e string down; the low E string is muted). *)
Definition openC : ChordDB :=
  [("C", [Harmonics.mkVoicingData
            [Harmonics.Fr 0; Harmonics.Fr 1; Harmonics.Fr 0;
             Harmonics.Fr 2; Harmonics.Fr 3; Harmonics.X] []])].

(** The same chord with the muted string left out of the list: five
    frets for six strings. *)
Definition shortC : ChordDB :=
  [("C", [Harmonics.mkVoicingData
            [Harmonics.Fr 0; Harmonics.Fr 1; Harmonics.Fr 0;
             Harmonics.Fr 2; Harmonics.Fr 3] []])].

(** C major an octave up: E5, C5, G4, E4, C4 from the high e string. *)
Definition highC : ChordDB :=
  [("C", [Harmonics.mkVoicingData
            [Harmonics.Fr 12; Harmonics.Fr 13; Harmonics.Fr 12;
             Harmonics.Fr 14; Harmonics.Fr 15; Harmonics.X] []])].

(** Two presets of data/rhythms.ts, under their identifiers. *)
Definition samplePatterns (id : string) : option Pattern :=
  if id =? "asc-44" then
    Some (Arpeggio (mkArpeggio "Ascending" 120 4 "4/4" []))
  else if id =? "simple-cut" then
    Some (Strum (mkStrum "Simple Cut" 100 2 "2/2"
                         [mkBeat down (1 # 2); mkBeat down (1 # 2)]))
  else None.

Definition isSounded (f : Harmonics.Fret) : bool :=
  match f with
  | Harmonics.X => false
  | Harmonics.Fr _ => true
  end.

(* ================================================================== *)
(** * Well-formed inputs and event streams *)
(* ================================================================== *)

(** A catalogue fits a tuning when no voicing lists more frets than the
    instrument has strings. *)
Definition fitsTuning (tuning : list string) (db : Harmonics.ChordDB) : Prop :=
  forall sym voicings v,
    lookup sym db = Some voicings ->
    In v voicings ->
    (List.length (Harmonics.frets v) <= List.length tuning)%nat.

(** The data model's invariants on a pattern: a measure has no negative
    number of beats and no beat a negative share of the measure. *)
Definition wellFormedPattern (p : Pattern) : Prop :=
  match p with
  | Strum st =>
      0 <= strumBeatsPerMeasure st /\
      Forall (fun b => Qle 0 (duration b)) (beats st)
  | Arpeggio a => 0 <= beatsPerMeasure a
  end.




Definition nonNegativeTicks (evs : list Midi.MidiEvent) : Prop :=
  Forall (fun e => 0 <= Midi.tick e) evs.

(** No voicing of the catalogue has a negative fret (what the validator
    calls a bad fret). *)
Definition noNegativeFret (db : Harmonics.ChordDB) : Prop :=
  forall sym voicings v n,
    lookup sym db = Some voicings ->
    In v voicings ->
    In (Harmonics.Fr n) (Harmonics.frets v) ->
    0 <= n.

(** The serialiser starts the strings of a strum 5 ticks apart and ends
    all of them with the beat.  On the up to six strings of a voicing the
    last one starts 25 ticks into the beat: a sounding beat of at least
    25 ticks ends no note before it has started. *)
Definition staggerFits (p : Pattern) : Prop :=
  match p with
  | Strum st =>
      Forall (fun b =>
                beatType b = rest \/
                25 <= Midi.beatTicksOf b (strumBeatsPerMeasure st * Midi.timeDivision))
             (beats st)
  | Arpeggio _ => True
  end.

(** Events as the serialiser pushes them: note by note, the note-on and
    right after it the note-off of the same pitch, their ticks related
    by [P]. *)
Inductive pushedInPairs (P : Z -> Z -> Prop) : list Midi.MidiEvent -> Prop :=
| pushed_nil : pushedInPairs P []
| pushed_note (s e p : Z) (more : list Midi.MidiEvent) :
    P s e ->
    pushedInPairs P more ->
    pushedInPairs P (Midi.mkEvent s Midi.on p :: Midi.mkEvent e Midi.off p :: more).

(** The two ticks of a pushed note: neither is negative and, when the
    patterns are known to fit the stagger, the note-off is not the
    earlier one. *)
Definition soundNote (staggered : Prop) (s e : Z) : Prop :=
  0 <= s /\ 0 <= e /\ (staggered -> s <= e).

(** A voicing as the resolver returns it on a well-formed catalogue: at
    most six notes, each a note name. *)
Definition resolvedVoicing (voicing : list Harmonics.ChordVoicing) : Prop :=
  (List.length voicing <= 6)%nat /\
  Forall (fun v => exists name, Harmonics.note v = Harmonics.NoteName name) voicing.



(* ================================================================== *)
(** * harmonics.ts: classification and substitutions *)
(* ================================================================== *)

Module Analysis.

Import Harmonics.

(** [getKeyForTonic]: the major key on the root of a chord name. *)
Definition getKeyForTonic (tonicChord : string) : option string :=
  match parseChordName tonicChord with
  | None => None
  | Some parsed =>
      match lookup (root parsed) MAJOR_KEYS_DIATONIC with
      | Some _ => Some (root parsed)
      | None => None
      end
  end.

Inductive ChordFunctionGroup : Type :=
| primary
| secondary
| borrowed
| tense
| secondaryDominant.

(** [names.includes(x)]. *)
Definition oneOf (names : list string) (x : string) : bool :=
  existsb (String.eqb x) names.

(** Reads [PROGRESSION_RULES_MAJOR] twice: through the analyser and in
    its own loop over the borrowed transitions. *)
Definition getChordFunctionGroup (major : Rules) (chordName key : string)
  : option ChordFunctionGroup :=
  match truthy (findFunctionOfChord major chordName key) with
  | None => None
  | Some roman =>
      if endsWith key "m" then
        if oneOf ["i"; "iv"; "v"; "V"] roman then Some primary
        else if oneOf ["VI"; "III"; "VII"] roman then Some secondary
        else if oneOf ["ii"] roman then Some tense
        else None
      else
        if oneOf ["I"; "IV"; "V"] roman then Some primary
        else if oneOf ["ii"; "iii"; "vi"] roman then Some secondary
        else if startsWith roman "V/" then Some secondaryDominant
        else if oneOf ["vii"] roman then Some tense
        else if existsb (fun row : string * list Transition =>
                           existsb (fun rule => (to rule =? roman) && isBorrowed rule)
                                   (snd row)) major
        then Some borrowed
        else if oneOf ["iv"; "♭VII"] roman then Some borrowed
        else None
  end.

(** [interface ChordSubstitution]. *)
Record ChordSubstitution : Type := mkSubstitution
  { subName : string; subDescription : string; subVoicing : ChordVoicingData }.

(** The candidates [getChordSubstitutions] collects before its final
    filter, as (name, description) pairs in push order.  A root that
    [NOTES] does not list has index -1, so its tritone lands on [NOTES[5]].
    Every row of [MAJOR_KEYS_DIATONIC] has the numerals the function
    swaps read; ["undefined"] stands for the value a row without them
    would give. *)
Definition substitutionCandidates (major : Rules) (chordName key : string)
  : list (string * string) :=
  match parseChordName chordName with
  | None => []
  | Some parsed =>
      let r := root parsed in
      let q := quality parsed in
      let extensions :=
        List.app
          (if q =? "" then
             [(r ++ "sus4", "Suspended 4th: Open, airy feel.");
              (r ++ "sus2", "Suspended 2nd: Bright, modern sound.");
              (r ++ "maj7", "Major 7th: Jazzy, sophisticated.")]
           else [])
          (List.app
             (if q =? "m" then [(r ++ "m7", "Minor 7th: Soulful, mellow.")] else [])
             (if q =? "7" then
                let rootIndex := indexOf NOTES r in
                let tritoneRoot :=
                  match at_ NOTES (Z.rem (rootIndex + 6) 12) with
                  | Some n => n
                  | None => "undefined"
                  end in
                [(r ++ "9", "Dominant 9th: Funkier, richer dominant.");
                 (r ++ "7sus4", "7sus4: A softer, modern dominant.");
                 (tritoneRoot ++ "7", "Tritone Sub: Tense, jazzy resolution.")]
              else [])) in
      let swaps :=
        match truthy (findFunctionOfChord major chordName key),
              lookup key MAJOR_KEYS_DIATONIC with
        | Some func, Some keyChords =>
            let chordOf roman :=
              match lookup roman keyChords with
              | Some c => c
              | None => "undefined"
              end in
            List.app
              (if func =? "I"
               then [(chordOf "vi", "Relative Minor: Deeper, emotional feel.")] else [])
              (List.app
                 (if func =? "IV"
                  then [(chordOf "ii", "Subdominant Minor: A common pop swap.")] else [])
                 (if func =? "V"
                  then [(chordOf "vii", "Leading-Tone Dim: Adds tension to V.")] else []))
        | _, _ => []
        end in
      List.app extensions swaps
  end.

(** The final filter: a [Map] keyed by name, filled in push order with the
    candidates that have a voicing and are not yet in it. *)
Fixpoint uniqueWithVoicing (chordDB : ChordDB) (subs : list (string * string))
         (uniqueSubs : list ChordSubstitution) : list ChordSubstitution :=
  match subs with
  | [] => uniqueSubs
  | (n, d) :: more =>
      match lookup n chordDB with
      | Some (v :: _) =>
          if existsb (fun u => subName u =? n) uniqueSubs
          then uniqueWithVoicing chordDB more uniqueSubs
          else uniqueWithVoicing chordDB more
                 (List.app uniqueSubs [mkSubstitution n d v])
      | _ => uniqueWithVoicing chordDB more uniqueSubs
      end
  end.

Definition getChordSubstitutions (GUITAR_CHORDS UKULELE_CHORDS : ChordDB)
           (major : Rules) (chordName key instrument : string)
  : list ChordSubstitution :=
  let chordDB := if instrument =? "guitar" then GUITAR_CHORDS else UKULELE_CHORDS in
  uniqueWithVoicing chordDB (substitutionCandidates major chordName key) [].

End Analysis.

(* ================================================================== *)
(** * data/rhythms.ts *)
(* ================================================================== *)

(** The presets, with the array expressions of the source written out
    and each duration as the exact fraction the source divides.  The
    display-only [visual] field is not carried. *)
Definition STRUMMING_PATTERNS : list (string * StrummingPattern) :=
  [
    ("basic-4-4", mkStrum "Basic 4/4" 120 4 "4/4"
       [mkBeat down (1 # 4); mkBeat down (1 # 4); mkBeat up (1 # 8); mkBeat up (1 # 8); mkBeat down (1 # 8); mkBeat up (1 # 8)]);
    ("folk-pop", mkStrum "Folk Pop" 100 4 "4/4"
       [mkBeat down (1 # 8); mkBeat rest (1 # 8); mkBeat down (1 # 8); mkBeat up (1 # 8); mkBeat rest (1 # 8); mkBeat up (1 # 8); mkBeat down (1 # 8); mkBeat up (1 # 8)]);
    ("campfire", mkStrum "Campfire" 130 4 "4/4"
       [mkBeat down (1 # 4); mkBeat down (1 # 8); mkBeat up (1 # 8); mkBeat rest (1 # 8); mkBeat up (1 # 8); mkBeat down (1 # 8); mkBeat up (1 # 8)]);
    ("four-on-floor", mkStrum "Four on the Floor" 120 4 "4/4"
       [mkBeat down (1 # 4); mkBeat down (1 # 4); mkBeat down (1 # 4); mkBeat down (1 # 4)]);
    ("simple-8ths", mkStrum "Simple 8ths" 110 4 "4/4"
       [mkBeat down (1 # 8); mkBeat up (1 # 8); mkBeat down (1 # 8); mkBeat up (1 # 8); mkBeat down (1 # 8); mkBeat up (1 # 8); mkBeat down (1 # 8); mkBeat up (1 # 8)]);
    ("island-strum", mkStrum "Island Strum" 110 4 "4/4"
       [mkBeat down (1 # 8); mkBeat rest (1 # 8); mkBeat down (1 # 8); mkBeat up (1 # 8); mkBeat rest (1 # 8); mkBeat up (1 # 8); mkBeat down (1 # 8); mkBeat rest (1 # 8)]);
    ("syncopated-pop", mkStrum "Syncopated Pop" 95 4 "4/4"
       [mkBeat down (1 # 8); mkBeat rest (1 # 8); mkBeat rest (1 # 8); mkBeat up (1 # 8); mkBeat rest (1 # 8); mkBeat up (1 # 8); mkBeat down (1 # 8); mkBeat rest (1 # 8)]);
    ("simple-cut", mkStrum "Simple Cut" 100 2 "2/2"
       [mkBeat down (1 # 2); mkBeat down (1 # 2)]);
    ("march-cut", mkStrum "March (Cut Time)" 120 2 "2/2"
       [mkBeat down (1 # 2); mkBeat down (1 # 4); mkBeat up (1 # 4)]);
    ("driving-cut", mkStrum "Driving Cut" 140 2 "2/2"
       [mkBeat down (1 # 4); mkBeat up (1 # 4); mkBeat down (1 # 4); mkBeat up (1 # 4)]);
    ("syncopated-march", mkStrum "Syncopated March" 110 2 "2/2"
       [mkBeat down (1 # 4); mkBeat rest (1 # 4); mkBeat up (1 # 4); mkBeat down (1 # 4)]);
    ("alla-breve-pulse", mkStrum "Alla Breve Pulse" 130 2 "2/2"
       [mkBeat down (1 # 4); mkBeat up (1 # 4); mkBeat rest (1 # 4); mkBeat up (1 # 4)]);
    ("polka-strum", mkStrum "Polka Strum" 130 2 "2/4"
       [mkBeat down (1 # 4); mkBeat up (1 # 4); mkBeat down (1 # 4); mkBeat up (1 # 4)]);
    ("simple-2-4", mkStrum "Simple 2/4" 100 2 "2/4"
       [mkBeat down (1 # 2); mkBeat down (1 # 2)]);
    ("march-2-4", mkStrum "March 2/4" 120 2 "2/4"
       [mkBeat down (1 # 2); mkBeat down (1 # 4); mkBeat up (1 # 4)]);
    ("latin-2-4", mkStrum "Latin Feel" 110 2 "2/4"
       [mkBeat down (1 # 4); mkBeat rest (1 # 4); mkBeat up (1 # 4); mkBeat down (1 # 4)]);
    ("bouncy-2-4", mkStrum "Bouncy 2/4" 125 2 "2/4"
       [mkBeat down (1 # 4); mkBeat rest (1 # 4); mkBeat down (1 # 4); mkBeat up (1 # 4)]);
    ("waltz-3-4", mkStrum "Waltz" 140 3 "3/4"
       [mkBeat down (1 # 3); mkBeat down (1 # 6); mkBeat up (1 # 6); mkBeat down (1 # 6); mkBeat up (1 # 6)]);
    ("classic-waltz", mkStrum "Classic Waltz" 130 3 "3/4"
       [mkBeat down (1 # 3); mkBeat down (1 # 3); mkBeat down (1 # 3)]);
    ("folk-waltz", mkStrum "Folk Waltz" 120 3 "3/4"
       [mkBeat down (1 # 3); mkBeat down (1 # 6); mkBeat up (1 # 6); mkBeat down (1 # 6); mkBeat up (1 # 6)]);
    ("country-ballad-3-4", mkStrum "Country Ballad" 90 3 "3/4"
       [mkBeat down (1 # 6); mkBeat rest (1 # 6); mkBeat down (1 # 6); mkBeat up (1 # 6); mkBeat rest (1 # 6); mkBeat up (1 # 6)]);
    ("mazurka-3-4", mkStrum "Mazurka Feel" 150 3 "3/4"
       [mkBeat down (1 # 6); mkBeat rest (1 # 6); mkBeat down (1 # 6); mkBeat rest (1 # 6); mkBeat down (1 # 6); mkBeat rest (1 # 6)]);
    ("simple-3-8", mkStrum "Simple 3/8" 160 3 "3/8"
       [mkBeat down (1 # 3); mkBeat down (1 # 3); mkBeat down (1 # 3)]);
    ("quick-3-8", mkStrum "Quick 3/8" 180 3 "3/8"
       [mkBeat down (1 # 3); mkBeat up (1 # 3); mkBeat down (1 # 3)]);
    ("accented-3-8", mkStrum "Accented 3/8" 150 3 "3/8"
       [mkBeat down (1 # 3); mkBeat rest (1 # 3); mkBeat down (1 # 3)]);
    ("running-3-8", mkStrum "Running 16ths" 140 3 "3/8"
       [mkBeat down (1 # 6); mkBeat up (1 # 6); mkBeat down (1 # 6); mkBeat up (1 # 6); mkBeat down (1 # 6); mkBeat up (1 # 6)]);
    ("gallop-3-8", mkStrum "Gallop" 170 3 "3/8"
       [mkBeat down (1 # 3); mkBeat down (1 # 6); mkBeat up (1 # 6)]);
    ("slow-ballad-6-8", mkStrum "Slow Ballad" 120 6 "6/8"
       [mkBeat down (1 # 6); mkBeat rest (1 # 6); mkBeat rest (1 # 6); mkBeat down (1 # 6); mkBeat rest (1 # 6); mkBeat rest (1 # 6)]);
    ("jig-6-8", mkStrum "Jig Feel" 110 6 "6/8"
       [mkBeat down (1 # 6); mkBeat rest (1 # 6); mkBeat down (1 # 6); mkBeat down (1 # 6); mkBeat rest (1 # 6); mkBeat down (1 # 6)]);
    ("folk-6-8", mkStrum "Folk 6/8" 100 6 "6/8"
       [mkBeat down (1 # 3); mkBeat down (1 # 3); mkBeat down (1 # 6); mkBeat up (1 # 6)]);
    ("simple-6-8", mkStrum "Simple 6/8" 90 6 "6/8"
       [mkBeat down (1 # 2); mkBeat down (1 # 2)]);
    ("running-6-8", mkStrum "Running 6/8" 130 6 "6/8"
       [mkBeat down (1 # 6); mkBeat up (1 # 6); mkBeat down (1 # 6); mkBeat up (1 # 6); mkBeat down (1 # 6); mkBeat up (1 # 6)]);
    ("slip-jig-9-8", mkStrum "Slip Jig" 120 9 "9/8"
       [mkBeat down (1 # 9); mkBeat rest (1 # 9); mkBeat rest (1 # 9); mkBeat down (1 # 9); mkBeat rest (1 # 9); mkBeat rest (1 # 9); mkBeat down (1 # 9); mkBeat rest (1 # 9); mkBeat rest (1 # 9)]);
    ("simple-9-8", mkStrum "Simple 9/8" 100 9 "9/8"
       [mkBeat down (1 # 3); mkBeat down (1 # 3); mkBeat down (1 # 3)]);
    ("lyrical-9-8", mkStrum "Lyrical 9/8" 90 9 "9/8"
       [mkBeat down (1 # 9); mkBeat down (1 # 9); mkBeat up (1 # 9); mkBeat down (1 # 9); mkBeat down (1 # 9); mkBeat up (1 # 9); mkBeat down (1 # 9); mkBeat down (1 # 9); mkBeat up (1 # 9)]);
    ("running-9-8", mkStrum "Running 9/8" 140 9 "9/8"
       [mkBeat down (1 # 9); mkBeat up (1 # 9); mkBeat down (1 # 9); mkBeat up (1 # 9); mkBeat down (1 # 9); mkBeat up (1 # 9); mkBeat down (1 # 9); mkBeat up (1 # 9); mkBeat down (1 # 9)]);
    ("valkyrie-9-8", mkStrum "Valkyrie Gallop" 150 9 "9/8"
       [mkBeat down (2 # 9); mkBeat up (1 # 9); mkBeat down (2 # 9); mkBeat up (1 # 9); mkBeat down (2 # 9); mkBeat up (1 # 9)]);
    ("blues-shuffle-12-8", mkStrum "Blues Shuffle" 110 12 "12/8"
       [mkBeat down (1 # 6); mkBeat up (1 # 12); mkBeat down (1 # 6); mkBeat up (1 # 12); mkBeat down (1 # 6); mkBeat up (1 # 12); mkBeat down (1 # 6); mkBeat up (1 # 12)]);
    ("simple-12-8", mkStrum "Simple 12/8" 80 12 "12/8"
       [mkBeat down (1 # 4); mkBeat down (1 # 4); mkBeat down (1 # 4); mkBeat down (1 # 4)]);
    ("slow-rock-12-8", mkStrum "Slow Rock Ballad" 70 12 "12/8"
       [mkBeat down (1 # 12); mkBeat rest (1 # 12); mkBeat rest (1 # 12); mkBeat down (1 # 12); mkBeat rest (1 # 12); mkBeat rest (1 # 12); mkBeat down (1 # 12); mkBeat rest (1 # 12); mkBeat rest (1 # 12); mkBeat down (1 # 12); mkBeat rest (1 # 12); mkBeat rest (1 # 12)]);
    ("running-12-8", mkStrum "Running 12/8" 120 12 "12/8"
       [mkBeat down (1 # 12); mkBeat up (1 # 12); mkBeat down (1 # 12); mkBeat up (1 # 12); mkBeat down (1 # 12); mkBeat up (1 # 12); mkBeat down (1 # 12); mkBeat up (1 # 12); mkBeat down (1 # 12); mkBeat up (1 # 12); mkBeat down (1 # 12); mkBeat up (1 # 12)]);
    ("doo-wop-12-8", mkStrum "Doo-Wop" 90 12 "12/8"
       [mkBeat down (1 # 12); mkBeat rest (1 # 12); mkBeat rest (1 # 12); mkBeat rest (1 # 12); mkBeat rest (1 # 12); mkBeat rest (1 # 12); mkBeat down (1 # 12); mkBeat rest (1 # 12); mkBeat rest (1 # 12); mkBeat rest (1 # 12); mkBeat rest (1 # 12); mkBeat rest (1 # 12)])
  ].

Definition ARPEGGIO_PATTERNS : list (string * ArpeggioPattern) :=
  [
    ("asc-44", mkArpeggio "Ascending" 120 4 "4/4" []);
    ("desc-44", mkArpeggio "Descending" 120 4 "4/4" []);
    ("up-down", mkArpeggio "Up & Down" 120 4 "4/4" [5; 4; 3; 2; 1; 0; 1; 2]);
    ("alternating-bass", mkArpeggio "Alternating Bass" 130 4 "4/4" [5; 2; 1; 4; 2; 1]);
    ("melodic-contour", mkArpeggio "Melodic Contour" 120 4 "4/4" [5; 2; 0; 1; 2; 0]);
    ("forward-roll", mkArpeggio "Forward Roll" 140 4 "4/4" [5; 2; 0; 5; 2; 0; 5; 2]);
    ("pachelbels-canon", mkArpeggio "Pachelbel's Canon" 90 4 "4/4" [5; 4; 3; 2; 1; 0; 1; 2; 5; 4; 3; 2; 1; 0; 1; 2]);
    ("asc-22", mkArpeggio "Ascending (2/2)" 120 2 "2/2" []);
    ("desc-22", mkArpeggio "Descending (2/2)" 120 2 "2/2" []);
    ("cut-outside-in", mkArpeggio "Outside-In" 110 2 "2/2" [5; 0; 4; 1]);
    ("cut-inside-out", mkArpeggio "Inside-Out" 110 2 "2/2" [2; 3; 1; 4]);
    ("cut-bass-chord", mkArpeggio "Bass & Chord" 100 2 "2/2" [5; 2; 1; 0]);
    ("asc-24", mkArpeggio "Ascending (2/4)" 120 2 "2/4" []);
    ("desc-24", mkArpeggio "Descending (2/4)" 120 2 "2/4" []);
    ("polka-bass-24", mkArpeggio "Polka Bass" 130 2 "2/4" [5; 2; 4; 2]);
    ("alternating-24", mkArpeggio "Alternating" 110 2 "2/4" [5; 3; 4; 2]);
    ("simple-24", mkArpeggio "Simple Arp" 100 2 "2/4" [5; 3; 2; 1]);
    ("asc-34", mkArpeggio "Ascending (3/4)" 140 3 "3/4" []);
    ("desc-34", mkArpeggio "Descending (3/4)" 140 3 "3/4" []);
    ("waltz-arpeggio", mkArpeggio "Classic Waltz" 140 3 "3/4" [5; 2; 1]);
    ("pima-waltz-34", mkArpeggio "PIMA Waltz" 130 3 "3/4" [5; 2; 1; 0; 1; 2]);
    ("travis-waltz-34", mkArpeggio "Travis Waltz" 120 3 "3/4" [5; 1; 4; 2; 5; 1]);
    ("asc-38", mkArpeggio "Ascending (3/8)" 160 3 "3/8" [5; 3; 1]);
    ("desc-38", mkArpeggio "Descending (3/8)" 160 3 "3/8" [0; 2; 4]);
    ("outside-in-38", mkArpeggio "Outside-In" 150 3 "3/8" [5; 0; 4]);
    ("pim-38", mkArpeggio "P-I-M" 170 3 "3/8" [5; 2; 1]);
    ("broken-38", mkArpeggio "Broken Chord" 150 3 "3/8" [5; 1; 5]);
    ("asc-68", mkArpeggio "Ascending (6/8)" 120 6 "6/8" []);
    ("desc-68", mkArpeggio "Descending (6/8)" 120 6 "6/8" []);
    ("pima-68", mkArpeggio "PIMA Roll" 110 6 "6/8" [5; 2; 1; 0; 1; 2]);
    ("rolling-68", mkArpeggio "Rolling" 130 6 "6/8" [5; 2; 1; 5; 2; 1]);
    ("thumb-fingers-68", mkArpeggio "Thumb & Fingers" 100 6 "6/8" [5; 2; 1; 4; 2; 1]);
    ("asc-98", mkArpeggio "Ascending (9/8)" 120 9 "9/8" []);
    ("desc-98", mkArpeggio "Descending (9/8)" 120 9 "9/8" []);
    ("groups-of-3-98", mkArpeggio "Groups of 3" 140 9 "9/8" [5; 2; 1; 5; 2; 1; 5; 2; 1]);
    ("cascade-98", mkArpeggio "Cascade" 110 9 "9/8" [5; 4; 3; 2; 1; 0; 1; 2; 3]);
    ("broken-groups-98", mkArpeggio "Broken Groups" 130 9 "9/8" [5; 2; 1; 4; 2; 1; 5; 2; 1]);
    ("asc-128", mkArpeggio "Ascending (12/8)" 90 12 "12/8" []);
    ("desc-128", mkArpeggio "Descending (12/8)" 90 12 "12/8" []);
    ("shuffle-arp-128", mkArpeggio "Shuffle Arp" 110 12 "12/8" [5; 2; 1; 5; 2; 1; 4; 2; 1; 4; 2; 1]);
    ("groups-of-3-128", mkArpeggio "Groups of 3" 100 12 "12/8" [5; 2; 1; 5; 2; 1; 4; 2; 1; 4; 2; 1]);
    ("slow-cascade-128", mkArpeggio "Slow Cascade" 80 12 "12/8" [5; 4; 3; 2; 1; 0; 5; 4; 3; 2; 1; 0])
  ].

(* ================================================================== *)
(** * strumming.ts: the pattern library *)
(* ================================================================== *)

Module Strumming.

(** [type CustomStrumPattern], [type CustomArpeggioPattern]
    (storage.ts); a grid cell of a strum is a beat type. *)
Record CustomStrumPattern : Type := mkCustomStrum
  { csId : string; csName : string; csTimeSignature : string;
    csGrid : list BeatType }.

Record CustomArpeggioPattern : Type := mkCustomArpeggio
  { caId : string; caName : string; caTimeSignature : string;
    caInstrument : string; caGrid : list (list bool) }.

Inductive CustomPattern : Type :=
| CustomStrum (p : CustomStrumPattern)
| CustomArpeggio (p : CustomArpeggioPattern).

Definition customId (p : CustomPattern) : string :=
  match p with
  | CustomStrum c => csId c
  | CustomArpeggio c => caId c
  end.

(** [timeSignature === '3/4' ? 3 : (timeSignature === '6/8' ? 6 : 4)]. *)
Definition beatsOfSignature (timeSignature : string) : Z :=
  if timeSignature =? "3/4" then 3
  else if timeSignature =? "6/8" then 6 else 4.

(** [Array.from({ length: n }, (_, i) => f(i))]. *)
Definition arrayFrom {A : Type} (n : nat) (f : Z -> A) : list A :=
  map (fun i => f (Z.of_nat i)) (seq 0 n).

(** [getEffectiveArpeggioPattern]: the order shown for a scalable pattern
    when no chord is at hand, one step per string of the instrument. *)
Definition getEffectiveArpeggioPattern (pattern : ArpeggioPattern)
           (instrument : string) : ArpeggioPattern :=
  let numStrings := if instrument =? "guitar" then 6%nat else 4%nat in
  let isScalablePattern := (List.length (noteOrder pattern) =? 0)%nat in
  if isScalablePattern then
    if includes (name pattern) "Ascending" then
      mkArpeggio (name pattern) (bpm pattern) (beatsPerMeasure pattern)
                 (timeSignature pattern)
                 (arrayFrom numStrings (fun i => (Z.of_nat numStrings - 1) - i))
    else if includes (name pattern) "Descending" then
      mkArpeggio (name pattern) (bpm pattern) (beatsPerMeasure pattern)
                 (timeSignature pattern)
                 (arrayFrom numStrings (fun i => i))
    else pattern
  else pattern.

(** [convertGridToStrumPattern]: one beat per cell, each [1 / steps] of
    the measure.  The quotient is kept exact; the source holds the
    nearest double, so what is stated of a duration here is its sign and
    the ticks it rounds to, not a sum of durations. *)
Definition convertGridToStrumPattern (patternData : CustomStrumPattern)
  : StrummingPattern :=
  let steps := List.length (csGrid patternData) in
  let durationPerStep := Qdiv 1 (inject_Z (Z.of_nat steps)) in
  mkStrum (csName patternData) 120 (beatsOfSignature (csTimeSignature patternData))
          (csTimeSignature patternData)
          (map (fun ty => mkBeat ty durationPerStep) (csGrid patternData)).

(** [grid[s][i]]: a missing cell is falsy. *)
Definition cell (grid : list (list bool)) (s i : nat) : bool :=
  match nth_error grid s with
  | Some row => match nth_error row i with Some b => b | None => false end
  | None => false
  end.

(** [convertGridToArpeggioPattern]: the columns left to right, and in a
    column the rows from index 0. *)
Definition convertGridToArpeggioPattern (patternData : CustomArpeggioPattern)
  : ArpeggioPattern :=
  let grid := caGrid patternData in
  let steps := match grid with row0 :: _ => List.length row0 | [] => 0%nat end in
  let order :=
    flat_map (fun i =>
                flat_map (fun s => if cell grid s i then [Z.of_nat s] else [])
                         (seq 0 (List.length grid)))
             (seq 0 steps) in
  mkArpeggio (caName patternData) 120 (beatsOfSignature (caTimeSignature patternData))
             (caTimeSignature patternData) order.

(** [getPatternById]: the stored custom patterns of the saved instrument
    for an identifier that starts with [custom_pattern_], the presets
    otherwise.  The [id] the source adds to its result is not carried. *)
Definition getPatternById (getSavedInstrument : option string)
           (getCustomPatterns : string -> list CustomPattern) (id : string)
  : option Pattern :=
  if id =? "" then None
  else
    match getSavedInstrument with
    | None => None
    | Some instrument =>
        if startsWith id "custom_pattern_" then
          match find (fun p => customId p =? id) (getCustomPatterns instrument) with
          | None => None
          | Some (CustomStrum c) => Some (Strum (convertGridToStrumPattern c))
          | Some (CustomArpeggio c) => Some (Arpeggio (convertGridToArpeggioPattern c))
          end
        else
          match lookup id STRUMMING_PATTERNS with
          | Some p => Some (Strum p)
          | None =>
              match lookup id ARPEGGIO_PATTERNS with
              | Some p => Some (Arpeggio p)
              | None => None
              end
          end
    end.

End Strumming.

(* ================================================================== *)
(** * logger.ts: clearing the log *)
(* ================================================================== *)

(** [logger.clear]: [entries.length = 0], then one entry saying so. *)
Definition clearLog (entries : list Logger.LogEntry) : list Logger.LogEntry :=
  Logger.logInfo "Log cleared." [].

(* ================================================================== *)
(** * Reference readings *)
(* ================================================================== *)

Module Reference.

(** The value a MIDI reader gives a variable-length quantity: seven bits
    per byte, most significant group first. *)
Definition vlqValue (bytes : list Z) : Z :=
  fold_left (fun acc b => acc * 128 + b mod 128) bytes 0.

(** The value of bytes read as one big-endian number. *)
Definition bigEndian (bytes : list Z) : Z :=
  fold_left (fun acc b => acc * 256 + b) bytes 0.

(** An event moved [d] ticks later. *)
Definition shiftEvent (d : Z) (e : Midi.MidiEvent) : Midi.MidiEvent :=
  Midi.mkEvent (Midi.tick e + d) (Midi.type e) (Midi.pitch e).


(** The group the classifier gives each diatonic numeral, by mode; the
    Dorian IV of a minor key has none. *)
Definition groupOfNumeral (minor : bool) (r : string)
  : option Analysis.ChordFunctionGroup :=
  if minor then
    if Analysis.oneOf ["i"; "iv"; "v"; "V"] r then Some Analysis.primary
    else if Analysis.oneOf ["III"; "VI"; "VII"] r then Some Analysis.secondary
    else if r =? "ii" then Some Analysis.tense
    else None
  else
    if Analysis.oneOf ["I"; "IV"; "V"] r then Some Analysis.primary
    else if Analysis.oneOf ["ii"; "iii"; "vi"] r then Some Analysis.secondary
    else if r =? "vii" then Some Analysis.tense
    else None.

(** The tables as a sequence of suggestion calls leaves them. *)
Definition afterCalls (calls : list (string * string * bool)) (st : RulesStore)
  : RulesStore :=
  fold_left (fun s call =>
               let '(fromChord, key, allowBorrowed) := call in
               snd (Harmonics.getCommonProgressions fromChord key allowBorrowed s))
            calls st.

(** The row of a function as the successor engine ranks it. *)
Definition rankedRow (tbl : Rules) (f : string) : option (list Transition) :=
  option_map (sort Harmonics.byWeightDescending) (lookup f tbl).

(** The quality begins with a sharp or flat sign. *)
Definition leadingAccidental (q : string) : bool :=
  match q with
  | String c _ => isAccidental c
  | EmptyString => false
  end.

(** What a suggestion call reads of the tables: the keys of the major
    table and the ranked rows. *)
Definition sameRanking (s1 s2 : RulesStore) : Prop :=
  map fst (rulesMajor s1) = map fst (rulesMajor s2) /\
  (forall f, rankedRow (rulesMajor s1) f = rankedRow (rulesMajor s2) f) /\
  (forall f, rankedRow (rulesMinor s1) f = rankedRow (rulesMinor s2) f).

(** The integers [lo], [lo + 1], .., [lo + n - 1]. *)
Definition zrange (lo : Z) (n : nat) : list Z :=
  map (fun i => lo + Z.of_nat i) (seq 0 n).

(** The test behind [secondary_dominant_a_fifth_above]: the secondary
    dominant of a diatonic target is a chord name of [NOTES] a fifth
    above the target's root, or is not realised when [NOTES] does not
    list that root. *)
Definition secondaryDominantCheck (key target : string) : bool :=
  match Harmonics.realizeRomanNumeral target key with
  | None => false
  | Some targetChord =>
      match Harmonics.parseChordName targetChord with
      | None => false
      | Some tp =>
          let i := indexOf NOTES (Harmonics.root tp) in
          match Harmonics.realizeRomanNumeral ("V/" ++ target) key with
          | None => (i =? -1)%Z
          | Some c =>
              negb (i =? -1)%Z && (indexOf NOTES c =? (i + 7) mod 12)%Z
          end
      end
  end.

(** The test behind [fret_raises_pitch]. *)
Definition fretCheck (openString : string) (f : Z) : bool :=
  match Harmonics.getNoteFromFret openString f with
  | Harmonics.NoteName name =>
      (Harmonics.noteToMidi name =? Harmonics.noteToMidi openString + f)%Z &&
      match Midi.noteToMidi (Harmonics.NoteName name) with
      | Ok (Some m) => (m =? Harmonics.noteToMidi openString + f)%Z
      | _ => false
      end
  | Harmonics.NaN => false
  end.

(** The test behind [midi_note_names_round_trip]. *)
Definition noteNameCheck (m : Z) : bool :=
  match Harmonics.midiToNote m with
  | Harmonics.NoteName name =>
      (Harmonics.noteToMidi name =? m)%Z &&
      match Midi.noteToMidi (Harmonics.NoteName name) with
      | Ok (Some m') => (m' =? m)%Z
      | _ => false
      end
  | Harmonics.NaN => false
  end.

(** The continuation bytes of a variable-length quantity: the base-128
    digits of [v] from the most significant one down, each with bit 7
    set; at most [m] of them. *)
Fixpoint highGroups (m : nat) (v : Z) : list Z :=
  match m with
  | O => []
  | S m' =>
      if (0 <? v)%Z then List.app (highGroups m' (v / 128)) [v mod 128 + 128]
      else []
  end.

(** Equality of two classifications, as a test. *)
Definition sameGroup (a b : option Analysis.ChordFunctionGroup) : bool :=
  match a, b with
  | Some Analysis.primary, Some Analysis.primary => true
  | Some Analysis.secondary, Some Analysis.secondary => true
  | Some Analysis.borrowed, Some Analysis.borrowed => true
  | Some Analysis.tense, Some Analysis.tense => true
  | Some Analysis.secondaryDominant, Some Analysis.secondaryDominant => true
  | None, None => true
  | _, _ => false
  end.

(** The test behind [diatonic_chords_are_classified]. *)
Definition classifiedByNumeral (major : Rules) (K r : string) : bool :=
  match realizeRomanNumeral r K with
  | Some c =>
      sameGroup (Analysis.getChordFunctionGroup major c K)
                (groupOfNumeral (endsWith K "m") r)
      && Bool.eqb (match groupOfNumeral (endsWith K "m") r with
                   | Some _ => false
                   | None => true
                   end)
                  (endsWith K "m" && (r =? "IV"))
  | None => false
  end.





(** The notes of the unmuted frets that have a string: the fret at
    position [i] of the list on the string at position [i] of the tuning,
    in the order of the list. *)
Fixpoint unmutedNotesFrom (i : Z) (tuning : list string)
         (fretting : list Harmonics.Fret) : list Harmonics.ChordVoicing :=
  match fretting, tuning with
  | Harmonics.X :: fs, _ :: os => unmutedNotesFrom (i + 1) os fs
  | Harmonics.Fr n :: fs, o :: os =>
      Harmonics.mkVoicing (Harmonics.getNoteFromFret o n) i
      :: unmutedNotesFrom (i + 1) os fs
  | _, _ => []
  end.

Definition unmutedNotes (tuning : list string) (fretting : list Harmonics.Fret)
  : list Harmonics.ChordVoicing :=
  unmutedNotesFrom 0 tuning fretting.

(** The line [runChordVoicingValidator] logs for an issue. *)
Definition warningOf (issue : Validator.Issue) : Logger.LogEntry :=
  Logger.mkEntry Logger.warn
    ("- " ++ Validator.symbol issue ++ " (voicing " ++ showZ (Validator.index issue)
     ++ "): " ++ join "; " (Validator.problems issue)) None.

End Reference.

(* ================================================================== *)
(** * Properties *)
(* ================================================================== *)

Import Harmonics.

(** ** The stable sort *)

Section SortFacts.

Context {A : Type} (key : A -> Z) (cmp : A -> A -> Z).
Hypothesis cmp_key : forall x y, cmp x y = key x - key y.

Lemma insertBy_perm (x : A) (l : list A) :
  Permutation (insertBy cmp x l) (x :: l).
Proof.
  induction l as [|y t IH]; simpl; [reflexivity|].
  destruct (cmp x y <=? 0)%Z; [reflexivity|].
  rewrite IH. apply perm_swap.
Qed.

Lemma sort_perm (l : list A) : Permutation (sort cmp l) l.
Proof.
  induction l as [|x t IH]; simpl; [reflexivity|].
  unfold sort in *. simpl. rewrite insertBy_perm. now constructor.
Qed.

Lemma insertBy_sorted (x : A) (l : list A) :
  StronglySorted (fun a b => key a <= key b) l ->
  StronglySorted (fun a b => key a <= key b) (insertBy cmp x l).
Proof.
  induction 1 as [|y t Hs IH Hy]; simpl.
  - repeat constructor.
  - destruct (Z.leb_spec (cmp x y) 0) as [Hle|Hgt]; rewrite cmp_key in *.
    + constructor; [now constructor|].
      constructor; [lia|].
      eapply Forall_impl; [|exact Hy]. simpl. intros; lia.
    + constructor; [exact IH|].
      eapply Permutation_Forall; [symmetry; apply insertBy_perm|].
      constructor; [lia|exact Hy].
Qed.

Lemma sort_sorted (l : list A) :
  StronglySorted (fun a b => key a <= key b) (sort cmp l).
Proof.
  induction l as [|x t IH]; [constructor|].
  unfold sort in *. simpl. now apply insertBy_sorted.
Qed.

(** Stability: elements of equal key keep their relative order. *)
Lemma insertBy_stable (k : Z) (x : A) (l : list A) :
  filter (fun a => (key a =? k)%Z) (insertBy cmp x l)
  = filter (fun a => (key a =? k)%Z) (x :: l).
Proof.
  induction l as [|y t IH]; [reflexivity|].
  simpl insertBy.
  destruct (Z.leb_spec (cmp x y) 0) as [Hle|Hgt]; [reflexivity|].
  rewrite cmp_key in Hgt.
  cbn [filter] in *. rewrite IH.
  destruct (Z.eqb_spec (key x) k), (Z.eqb_spec (key y) k); try reflexivity; lia.
Qed.

Lemma sort_stable (k : Z) (l : list A) :
  filter (fun a => (key a =? k)%Z) (sort cmp l)
  = filter (fun a => (key a =? k)%Z) l.
Proof.
  induction l as [|x t IH]; [reflexivity|].
  unfold sort in *. simpl fold_right. rewrite insertBy_stable.
  cbn [filter]. now rewrite IH.
Qed.

End SortFacts.

Lemma byWeightDescending_key (x y : Transition) :
  byWeightDescending x y = (fun t => - weight t) x - (fun t => - weight t) y.
Proof. unfold byWeightDescending. lia. Qed.

(** ** Successor engine *)

(** C1.  From [C] in C major without borrowed chords the suggestions are
    F, G, Dm, Am, D, Em, B, C: no duplicates, F, G, Dm, Am first in that
    order, the self-loop [C] later.  Whatever row is ranked, the ranking
    is by descending weight and transitions of equal weight keep the
    order they have in the table. *)
Theorem suggest_C_in_C_major :
  let res := fst (getCommonProgressions "C" "C" false loadedRules) in
  res = ["F"; "G"; "Dm"; "Am"; "D"; "Em"; "B"; "C"] /\
  NoDup res /\
  firstn 4 res = ["F"; "G"; "Dm"; "Am"] /\
  (exists i, (4 <= i)%nat /\ nth_error res i = Some "C") /\
  (forall row : list Transition,
      StronglySorted (fun a b => weight a >= weight b) (sort byWeightDescending row) /\
      Permutation (sort byWeightDescending row) row /\
      forall w, filter (fun t => (weight t =? w)%Z) (sort byWeightDescending row)
                = filter (fun t => (weight t =? w)%Z) row).
Proof.
  assert (E : fst (getCommonProgressions "C" "C" false loadedRules)
              = ["F"; "G"; "Dm"; "Am"; "D"; "Em"; "B"; "C"]) by (vm_compute; reflexivity).
  cbv zeta. rewrite E. repeat split.
  - repeat constructor; simpl; intuition discriminate.
  - exists 7%nat. split; [lia|reflexivity].
  - pose proof (sort_sorted _ _ byWeightDescending_key row) as Hs.
    eapply StronglySorted_ind with (P := fun l => StronglySorted (fun a b => weight a >= weight b) l);
      [constructor| |exact Hs].
    intros a l _ IH Hf. constructor; [exact IH|].
    eapply Forall_impl; [|exact Hf]. simpl. intros; lia.
  - apply sort_perm.
  - intro w.
    pose proof (sort_stable _ _ byWeightDescending_key (- w) row) as Hst.
    assert (Hext : forall l : list Transition,
               filter (fun t => (weight t =? w)%Z) l
               = filter (fun t => (- weight t =? - w)%Z) l).
    { intro l. apply filter_ext. intro t.
      destruct (Z.eqb_spec (weight t) w), (Z.eqb_spec (- weight t) (- w));
        try reflexivity; lia. }
    rewrite !Hext. exact Hst.
Qed.

(** C9.  The call for [C] in C major sorts the row of [I] inside the
    shared major table: the table the call leaves differs from the loaded
    one, the self-loop having moved from the head of the row to its end. *)
Theorem suggest_reorders_rules_table :
  let st' := snd (getCommonProgressions "C" "C" false loadedRules) in
  st' <> loadedRules /\
  lookup "I" (rulesMajor loadedRules)
  = Some [tr "I" 2; tr "IV" 8; tr "V" 7; tr "ii" 6; tr "vi" 5; tb "iv" 5;
          tr "V/V" 4; tb "♭VII" 4; tr "iii" 3; tr "V/iii" 3] /\
  lookup "I" (rulesMajor st')
  = Some [tr "IV" 8; tr "V" 7; tr "ii" 6; tr "vi" 5; tb "iv" 5; tr "V/V" 4;
          tb "♭VII" 4; tr "iii" 3; tr "V/iii" 3; tr "I" 2].
Proof.
  cbv zeta. split; [|split; vm_compute; reflexivity].
  intro H.
  assert (E : lookup "I" (rulesMajor (snd (getCommonProgressions "C" "C" false loadedRules)))
              = lookup "I" (rulesMajor loadedRules)) by (rewrite H; reflexivity).
  vm_compute in E. discriminate E.
Qed.

(** ** Harmonic analyser *)

(** C2.  In each of the 24 keys of the diatonic tables, realising a
    diatonic numeral of the key (the harmonic-minor [V] included) and
    analysing the chord obtained gives the numeral back, whatever the
    transition table holds at that moment. *)
Theorem function_of_realized_roman (major : Rules) (K r : string) :
  In K Spec.supportedKeys ->
  In r (Spec.diatonicRomans K) ->
  exists c, realizeRomanNumeral r K = Some c /\
            findFunctionOfChord major c K = Some r.
Proof.
  intros HK Hr.
  assert (H : forallb (fun K => forallb (Spec.roundTrips major K) (Spec.diatonicRomans K))
                      Spec.supportedKeys = true) by (vm_compute; reflexivity).
  rewrite forallb_forall in H. specialize (H K HK).
  rewrite forallb_forall in H. specialize (H r Hr).
  unfold Spec.roundTrips in H.
  destruct (realizeRomanNumeral r K) as [c|]; [|discriminate].
  exists c. split; [reflexivity|].
  destruct (findFunctionOfChord major c K) as [r'|]; [|discriminate].
  apply String.eqb_eq in H. now subst.
Qed.

Lemma function_of_realized_roman_witness :
  exists c, realizeRomanNumeral "V" "Am" = Some c /\
            findFunctionOfChord PROGRESSION_RULES_MAJOR c "Am" = Some "V".
Proof.
  apply (function_of_realized_roman PROGRESSION_RULES_MAJOR "Am" "V");
    vm_compute; tauto.
Defined.

(** ** Transposer *)

(** C5, as the code has it.  From A minor to C major the progression
    Am, F, C, G has the functions i, VI, III, VII; the minor-to-major
    table sends them to I, vi, iii, vii, which C major realises as
    C, Am, Em, Bdim.  A chord without a function in A minor (F#m) is
    shifted chromatically, and the major dominant E7 goes to V. *)
Theorem transpose_Am_to_C (major : Rules) :
  transposeChordSequence major ["Am"; "F"; "C"; "G"] "Am" "C"
  = ["C"; "Am"; "Em"; "Bdim"] /\
  map (fun c => findFunctionOfChord major c "Am") ["Am"; "F"; "C"; "G"]
  = [Some "i"; Some "VI"; Some "III"; Some "VII"] /\
  map (fun r => lookup r minorToMajorMap) ["i"; "VI"; "III"; "VII"]
  = [Some "I"; Some "vi"; Some "iii"; Some "vii"] /\
  map (fun r => realizeRomanNumeral r "C") ["I"; "vi"; "iii"; "vii"]
  = [Some "C"; Some "Am"; Some "Em"; Some "Bdim"] /\
  findFunctionOfChord major "F#m" "Am" = None /\
  transposeChordSequence major ["F#m"; "E7"] "Am" "C" = ["Am"; "G"].
Proof. repeat split; vm_compute; reflexivity. Qed.

(** C5, as stated: the list [C, Dm, Em, G] is not what the transposer
    returns for this call. *)
Lemma transpose_Am_to_C_not_C_Dm_Em_G :
  transposeChordSequence PROGRESSION_RULES_MAJOR ["Am"; "F"; "C"; "G"] "Am" "C"
  <> ["C"; "Dm"; "Em"; "G"].
Proof. vm_compute. discriminate. Qed.

(** C4.  Between keys of one mode the transposer looks every root up in
    [NOTES], which has no flat spellings: a chord on Bb, or any chord when
    a tonic is Ab, comes back unchanged instead of shifted. *)
Theorem transpose_keeps_flat_spellings :
  transposeChordSequence PROGRESSION_RULES_MAJOR ["Bb"; "C"] "C" "D" = ["Bb"; "D"] /\
  Spec.isChromaticShift "C" "D" "Bb" "Bb" = false /\
  Spec.isChromaticShift "C" "D" "Bb" "C" = true /\
  transposeChordSequence PROGRESSION_RULES_MAJOR ["Ab"; "Db"; "Eb"] "Ab" "C"
  = ["Ab"; "Db"; "Eb"] /\
  Spec.isChromaticShift "Ab" "C" "Ab" "Ab" = false.
Proof. repeat split; vm_compute; reflexivity. Qed.

(** A chord whose root [NOTES] does not list is returned as it came. *)
Lemma fallbackTranspose_unknown_root (oldTonic newTonic chord : string) (p : ChordInfo) :
  parseChordName chord = Some p ->
  indexOf NOTES (root p) = -1 ->
  fallbackTranspose oldTonic newTonic chord = chord.
Proof.
  intros Hp Hr. unfold fallbackTranspose. rewrite Hp, Hr.
  destruct (parseChordName oldTonic); [|reflexivity].
  destruct (parseChordName newTonic); [|reflexivity].
  destruct (_ || _); reflexivity.
Qed.

(** On the spellings [NOTES] has the transposer does shift chromatically. *)
Lemma transpose_shifts_sharp_spellings : Spec.sharpSpelledShiftHolds = true.
Proof. vm_compute. reflexivity. Qed.

(** ** Arpeggio order *)

(** C6.  A Dm voicing on guitar whose strings 5 and 4 are muted resolves
    to the strings 0, 1, 2, 3, and a scalable pattern named "Ascending"
    walks them as 3, 2, 1, 0, in the scheduler and in the serialiser. *)
Theorem ascending_arpeggio_on_partial_Dm
        (G U : ChordDB) (n0 n1 n2 n3 : Z) (bs : list Barre)
        (others : list ChordVoicingData) (pattern : ArpeggioPattern) :
  lookup "Dm" G = Some (mkVoicingData [Fr n0; Fr n1; Fr n2; Fr n3; X; X] bs :: others) ->
  noteOrder pattern = [] ->
  includes (name pattern) "Ascending" = true ->
  exists voicing,
    getVoicingForChord G U "Dm" "guitar" 0 = Ok voicing /\
    map stringIndex voicing = [0; 1; 2; 3] /\
    Audio.arpeggiatedNoteOrder voicing pattern = [3; 2; 1; 0] /\
    map Audio.playedString (Audio.playArpeggiatedChord voicing pattern) = [3; 2; 1; 0] /\
    Midi.exportNoteOrder voicing pattern = [3; 2; 1; 0].
Proof.
  intros HG Hscalable Hname.
  unfold getVoicingForChord. cbn [String.eqb Ascii.eqb Bool.eqb].
  rewrite HG. cbn -[getNoteFromFret].
  eexists. split; [reflexivity|]. split; [reflexivity|].
  unfold Audio.playArpeggiatedChord, Audio.arpeggiatedNoteOrder, Midi.exportNoteOrder.
  rewrite Hscalable, Hname. cbn -[getNoteFromFret]. repeat split.
Qed.

Lemma ascending_arpeggio_on_partial_Dm_witness :
  exists voicing,
    getVoicingForChord
      [("Dm", [mkVoicingData [Fr 1; Fr 3; Fr 2; Fr 0; X; X] []])] [] "Dm" "guitar" 0
    = Ok voicing /\
    map stringIndex voicing = [0; 1; 2; 3] /\
    Audio.arpeggiatedNoteOrder voicing (mkArpeggio "Ascending" 120 4 "4/4" [])
    = [3; 2; 1; 0] /\
    map Audio.playedString
        (Audio.playArpeggiatedChord voicing (mkArpeggio "Ascending" 120 4 "4/4" []))
    = [3; 2; 1; 0] /\
    Midi.exportNoteOrder voicing (mkArpeggio "Ascending" 120 4 "4/4" []) = [3; 2; 1; 0].
Proof.
  apply (ascending_arpeggio_on_partial_Dm
           [("Dm", [mkVoicingData [Fr 1; Fr 3; Fr 2; Fr 0; X; X] []])] []
           1 3 2 0 [] [] (mkArpeggio "Ascending" 120 4 "4/4" []));
    reflexivity.
Defined.

(** ** MIDI serialiser: chords without a voicing *)

(** C7, as the code has it.  An entry whose chord resolves to no voicing
    is skipped whole: it contributes no event and leaves the tick counter
    where it was, so the file is the one of the progression without it. *)
Theorem unresolved_chord_is_skipped
        (G U : ChordDB) (instrument : string) (tempo : Z)
        (patterns : string -> option Pattern)
        (progChord : Midi.ProgressionChord) (more : list Midi.ProgressionChord) :
  getVoicingForChord G U (Midi.chord progChord) instrument
                     (Midi.voicingIndex progChord) = Ok [] ->
  (forall t, Midi.collectEvents G U patterns instrument (progChord :: more) t
             = Midi.collectEvents G U patterns instrument more t) /\
  Midi.exportProgressionToMidi G U (Some instrument) tempo patterns (progChord :: more)
  = Midi.exportProgressionToMidi G U (Some instrument) tempo patterns more.
Proof.
  intro Hv.
  assert (Hc : forall t, Midi.collectEvents G U patterns instrument (progChord :: more) t
                         = Midi.collectEvents G U patterns instrument more t).
  { intro t. cbn [Midi.collectEvents]. rewrite Hv. cbn.
    destruct (Midi.collectEvents G U patterns instrument more t) as [[evs tk]|e];
      reflexivity. }
  split; [exact Hc|].
  unfold Midi.exportProgressionToMidi. now rewrite Hc.
Qed.

Lemma unresolved_chord_is_skipped_witness :
  (forall t, Midi.collectEvents openC [] (fun _ => None) "guitar"
               [Midi.mkProgChord "Csus13" 0 None None; Midi.mkProgChord "C" 0 None None] t
             = Midi.collectEvents openC [] (fun _ => None) "guitar"
                 [Midi.mkProgChord "C" 0 None None] t) /\
  Midi.exportProgressionToMidi openC [] (Some "guitar") 120 (fun _ => None)
    [Midi.mkProgChord "Csus13" 0 None None; Midi.mkProgChord "C" 0 None None]
  = Midi.exportProgressionToMidi openC [] (Some "guitar") 120 (fun _ => None)
      [Midi.mkProgChord "C" 0 None None].
Proof.
  apply (unresolved_chord_is_skipped openC [] "guitar" 120 (fun _ => None)
           (Midi.mkProgChord "Csus13" 0 None None) [Midi.mkProgChord "C" 0 None None]).
  reflexivity.
Defined.

(** C7, as stated, fails: with the open C chord alone in the guitar
    catalogue, an entry for the unknown chord [Csus13] leaves the tick
    counter at 0 instead of a whole note (1920 ticks) further, and the C
    chord after it starts at tick 0. *)
Lemma unresolved_chord_does_not_advance_ticks :
  let G := openC in
  let unknown := Midi.mkProgChord "Csus13" 0 None None in
  let known := Midi.mkProgChord "C" 0 None None in
  getVoicingForChord G [] "Csus13" "guitar" 0 = Ok [] /\
  Midi.collectEvents G [] (fun _ => None) "guitar" [unknown] 0 = Ok ([], 0) /\
  ~ (exists evs, Midi.collectEvents G [] (fun _ => None) "guitar" [unknown] 0
                 = Ok (evs, 1920)) /\
  (exists evs, Midi.collectEvents G [] (fun _ => None) "guitar" [unknown; known] 0
               = Ok (Midi.mkEvent 0 Midi.on 64 :: evs, 1920)).
Proof.
  cbv zeta. repeat split; try (vm_compute; reflexivity).
  - intros [evs H]. vm_compute in H. discriminate H.
  - eexists. vm_compute. reflexivity.
Qed.

(** ** Catalogue validator and voicing resolver *)

Lemma lookup_In {V : Type} (k : string) (tbl : list (string * V)) (v : V) :
  lookup k tbl = Some v -> In (k, v) tbl.
Proof.
  induction tbl as [|[k' v'] t IH]; simpl; [discriminate|].
  destruct (String.eqb_spec k' k) as [->|_].
  - intros [= ->]. now left.
  - intro H. right. now apply IH.
Qed.

Lemma at_of_nat {A : Type} (l : list A) (n : nat) :
  at_ l (Z.of_nat n) = nth_error l n.
Proof.
  unfold at_. destruct (Z.ltb_spec (Z.of_nat n) 0); [lia|].
  now rewrite Nat2Z.id.
Qed.

Lemma mapiFrom_nth_error {A B : Type} (f : A -> Z -> B) (l : list A) :
  forall (i : Z) (n : nat) (x : A),
    nth_error l n = Some x ->
    nth_error (mapiFrom i f l) n = Some (f x (i + Z.of_nat n)).
Proof.
  induction l as [|y t IH]; intros i [|n] x H; simpl in *; try discriminate.
  - injection H as ->. f_equal. f_equal. lia.
  - rewrite (IH (i + 1) n x H). f_equal. f_equal. lia.
Qed.

(** The resolver checks no length: it sounds every unmuted fret that has
    a tuning entry, and raises exactly when an unmuted fret has none. *)
Lemma soundedStrings_from (tuning : list string) (fs : list Fret) :
  forall k : nat,
    match
      mapM (fun cell : Fret * Z =>
              let (f, stringIndex) := cell in
              match f with
              | X => Ok None
              | Fr n =>
                  match at_ tuning stringIndex with
                  | None => Throw "TypeError: note is undefined"
                  | Some openString =>
                      Ok (Some (mkVoicing (getNoteFromFret openString n) stringIndex))
                  end
              end)
           (mapiFrom (Z.of_nat k) (fun f i => (f, i)) fs)
    with
    | Ok cells =>
        List.length (flat_map (fun c : option ChordVoicing =>
                                 match c with Some v => [v] | None => [] end) cells)
        = List.length (filter isSounded fs)
    | Throw _ => (List.length tuning < k + List.length fs)%nat
    end.
Proof.
  induction fs as [|f fs IH]; intro k; [reflexivity|].
  cbn [mapiFrom mapM].
  replace (Z.of_nat k + 1) with (Z.of_nat (S k)) by lia.
  specialize (IH (S k)).
  destruct f as [|n].
  - cbn [bind]. destruct (mapM _ _) as [cells|e]; cbn in *; [exact IH|lia].
  - rewrite at_of_nat.
    destruct (nth_error tuning k) as [o|] eqn:Hk.
    + cbn [bind]. destruct (mapM _ _) as [cells|e]; cbn in *; [now rewrite IH|lia].
    + cbn. apply nth_error_None in Hk. lia.
Qed.

Lemma soundedStrings_spec (tuning : list string) (fs : list Fret) :
  match soundedStrings tuning fs with
  | Ok notes => List.length notes = List.length (filter isSounded fs)
  | Throw _ => (List.length tuning < List.length fs)%nat
  end.
Proof.
  unfold soundedStrings, mapi.
  pose proof (soundedStrings_from tuning fs 0) as H. cbn [Z.of_nat] in H.
  destruct (mapM _ _) as [cells|e]; cbn in *; [exact H|lia].
Qed.

(** What the resolver returns, exactly: the notes of the unmuted frets,
    or the error of the first unmuted fret that has no string. *)
Lemma soundedCells_exact (get : Z -> option string) (fs : list Fret) :
  forall (tuning : list string) (k : Z),
    (forall j : nat, get (k + Z.of_nat j) = nth_error tuning j) ->
    (cells <- mapM (fun cell : Fret * Z =>
                      let (f, stringIndex) := cell in
                      match f with
                      | X => Ok None
                      | Fr n =>
                          match get stringIndex with
                          | None => Throw "TypeError: note is undefined"
                          | Some openString =>
                              Ok (Some (mkVoicing (getNoteFromFret openString n)
                                                  stringIndex))
                          end
                      end)
                   (mapiFrom k (fun f i => (f, i)) fs) ;;
     Ok (flat_map (fun c : option ChordVoicing =>
                     match c with Some v => [v] | None => [] end) cells))
    = if existsb isSounded (skipn (List.length tuning) fs)
      then Throw "TypeError: note is undefined"
      else Ok (Reference.unmutedNotesFrom k tuning fs).
Proof.
  induction fs as [|f fs IH]; intros tuning k Hget.
  - destruct tuning; reflexivity.
  - cbn [mapiFrom mapM].
    assert (H0 : get k = nth_error tuning 0)
      by (rewrite <- (Hget 0%nat); f_equal; lia).
    assert (Hnext : forall j : nat, get (k + 1 + Z.of_nat j) = nth_error (tl tuning) j).
    { intro j. replace (k + 1 + Z.of_nat j) with (k + Z.of_nat (S j)) by lia.
      rewrite Hget. destruct tuning; [now destruct j|reflexivity]. }
    specialize (IH (tl tuning) (k + 1) Hnext).
    destruct tuning as [|o os].
    + cbn [List.length skipn existsb tl nth_error] in *. rewrite H0.
      destruct f as [|n]; [|reflexivity].
      cbn [isSounded orb bind]. 
      destruct (mapM _ _) as [cells|e].
      * cbn [bind flat_map List.app] in *. rewrite IH.
        destruct (existsb isSounded fs); [reflexivity|].
        destruct fs as [|[|?] ?]; reflexivity.
      * cbn [bind] in *. rewrite IH.
        destruct (existsb isSounded fs); [reflexivity|discriminate IH].
    + cbn [List.length skipn tl nth_error] in *. rewrite H0.
      destruct f as [|n]; cbn [bind].
      * destruct (mapM _ _) as [cells|e]; cbn [bind flat_map List.app] in *;
          rewrite IH; destruct (existsb isSounded _); reflexivity.
      * destruct (mapM _ _) as [cells|e]; cbn [bind flat_map List.app] in *.
        -- destruct (existsb isSounded _); [discriminate IH|].
           injection IH as IH. cbn [Reference.unmutedNotesFrom]. now rewrite IH.
        -- destruct (existsb isSounded _); [exact IH|discriminate IH].
Qed.

Lemma soundedStrings_exact (tuning : list string) (fs : list Fret) :
  soundedStrings tuning fs
  = if existsb isSounded (skipn (List.length tuning) fs)
    then Throw "TypeError: note is undefined"
    else Ok (Reference.unmutedNotes tuning fs).
Proof.
  unfold soundedStrings, mapi, Reference.unmutedNotes.
  apply (soundedCells_exact (at_ tuning)). intro j. apply at_of_nat.
Qed.

(** *** The validator's report and the log *)

Lemma validateCatalog_report (label : string) (chords : ChordDB) :
  exists openPcs,
    List.length openPcs
    = List.length (if label =? "guitar" then GUITAR_TUNING else UKULELE_TUNING) /\
    Validator.validateCatalog label chords
    = Ok (List.concat (map (Validator.validateSymbol openPcs) chords)).
Proof.
  unfold Validator.validateCatalog.
  destruct (label =? "guitar"); eexists; (split; [|reflexivity]); reflexivity.
Qed.

Lemma mismatch_is_reported (openPcs : list Validator.Num) (chords : ChordDB)
      (sym : string) (voicings : list ChordVoicingData) (n : nat)
      (v : ChordVoicingData) (rootPc : Z) (q : string) :
  lookup sym chords = Some voicings ->
  nth_error voicings n = Some v ->
  List.length (frets v) <> List.length openPcs ->
  Validator.parseRoot sym = Ok (rootPc, q) ->
  In (Validator.mkIssue sym (Z.of_nat n)
        ["String count mismatch: frets="
         ++ showZ (Z.of_nat (List.length (frets v)))
         ++ ", tuning=" ++ showZ (Z.of_nat (List.length openPcs))])
     (List.concat (map (Validator.validateSymbol openPcs) chords)).
Proof.
  intros Hl Hn Hlen Hroot.
  apply in_concat.
  exists (Validator.validateSymbol openPcs (sym, voicings)). split.
  - apply in_map_iff. exists (sym, voicings). split; [reflexivity|].
    now apply lookup_In.
  - unfold Validator.validateSymbol. rewrite Hroot.
    apply in_concat. eexists. split.
    + eapply nth_error_In. unfold mapi. apply mapiFrom_nth_error. exact Hn.
    + unfold Validator.validateVoicing, Validator.voicingToPcs.
      destruct (Nat.eqb_spec (List.length (frets v)) (List.length openPcs)) as [E|_];
        [contradiction|].
      cbn [negb]. left. reflexivity.
Qed.

Lemma addEntry_room (t : Logger.LogType) (msg : string) (d : option string)
      (entries : list Logger.LogEntry) :
  (List.length entries < 200)%nat ->
  Logger.addEntry t msg d entries = Logger.mkEntry t msg d :: entries.
Proof.
  intro H. unfold Logger.addEntry. cbv zeta.
  destruct (Nat.ltb_spec 200 (List.length (Logger.mkEntry t msg d :: entries)))
    as [Hgt|_]; [cbn [List.length] in Hgt; lia|reflexivity].
Qed.

Lemma warnings_kept (issues : list Validator.Issue) :
  forall log : list Logger.LogEntry,
    (List.length log + List.length issues <= 200)%nat ->
    fold_left
      (fun log issue =>
         Logger.logWarn ("- " ++ Validator.symbol issue ++ " (voicing "
                         ++ showZ (Validator.index issue)
                         ++ "): " ++ join "; " (Validator.problems issue)) log)
      issues log
    = List.app (rev (map Reference.warningOf issues)) log.
Proof.
  induction issues as [|i more IH]; intros log H; [reflexivity|].
  cbn [fold_left List.length] in *. unfold Logger.logWarn at 2.
  rewrite addEntry_room by lia.
  rewrite IH by (cbn [List.length]; lia).
  cbn [map rev]. now rewrite <- app_assoc.
Qed.

Lemma logIssues_keeps (found allValid : string) (issues : list Validator.Issue)
      (entries : list Logger.LogEntry) :
  (List.length entries + List.length issues + 1 <= 200)%nat ->
  exists added,
    Validator.logIssues found allValid issues entries = List.app added entries /\
    (List.length added <= List.length issues + 1)%nat /\
    (forall i, In i issues -> In (Reference.warningOf i) added).
Proof.
  intro H. unfold Validator.logIssues.
  destruct issues as [|i more].
  - cbn [List.length Nat.ltb Nat.leb]. unfold Logger.logInfo.
    rewrite addEntry_room by lia.
    eexists [_]. split; [reflexivity|]. split; [cbn; lia|intros ? []].
  - change (0 <? List.length (i :: more))%nat with true. cbv iota.
    unfold Logger.logWarn at 2. rewrite addEntry_room by (cbn [List.length] in H; lia).
    rewrite warnings_kept by (cbn [List.length] in *; lia).
    eexists (List.app (rev (map Reference.warningOf (i :: more))) [_]).
    split; [now rewrite <- app_assoc|]. split.
    + rewrite length_app, length_rev, length_map. cbn [List.length]. lia.
    + intros j Hj. apply in_or_app. left. apply -> in_rev. now apply in_map.
Qed.

Lemma validation_run_logs (G U : ChordDB) (issuesG issuesU : list Validator.Issue)
      (entries : list Logger.LogEntry) :
  Validator.validateCatalog "guitar" G = Ok issuesG ->
  Validator.validateCatalog "ukulele" U = Ok issuesU ->
  (List.length entries + List.length issuesG + List.length issuesU + 3 <= 200)%nat ->
  exists log,
    Validator.runChordVoicingValidator G U entries = Ok log /\
    forall i, In i issuesG \/ In i issuesU -> In (Reference.warningOf i) log.
Proof.
  intros EG EU H. unfold Validator.runChordVoicingValidator. cbv zeta.
  rewrite EG. cbn [bind]. rewrite EU. cbn [bind]. unfold Logger.logInfo.
  rewrite addEntry_room by lia.
  match goal with
  | |- context [Validator.logIssues ?f ?a issuesG ?e] =>
      destruct (logIssues_keeps f a issuesG e) as (addedG & -> & LG & IG);
      [cbn [List.length]; lia|]
  end.
  match goal with
  | |- context [Validator.logIssues ?f ?a issuesU ?e] =>
      destruct (logIssues_keeps f a issuesU e) as (addedU & -> & LU & IU);
      [rewrite length_app; cbn [List.length]; lia|]
  end.
  eexists. split; [reflexivity|].
  intros i [Hi|Hi]; apply in_or_app.
  - right. apply in_or_app. left. now apply IG.
  - left. now apply IU.
Qed.

(** C8, as the code has it.  A voicing whose fret list does not have as
    many entries as the tuning of its instrument has strings is reported
    by the validator, under its symbol and position, as a string-count
    mismatch, and the validation run writes the report to the log as a
    warning (which is there at the end of the run when the log had room
    for the run's entries).  The report changes nothing for the resolver:
    it still selects that voicing, and returns one note for every
    unmuted fret, on the string at the fret's position; only when an
    unmuted fret lies beyond the last string does it raise instead of
    returning. *)
Theorem mismatched_voicing_reported_and_still_resolved
        (G U : ChordDB) (instrument sym : string) (voicings : list ChordVoicingData)
        (n : nat) (v : ChordVoicingData) (rootPc : Z) (q : string) :
  lookup sym (if instrument =? "guitar" then G else U) = Some voicings ->
  nth_error voicings n = Some v ->
  List.length (frets v)
  <> List.length (if instrument =? "guitar" then GUITAR_TUNING else UKULELE_TUNING) ->
  Validator.parseRoot sym = Ok (rootPc, q) ->
  let tuning := if instrument =? "guitar" then GUITAR_TUNING else UKULELE_TUNING in
  let issue :=
    Validator.mkIssue sym (Z.of_nat n)
      ["String count mismatch: frets="
       ++ showZ (Z.of_nat (List.length (frets v)))
       ++ ", tuning=" ++ showZ (Z.of_nat (List.length tuning))] in
  (exists issuesG issuesU,
      Validator.validateCatalog "guitar" G = Ok issuesG /\
      Validator.validateCatalog "ukulele" U = Ok issuesU /\
      In issue (if instrument =? "guitar" then issuesG else issuesU) /\
      forall entries,
        (List.length entries + List.length issuesG + List.length issuesU + 3 <= 200)%nat ->
        exists log,
          Validator.runChordVoicingValidator G U entries = Ok log /\
          In (Logger.mkEntry Logger.warn
                ("- " ++ sym ++ " (voicing " ++ showZ (Z.of_nat n)
                 ++ "): String count mismatch: frets="
                 ++ showZ (Z.of_nat (List.length (frets v)))
                 ++ ", tuning=" ++ showZ (Z.of_nat (List.length tuning))) None)
             log) /\
  getVoicingForChord G U sym instrument (Z.of_nat n)
  = if existsb isSounded (skipn (List.length tuning) (frets v))
    then Throw "TypeError: note is undefined"
    else Ok (Reference.unmutedNotes tuning (frets v)).
Proof.
  intros Hl Hn Hlen Hroot tuning issue. split.
  - destruct (validateCatalog_report "guitar" G) as (pg & Lg & Eg).
    destruct (validateCatalog_report "ukulele" U) as (pu & Lu & Eu).
    change ("guitar" =? "guitar") with true in Lg.
    change ("ukulele" =? "guitar") with false in Lu. cbv iota in Lg, Lu.
    assert (Hin : In issue (if instrument =? "guitar"
                            then List.concat (map (Validator.validateSymbol pg) G)
                            else List.concat (map (Validator.validateSymbol pu) U))).
    { subst issue tuning. destruct (instrument =? "guitar").
      - rewrite <- Lg. apply (mismatch_is_reported pg G sym voicings n v rootPc q);
          try assumption. now rewrite Lg.
      - rewrite <- Lu. apply (mismatch_is_reported pu U sym voicings n v rootPc q);
          try assumption. now rewrite Lu. }
    eexists _, _. split; [exact Eg|]. split; [exact Eu|]. split; [exact Hin|].
    intros entries Hroom.
    destruct (validation_run_logs G U _ _ entries Eg Eu Hroom) as (log & El & Il).
    exists log. split; [exact El|].
    apply (Il issue). destruct (instrument =? "guitar"); [now left|now right].
  - subst tuning. unfold getVoicingForChord. cbv zeta.
    destruct (instrument =? "guitar"); rewrite Hl;
      (destruct voicings as [|first others]; [destruct n; discriminate|]);
      rewrite at_of_nat, Hn; apply soundedStrings_exact.
Qed.

Lemma mismatched_voicing_reported_and_still_resolved_witness :
  (exists issuesG issuesU,
      Validator.validateCatalog "guitar" shortC = Ok issuesG /\
      Validator.validateCatalog "ukulele" [] = Ok issuesU /\
      In (Validator.mkIssue "C" 0 ["String count mismatch: frets=5, tuning=6"]) issuesG /\
      forall entries,
        (List.length entries + List.length issuesG + List.length issuesU + 3 <= 200)%nat ->
        exists log,
          Validator.runChordVoicingValidator shortC [] entries = Ok log /\
          In (Logger.mkEntry Logger.warn
                "- C (voicing 0): String count mismatch: frets=5, tuning=6" None)
             log) /\
  getVoicingForChord shortC [] "C" "guitar" 0
  = Ok [mkVoicing "E4" 0; mkVoicing "C4" 1; mkVoicing "G3" 2;
        mkVoicing "E3" 3; mkVoicing "C3" 4].
Proof.
  apply (mismatched_voicing_reported_and_still_resolved
           shortC [] "guitar" "C"
           [mkVoicingData [Fr 0; Fr 1; Fr 0; Fr 2; Fr 3] []] 0
           (mkVoicingData [Fr 0; Fr 1; Fr 0; Fr 2; Fr 3] []) 0 "").
  - reflexivity.
  - reflexivity.
  - simpl. lia.
  - reflexivity.
Defined.

(** C8, as stated, fails: a five-fret C chord in the guitar catalogue is
    reported and logged as a string-count mismatch, and the resolver
    still returns its five notes. *)
Lemma mismatched_voicing_is_not_dropped :
  Validator.validateCatalog "guitar" shortC
  = Ok [Validator.mkIssue "C" 0 ["String count mismatch: frets=5, tuning=6"]] /\
  (exists log,
      Validator.runChordVoicingValidator shortC [] [] = Ok log /\
      In (Logger.mkEntry Logger.warn
            "- C (voicing 0): String count mismatch: frets=5, tuning=6" None) log) /\
  getVoicingForChord shortC [] "C" "guitar" 0
  = Ok [mkVoicing "E4" 0; mkVoicing "C4" 1; mkVoicing "G3" 2;
        mkVoicing "E3" 3; mkVoicing "C3" 4] /\
  getVoicingForChord shortC [] "C" "guitar" 0 <> Ok [].
Proof.
  split; [vm_compute; reflexivity|].
  split; [eexists; split; [vm_compute; reflexivity|]; simpl; tauto|].
  split; [vm_compute; reflexivity|].
  vm_compute. discriminate.
Qed.

(** ** MIDI serialiser: the bytes of a single block chord *)

(** On a voicing whose notes are all names [noteToMidi] does not raise. *)
Lemma noteToMidi_name (name : string) :
  exists pitch, Midi.noteToMidi (NoteName name) = Ok pitch.
Proof.
  unfold Midi.noteToMidi.
  destruct (match name with
            | String c (String d EmptyString) =>
                if isAtoG c && isDigit d then Some (String c "", d) else None
            | String c (String a (String d EmptyString)) =>
                if isAtoG c && isAccidental a && isDigit d
                then Some (String c (String a ""), d) else None
            | _ => None
            end) as [[noteName d]|]; [|now eexists].
  destruct (lookup noteName Midi.NOTE_TO_MIDI_VAL); now eexists.
Qed.

Lemma midiNotesOf_names (voicing : list ChordVoicing) (names : list string) :
  map note voicing = map NoteName names ->
  Midi.midiNotesOf voicing
  = Ok (flat_map (fun n => match Midi.noteToMidi (NoteName n) with
                           | Ok (Some m) => [m]
                           | _ => []
                           end) names).
Proof.
  intro H. unfold Midi.midiNotesOf.
  assert (E : exists pitches,
             mapM (fun v => Midi.noteToMidi (note v)) voicing = Ok pitches /\
             flat_map (fun n : option Z => match n with
                                           | Some p => [p]
                                           | None => []
                                           end) pitches
             = flat_map (fun n => match Midi.noteToMidi (NoteName n) with
                                  | Ok (Some m) => [m]
                                  | _ => []
                                  end) names).
  { revert names H.
    induction voicing as [|v t IH]; intros [|n names] H; try discriminate.
    - exists []. split; reflexivity.
    - cbn [map] in H. injection H as Hn Ht.
      destruct (IH names Ht) as (pitches & Em & Ef).
      destruct (noteToMidi_name n) as (pitch & En).
      exists (pitch :: pitches). split.
      + cbn [mapM]. rewrite Hn, En, Em. reflexivity.
      + cbn [flat_map]. rewrite Ef, En. reflexivity. }
  destruct E as (pitches & -> & Ef). cbn [bind]. now rewrite Ef.
Qed.

(** C3.  One entry [C] without a pattern at 120 bpm, resolved to a
    voicing that sounds C4, E4, G4, C5, E5 (on whatever strings, in
    whatever order [ps] the resolver lists them): the file is the 14
    header bytes, then ['MTrk'] with length 52, the tempo event for
    500000 microseconds, five note-ons (status 144, velocity 100) at
    delta 0, five note-offs (status 128) of the same pitches in the same
    order with deltas 1920, 0, 0, 0, 0, and the end-of-track event. *)
Theorem export_single_C_block
        (G U : ChordDB) (instrument : string) (patterns : string -> option Pattern)
        (idx : Z) (voicing : list ChordVoicing) :
  getVoicingForChord G U "C" instrument idx = Ok voicing ->
  Permutation (map note voicing) (map NoteName ["C4"; "E4"; "G4"; "C5"; "E5"]) ->
  exists (ps : list Z) (events : list Midi.MidiEvent) (midiData : list Z),
    Permutation ps [60; 64; 67; 72; 76] /\
    Midi.collectEvents G U patterns instrument
                       [Midi.mkProgChord "C" idx None None] 0 = Ok (events, 1920) /\
    Midi.sortEvents events
    = List.app (map (fun p => Midi.mkEvent 0 Midi.on p) ps)
               (map (fun p => Midi.mkEvent 1920 Midi.off p) ps) /\
    Midi.deltaTimes (Midi.sortEvents events) 0 = [0; 0; 0; 0; 0; 1920; 0; 0; 0; 0] /\
    Midi.exportProgressionToMidi G U (Some instrument) 120 patterns
                                 [Midi.mkProgChord "C" idx None None]
    = Midi.File midiData /\
    firstn 14 midiData = [77; 84; 104; 100; 0; 0; 0; 6; 0; 0; 0; 1; 1; 224] /\
    skipn 14 midiData
    = List.app [77; 84; 114; 107; 0; 0; 0; 52]
        (List.app [0; 255; 81; 3; 7; 161; 32]
           (List.app (flat_map (fun p => [0; 144; p; 100]) ps)
              (List.app [143; 0]
                 (List.app (tl (flat_map (fun p => [0; 128; p; 100]) ps))
                    [0; 255; 47; 0])))).
Proof.
  intros Hv Hperm.
  assert (Hlen : List.length voicing = 5%nat).
  { apply Permutation_length in Hperm. now rewrite !length_map in Hperm. }
  apply Permutation_map_inv in Hperm. destruct Hperm as (names & Enames & Hperm).
  pose proof (midiNotesOf_names voicing names Enames) as Eps.
  set (ps := flat_map (fun n => match Midi.noteToMidi (NoteName n) with
                                | Ok (Some m) => [m]
                                | _ => []
                                end) names) in Eps.
  assert (Hps : Permutation ps [60; 64; 67; 72; 76]).
  { change [60; 64; 67; 72; 76]
      with (flat_map (fun n => match Midi.noteToMidi (NoteName n) with
                               | Ok (Some m) => [m]
                               | _ => []
                               end) ["C4"; "E4"; "G4"; "C5"; "E5"]).
    apply Permutation_flat_map. now symmetry. }
  assert (Hrange : Forall (fun p => 0 <= p < 256) ps).
  { eapply Permutation_Forall; [symmetry; exact Hps|].
    repeat constructor; lia. }
  pose proof (Permutation_length Hps) as Hn.
  clearbody ps.
  destruct ps as [|p1 [|p2 [|p3 [|p4 [|p5 [|p6 ps]]]]]]; try discriminate Hn.
  assert (Hc : Midi.collectEvents G U patterns instrument
                 [Midi.mkProgChord "C" idx None None] 0
               = Ok (Midi.blockEvents [p1; p2; p3; p4; p5] 0 1920, 1920)).
  { cbn [Midi.collectEvents Midi.chord Midi.voicingIndex]. rewrite Hv. cbn [bind].
    unfold Midi.chordEvents. rewrite Hlen.
    cbn [Nat.eqb Midi.strumPatternId Midi.arpeggioPatternId Midi.patternFor].
    rewrite Eps. reflexivity. }
  exists [p1; p2; p3; p4; p5].
  exists (Midi.blockEvents [p1; p2; p3; p4; p5] 0 1920).
  eexists.
  split; [exact Hps|]. split; [exact Hc|].
  split; [reflexivity|]. split; [reflexivity|].
  split.
  - unfold Midi.exportProgressionToMidi. rewrite Hc.
    assert (Ht : Midi.trackBytesOf 120
                   (Midi.sortEvents (Midi.blockEvents [p1; p2; p3; p4; p5] 0 1920))
                 = Some [0; 255; 81; 3; 7; 161; 32;
                         0; 144; p1; 100; 0; 144; p2; 100; 0; 144; p3; 100;
                         0; 144; p4; 100; 0; 144; p5; 100;
                         143; 0; 128; p1; 100; 0; 128; p2; 100; 0; 128; p3; 100;
                         0; 128; p4; 100; 0; 128; p5; 100;
                         0; 255; 47; 0]) by (vm_compute; reflexivity).
    rewrite Ht. reflexivity.
  - repeat match goal with
           | H : Forall _ (_ :: _) |- _ => inversion H; subst; clear H
           end.
    cbn [map List.app Midi.charCodes Midi.writeInt16 Midi.writeInt32
         list_ascii_of_string List.length firstn skipn flat_map tl].
    rewrite !(Z.mod_small p1), !(Z.mod_small p2), !(Z.mod_small p3),
            !(Z.mod_small p4), !(Z.mod_small p5) by assumption.
    split; vm_compute; reflexivity.
Qed.

Lemma export_single_C_block_witness :
  exists (ps : list Z) (events : list Midi.MidiEvent) (midiData : list Z),
    Permutation ps [60; 64; 67; 72; 76] /\
    Midi.collectEvents highC [] (fun _ => None) "guitar"
                       [Midi.mkProgChord "C" 0 None None] 0 = Ok (events, 1920) /\
    Midi.sortEvents events
    = List.app (map (fun p => Midi.mkEvent 0 Midi.on p) ps)
               (map (fun p => Midi.mkEvent 1920 Midi.off p) ps) /\
    Midi.deltaTimes (Midi.sortEvents events) 0 = [0; 0; 0; 0; 0; 1920; 0; 0; 0; 0] /\
    Midi.exportProgressionToMidi highC [] (Some "guitar") 120 (fun _ => None)
                                 [Midi.mkProgChord "C" 0 None None]
    = Midi.File midiData /\
    firstn 14 midiData = [77; 84; 104; 100; 0; 0; 0; 6; 0; 0; 0; 1; 1; 224] /\
    skipn 14 midiData
    = List.app [77; 84; 114; 107; 0; 0; 0; 52]
        (List.app [0; 255; 81; 3; 7; 161; 32]
           (List.app (flat_map (fun p => [0; 144; p; 100]) ps)
              (List.app [143; 0]
                 (List.app (tl (flat_map (fun p => [0; 128; p; 100]) ps))
                    [0; 255; 47; 0])))).
Proof.
  apply (export_single_C_block highC [] "guitar" (fun _ => None) 0
           [mkVoicing "E5" 0; mkVoicing "C5" 1; mkVoicing "G4" 2;
            mkVoicing "E4" 3; mkVoicing "C4" 4]).
  - reflexivity.
  - simpl. symmetry.
    apply (Permutation_rev (map NoteName ["C4"; "E4"; "G4"; "C5"; "E5"])).
Defined.

(** ** MIDI serialiser: the event stream *)





(** *** Events pushed in pairs *)

Lemma pushedInPairs_app (P : Z -> Z -> Prop) (l1 l2 : list Midi.MidiEvent) :
  pushedInPairs P l1 -> pushedInPairs P l2 -> pushedInPairs P (List.app l1 l2).
Proof.
  induction 1 as [|s e p more Hp _ IH]; intro H2; [exact H2|].
  cbn [List.app]. constructor; [exact Hp|now apply IH].
Qed.

Lemma pushedInPairs_concat (P : Z -> Z -> Prop) (ls : list (list Midi.MidiEvent)) :
  Forall (pushedInPairs P) ls -> pushedInPairs P (List.concat ls).
Proof.
  induction 1 as [|l ls Hl _ IH]; cbn [List.concat]; [constructor|].
  now apply pushedInPairs_app.
Qed.


Lemma pushedInPairs_noteOnOff (P : Z -> Z -> Prop) (s e p : Z) :
  P s e -> pushedInPairs P (Midi.noteOnOff s e p).
Proof. intro H. unfold Midi.noteOnOff. constructor; [exact H|constructor]. Qed.

Lemma pushedInPairs_nonNegative (P : Z -> Z -> Prop) (l : list Midi.MidiEvent) :
  (forall s e, P s e -> 0 <= s /\ 0 <= e) ->
  pushedInPairs P l -> nonNegativeTicks l.
Proof.
  intro H. induction 1 as [|s e p more Hp _ IH]; [constructor|].
  destruct (H s e Hp). repeat constructor; assumption.
Qed.


(** *** Sorting keeps every note-on before its note-off *)















(** *** What the resolver hands over *)

Lemma mapM_In {A B : Type} (f : A -> Outcome B) (l : list A) :
  forall ys, mapM f l = Ok ys ->
             forall y, In y ys -> exists x, In x l /\ f x = Ok y.
Proof.
  induction l as [|x t IH]; intros ys H y Hy; cbn [mapM] in H.
  - injection H as <-. contradiction.
  - destruct (f x) as [y0|e] eqn:Ex; [|discriminate]. cbn [bind] in H.
    destruct (mapM f t) as [ys0|e]; [|discriminate]. cbn [bind] in H.
    injection H as <-. destruct Hy as [<-|Hy].
    + exists x. split; [now left|exact Ex].
    + destruct (IH ys0 eq_refl y Hy) as (x' & Hin & E). exists x'. split; [now right|exact E].
Qed.

Lemma mapM_returns {A B : Type} (f : A -> Outcome B) (P : B -> Prop) (l : list A) :
  (forall x, In x l -> exists y, f x = Ok y /\ P y) ->
  exists ys, mapM f l = Ok ys /\ Forall P ys /\ List.length ys = List.length l.
Proof.
  induction l as [|x t IH]; intro H.
  - exists []. repeat split. constructor.
  - destruct (H x (or_introl eq_refl)) as (y & Ey & Py).
    destruct (IH (fun x' Hx' => H x' (or_intror Hx'))) as (ys & Eys & Pys & Hlen).
    exists (y :: ys). cbn [mapM]. rewrite Ey, Eys. cbn [bind List.length].
    repeat split; [now constructor|now rewrite Hlen].
Qed.

Lemma In_mapiFrom_pair {A : Type} (l : list A) (x : A) (j : Z) :
  forall i, In (x, j) (mapiFrom i (fun a k => (a, k)) l) ->
            In x l /\ i <= j < i + Z.of_nat (List.length l).
Proof.
  induction l as [|y t IH]; intros i H; [contradiction|].
  cbn [mapiFrom List.length] in *. destruct H as [H|H].
  - injection H as -> ->. split; [now left|lia].
  - destruct (IH _ H) as [Hin Hj]. split; [now right|lia].
Qed.

Lemma at_In {A : Type} (l : list A) (i : Z) (x : A) : at_ l i = Some x -> In x l.
Proof.
  unfold at_. destruct (i <? 0)%Z; [discriminate|]. apply nth_error_In.
Qed.

Lemma midiToNote_named (m : Z) : 0 <= m -> exists name, midiToNote m = NoteName name.
Proof.
  intro H. unfold midiToNote.
  pose proof (Z.rem_bound_pos m 12 H ltac:(lia)) as Hr.
  destruct (at_ NOTES (Z.rem m 12)) as [n|] eqn:E; [now eexists|].
  unfold at_ in E. destruct (Z.ltb_spec (Z.rem m 12) 0); [lia|].
  apply nth_error_None in E. change (List.length NOTES) with 12%nat in E. lia.
Qed.

Lemma getNoteFromFret_named (tuning : list string) (openString : string) (n : Z) :
  tuning = GUITAR_TUNING \/ tuning = UKULELE_TUNING ->
  In openString tuning -> 0 <= n ->
  exists name, getNoteFromFret openString n = NoteName name.
Proof.
  intros Ht Hin Hn. unfold getNoteFromFret.
  assert (H : 0 <= noteToMidi openString).
  { destruct Ht; subst tuning; cbv [GUITAR_TUNING UKULELE_TUNING In] in Hin;
      repeat (destruct Hin as [<-|Hin]; [vm_compute; discriminate|]); contradiction. }
  destruct (noteToMidi openString =? -1)%Z; [now eexists|].
  apply midiToNote_named. lia.
Qed.

Lemma soundedStrings_notes (tuning : list string) (fs : list Fret)
      (notes : list ChordVoicing) :
  soundedStrings tuning fs = Ok notes ->
  Forall (fun v => exists openString n,
              In openString tuning /\ In (Fr n) fs /\
              note v = getNoteFromFret openString n) notes.
Proof.
  unfold soundedStrings, mapi. intro H.
  destruct (mapM _ _) as [cells|e] eqn:Em; [|discriminate].
  cbn [bind] in H. injection H as <-.
  apply Forall_forall. intros v Hv. apply in_flat_map in Hv.
  destruct Hv as ([v'|] & Hc & Hv); [|contradiction]. destruct Hv as [->|[]].
  destruct (mapM_In _ _ _ Em _ Hc) as ([f i] & Hin & Ef).
  apply In_mapiFrom_pair in Hin. destruct Hin as [Hin _].
  destruct f as [|n]; [discriminate|].
  destruct (at_ tuning i) as [o|] eqn:Eo; [|discriminate].
  injection Ef as <-. exists o, n. repeat split; [eapply at_In; exact Eo|exact Hin].
Qed.

(** *** The three generators *)

Lemma mapiFrom_Forall_index {A B : Type} (P : B -> Prop) (f : A -> Z -> B) (l : list A) :
  forall i, (forall x j, i <= j < i + Z.of_nat (List.length l) -> P (f x j)) ->
            Forall P (mapiFrom i f l).
Proof.
  induction l as [|x t IH]; intros i H; cbn [mapiFrom]; constructor.
  - apply H. cbn [List.length]. lia.
  - apply IH. intros y j Hj. apply H. cbn [List.length]. lia.
Qed.

Lemma beatTicksOf_nonneg (b : StrumBeat) (tpm : Z) :
  Qle 0 (duration b) -> 0 <= tpm -> 0 <= Midi.beatTicksOf b tpm.
Proof.
  intros Hd Ht. unfold Midi.beatTicksOf, round.
  change 0 with (Qfloor 0). apply Qfloor_resp_le.
  apply Qle_trans with (y := Qmult (duration b) (inject_Z tpm)).
  - apply Qmult_le_0_compat; [exact Hd|].
    unfold Qle. cbn. lia.
  - rewrite <- (Qplus_0_r (Qmult (duration b) (inject_Z tpm))) at 1.
    apply Qplus_le_compat; [apply Qle_refl|]. unfold Qle. cbn. lia.
Qed.

Section EventStream.

Variables (G U : ChordDB) (patterns : string -> option Pattern).
Hypothesis patterns_ok : forall id p, patterns id = Some p -> wellFormedPattern p.

(** Whether the patterns are known to fit the stagger of a strum. *)
Variable staggered : Prop.
Hypothesis stagger_ok :
  staggered -> forall id p, patterns id = Some p -> staggerFits p.

Lemma patternFor_ok (id : option string) (p : Pattern) :
  Midi.patternFor patterns id = Some p ->
  wellFormedPattern p /\ (staggered -> staggerFits p).
Proof.
  destruct id as [s|]; cbn; [|discriminate].
  destruct (s =? ""); [discriminate|]. intro H. split.
  - now apply (patterns_ok s).
  - intro Hs. now apply (stagger_ok Hs s).
Qed.

Lemma midiNotesOf_ok (voicing : list ChordVoicing) :
  resolvedVoicing voicing ->
  exists midiNotes,
    Midi.midiNotesOf voicing = Ok midiNotes /\ (List.length midiNotes <= 6)%nat.
Proof.
  intros [Hlen Hnamed]. unfold Midi.midiNotesOf.
  destruct (mapM_returns (fun v => Midi.noteToMidi (note v)) (fun _ => True) voicing)
    as (pitches & -> & _ & Hp).
  { intros v Hv. rewrite Forall_forall in Hnamed.
    destruct (Hnamed v Hv) as (name & ->).
    destruct (noteToMidi_name name) as (pitch & ->). now exists pitch. }
  cbn [bind]. eexists. split; [reflexivity|].
  rewrite <- Hp in Hlen. clear Hp.
  assert (L : (List.length (flat_map (fun n : option Z => match n with
                                                          | Some p => [p]
                                                          | None => []
                                                          end) pitches)
               <= List.length pitches)%nat).
  { clear. induction pitches as [|[p|] t IH]; cbn [flat_map List.app List.length] in *; lia. }
  lia.
Qed.

Lemma arpeggioEvents_ok (voicing : list ChordVoicing) (order : list Z) (t tpn : Z) :
  resolvedVoicing voicing -> 0 <= t -> 0 <= tpn ->
  exists evs,
    Midi.arpeggioEvents voicing order t tpn = Ok evs /\ pushedInPairs (soundNote staggered) evs.
Proof.
  intros [_ Hnamed] Ht Hn. unfold Midi.arpeggioEvents.
  match goal with
  | |- context [mapM ?f ?l] =>
      destruct (mapM_returns f (pushedInPairs (soundNote staggered)) l) as (pushed & -> & Hp & _)
  end.
  - intros [s i] Hin. apply In_mapiFrom_pair in Hin. destruct Hin as [_ Hi].
    destruct (Audio.findString voicing s) as [v|] eqn:Ef;
      [|eexists; split; [reflexivity|constructor]].
    apply find_some in Ef. destruct Ef as [Hv _].
    rewrite Forall_forall in Hnamed. destruct (Hnamed v Hv) as (name & ->).
    destruct (noteToMidi_name name) as ([p|] & ->); cbn [bind];
      [|eexists; split; [reflexivity|constructor]].
    destruct (p =? 0)%Z; eexists; (split; [reflexivity|]); [constructor|].
    apply pushedInPairs_noteOnOff. unfold soundNote. repeat split; try nia.
  - cbn [bind]. eexists. split; [reflexivity|]. now apply pushedInPairs_concat.
Qed.

Lemma strumBeatEvents_ok (notes : list Z) (b : StrumBeat) (t tim bt : Z) :
  (List.length notes <= 6)%nat ->
  0 <= t -> 0 <= tim -> 0 <= bt ->
  (staggered -> beatType b = rest \/ 25 <= bt) ->
  pushedInPairs (soundNote staggered) (Midi.strumBeatEvents notes b t tim bt).
Proof.
  intros Hlen Ht Htim Hbt Hst. unfold Midi.strumBeatEvents, mapi.
  destruct (beatType b) eqn:Eb; [| |constructor].
  all: apply pushedInPairs_concat, mapiFrom_Forall_index; intros q j Hj;
       apply pushedInPairs_noteOnOff; unfold soundNote; rewrite ?length_rev in Hj;
       repeat split; try lia;
       intro Hs; destruct (Hst Hs) as [C|C]; [discriminate|lia].
Qed.

Lemma strumEvents_ok (notes : list Z) (bs : list StrumBeat) (t tpm : Z) :
  (List.length notes <= 6)%nat ->
  0 <= t -> 0 <= tpm ->
  Forall (fun b => Qle 0 (duration b)) bs ->
  (staggered ->
   Forall (fun b => beatType b = rest \/ 25 <= Midi.beatTicksOf b tpm) bs) ->
  forall tim, 0 <= tim ->
    pushedInPairs (soundNote staggered) (Midi.strumEvents notes bs t tpm tim).
Proof.
  intros Hlen Ht Htpm Hbs Hst.
  induction Hbs as [|b bs Hb _ IH]; intros tim Htim; cbn [Midi.strumEvents];
    [constructor|].
  pose proof (beatTicksOf_nonneg b tpm Hb Htpm) as Hbt.
  apply pushedInPairs_app.
  - apply strumBeatEvents_ok; try assumption.
    intro Hs. specialize (Hst Hs). now inversion Hst.
  - apply IH; [|lia]. intro Hs. specialize (Hst Hs). now inversion Hst.
Qed.

Lemma blockEvents_ok (notes : list Z) (t len : Z) :
  0 <= t -> 0 <= len -> pushedInPairs (soundNote staggered) (Midi.blockEvents notes t len).
Proof.
  intros Ht Hl. unfold Midi.blockEvents.
  induction notes as [|q notes IH]; cbn [flat_map]; [constructor|].
  apply pushedInPairs_app; [|exact IH].
  apply pushedInPairs_noteOnOff. unfold soundNote. repeat split; lia.
Qed.

Lemma chordEvents_ok (voicing : list ChordVoicing)
      (progChord : Midi.ProgressionChord) (t : Z) :
  resolvedVoicing voicing -> 0 <= t ->
  exists evs t',
    Midi.chordEvents patterns voicing progChord t = Ok (evs, t') /\
    t <= t' /\ pushedInPairs (soundNote staggered) evs.
Proof.
  intros Hres Ht. unfold Midi.chordEvents.
  assert (Hskip : exists evs t',
             Ok ([], t) = Ok (evs, t') /\ t <= t' /\ pushedInPairs (soundNote staggered) evs).
  { exists [], t. split; [reflexivity|split; [lia|constructor]]. }
  destruct (List.length voicing =? 0)%nat; [exact Hskip|].
  destruct (midiNotesOf_ok voicing Hres) as (midiNotes & En & Hlen).
  destruct (Midi.patternFor patterns (Midi.arpeggioPatternId progChord))
    as [[sa|arp]|] eqn:Ea.
  1, 3: destruct (Midi.patternFor patterns (Midi.strumPatternId progChord))
      as [[st|a']|] eqn:Es.
  all: rewrite ?En; cbn [bind].
  all: try (eexists; eexists; split; [reflexivity|];
            split; [unfold Midi.timeDivision; lia|];
            apply blockEvents_ok; [exact Ht|unfold Midi.timeDivision; lia]).
  1, 2: apply patternFor_ok in Es; destruct Es as [[Hb Hd] Hst];
        assert (Htpm : 0 <= strumBeatsPerMeasure st * Midi.timeDivision)
          by (unfold Midi.timeDivision; lia);
        eexists; eexists; split; [reflexivity|]; split; [lia|];
        apply strumEvents_ok; try assumption; lia.
  apply patternFor_ok in Ea. destruct Ea as [Ha _]. cbn in Ha.
  assert (Htpm : 0 <= beatsPerMeasure arp * Midi.timeDivision)
    by (unfold Midi.timeDivision; lia).
  destruct (Z.eqb_spec (Z.of_nat (List.length (Midi.exportNoteOrder voicing arp))) 0)
    as [_|Hn]; [exact Hskip|].
  assert (Htpn : 0 <= beatsPerMeasure arp * Midi.timeDivision
                      / Z.of_nat (List.length (Midi.exportNoteOrder voicing arp)))
    by (apply Z.div_pos; lia).
  destruct (arpeggioEvents_ok voicing (Midi.exportNoteOrder voicing arp) t _ Hres Ht Htpn)
    as (evs & -> & Hp).
  cbn [bind]. exists evs. eexists. split; [reflexivity|]. split; [lia|exact Hp].
Qed.

Hypothesis guitar_fits : fitsTuning GUITAR_TUNING G.
Hypothesis ukulele_fits : fitsTuning UKULELE_TUNING U.
Hypothesis guitar_frets : noNegativeFret G.
Hypothesis ukulele_frets : noNegativeFret U.

(** On catalogues that fit the tunings and have no negative fret the
    resolver returns, at most six notes, each with a name. *)
Lemma getVoicingForChord_returns (chordName instrument : string) (idx : Z) :
  exists voicing,
    getVoicingForChord G U chordName instrument idx = Ok voicing /\ resolvedVoicing voicing.
Proof.
  unfold getVoicingForChord.
  set (db := if instrument =? "guitar" then G else U).
  set (tuning := if instrument =? "guitar" then GUITAR_TUNING else UKULELE_TUNING).
  assert (Hfit : fitsTuning tuning db).
  { subst db tuning. destruct (instrument =? "guitar"); assumption. }
  assert (Hneg : noNegativeFret db).
  { subst db. destruct (instrument =? "guitar"); assumption. }
  assert (Htun : tuning = GUITAR_TUNING \/ tuning = UKULELE_TUNING).
  { subst tuning. destruct (instrument =? "guitar"); [now left|now right]. }
  assert (Hsix : (List.length tuning <= 6)%nat).
  { destruct Htun as [-> | ->]; cbn; lia. }
  assert (Hnone : resolvedVoicing []) by (split; [cbn; lia|constructor]).
  destruct (lookup chordName db) as [[|first others]|] eqn:El;
    [now exists []| |now exists []].
  set (v := match at_ (first :: others) idx with Some v => v | None => first end).
  assert (Hin : In v (first :: others)).
  { subst v. destruct (at_ (first :: others) idx) eqn:Eat;
      [eapply at_In; exact Eat|now left]. }
  pose proof (soundedStrings_spec tuning (frets v)) as Hs.
  pose proof (soundedStrings_notes tuning (frets v)) as Hn.
  specialize (Hfit chordName _ v El Hin).
  destruct (soundedStrings tuning (frets v)) as [notes|e]; [|lia].
  exists notes. split; [reflexivity|]. split.
  - pose proof (filter_length_le isSounded (frets v)). lia.
  - eapply Forall_impl; [|exact (Hn notes eq_refl)]. cbn.
    intros c (o & n & Ho & Hf & ->).
    apply (getNoteFromFret_named tuning); [exact Htun|exact Ho|].
    exact (Hneg chordName _ v n El Hin Hf).
Qed.

Lemma collectEvents_ok (instrument : string) (progression : list Midi.ProgressionChord) :
  forall t, 0 <= t ->
    exists evs finalTick,
      Midi.collectEvents G U patterns instrument progression t = Ok (evs, finalTick) /\
      t <= finalTick /\ pushedInPairs (soundNote staggered) evs.
Proof.
  induction progression as [|progChord more IH]; intros t Ht; cbn [Midi.collectEvents].
  - exists [], t. repeat split; [lia|constructor].
  - destruct (getVoicingForChord_returns (Midi.chord progChord) instrument
                                         (Midi.voicingIndex progChord))
      as (voicing & -> & Hres).
    cbn [bind].
    destruct (chordEvents_ok voicing progChord t Hres Ht) as (evs & t' & -> & Hle & Hp).
    cbn [bind].
    destruct (IH t' ltac:(lia)) as (evs' & final & -> & Hle' & Hp').
    cbn [bind fst snd].
    exists (List.app evs evs'), final.
    split; [reflexivity|]. split; [lia|now apply pushedInPairs_app].
Qed.

End EventStream.

Lemma soundNote_nonNegative (staggered : Prop) (evs : list Midi.MidiEvent) :
  pushedInPairs (soundNote staggered) evs -> nonNegativeTicks evs.
Proof. apply pushedInPairs_nonNegative. unfold soundNote. tauto. Qed.






(** ** The variable-length quantity: adequacy of the fuel *)

Lemma shr7_div (v : Z) : shr v 7 = toInt32 v / 128.
Proof.
  unfold shr. change (7 mod 32) with 7.
  rewrite Z.shiftr_div_pow2 by lia. reflexivity.
Qed.

Lemma toInt32_small (v : Z) : 0 <= v < 2147483648 -> toInt32 v = v.
Proof. intro H. unfold toInt32. rewrite Z.mod_small by lia. lia. Qed.

Lemma toInt32_range (v : Z) : -2147483648 <= toInt32 v < 2147483648.
Proof.
  unfold toInt32.
  pose proof (Z.mod_pos_bound (v + 2147483648) 4294967296 ltac:(lia)). lia.
Qed.

Lemma packGroups_bounded (m : nat) :
  forall (n : nat) (v b : Z),
    (m <= n)%nat -> 0 <= v < 128 ^ Z.of_nat m -> v < 2147483648 ->
    Midi.packGroups n v b = Midi.packGroups m v b.
Proof.
  induction m as [|m IH]; intros n v b Hmn Hv Hs.
  - assert (v = 0) by (change (128 ^ Z.of_nat 0) with 1 in Hv; lia). subst v.
    destruct n; reflexivity.
  - destruct n as [|n]; [lia|].
    cbn [Midi.packGroups]. rewrite shr7_div, toInt32_small by lia.
    destruct (0 <? v / 128)%Z eqn:E; [|reflexivity].
    apply IH; [lia| |].
    + rewrite Nat2Z.inj_succ, Z.pow_succ_r in Hv by lia.
      split; [apply Z.div_pos; lia|].
      apply Z.div_lt_upper_bound; lia.
    + assert (v / 128 <= v) by (apply Z.div_le_upper_bound; lia). lia.
Qed.

Lemma packGroups_step (k : nat) (v b : Z) :
  Midi.packGroups (S k) v b
  = if (0 <? shr v 7)%Z
    then Midi.packGroups k (shr v 7) (bor (shl b 8) (bor (band (shr v 7) 127) 128))
    else b.
Proof. reflexivity. Qed.

(** Five turns of fuel are always enough for the first loop. *)
Lemma packGroups_fuel (n : nat) (v b : Z) :
  Midi.packGroups (5 + n) v b = Midi.packGroups 5 v b.
Proof.
  change (Midi.packGroups (5 + n) v b) with (Midi.packGroups (S (4 + n)) v b).
  change (Midi.packGroups 5 v b) with (Midi.packGroups (S 4) v b).
  rewrite (packGroups_step (4 + n)), (packGroups_step 4), shr7_div.
  pose proof (toInt32_range v) as Hr.
  destruct (0 <? toInt32 v / 128)%Z eqn:E; [|reflexivity].
  apply Z.ltb_lt in E.
  apply packGroups_bounded; [lia| |].
  - split; [lia|]. apply Z.div_lt_upper_bound; [lia|].
    change (128 ^ Z.of_nat 4) with 268435456. lia.
  - assert (toInt32 v / 128 < 16777216) by (apply Z.div_lt_upper_bound; lia). lia.
Qed.

(** A result of the second loop does not depend on the fuel left. *)
Lemma emitBytes_fuel (n k : nat) :
  forall (buffer : Z) (bytes : list Z),
    Midi.emitBytes n buffer = Some bytes ->
    Midi.emitBytes (n + k) buffer = Some bytes.
Proof.
  induction n as [|n IH]; intros buffer bytes H; [discriminate|].
  cbn [Midi.emitBytes Nat.add] in *.
  destruct (band buffer 128 =? 0)%Z; [exact H|].
  destruct (Midi.emitBytes n (shr buffer 8)) as [r|] eqn:E; [|discriminate].
  now rewrite (IH _ _ E).
Qed.

(** ** The validator on the open C chord *)

(** The open C chord raises no issue; with the B string at fret 2 the
    one issue is the non-chord tone C#. *)
Example validator_accepts_open_C :
  Validator.validateCatalog "guitar" openC = Ok [].
Proof. vm_compute. reflexivity. Qed.

Example validator_reports_C_sharp :
  Validator.validateCatalog "guitar"
    [("C", [mkVoicingData [Fr 0; Fr 2; Fr 0; Fr 2; Fr 3; X] []])]
  = Ok [Validator.mkIssue "C" 0 ["non-chord tones: C#"]].
Proof. vm_compute. reflexivity. Qed.

(* ================================================================== *)
(** * Further properties *)
(* ================================================================== *)

(** ** Successor engine: the in-place sort is harmless to later calls *)

Section SortAgain.

Context {A : Type} (key : A -> Z) (cmp : A -> A -> Z).
Hypothesis cmp_key : forall x y, cmp x y = key x - key y.

Lemma sort_of_sorted (l : list A) :
  StronglySorted (fun a b => key a <= key b) l -> sort cmp l = l.
Proof.
  induction 1 as [|x t Ht IH Hx]; [reflexivity|].
  unfold sort in *. cbn [fold_right]. rewrite IH.
  destruct t as [|y t']; [reflexivity|].
  cbn [insertBy]. inversion Hx; subst.
  destruct (Z.leb_spec (cmp x y) 0) as [_|Hgt]; [reflexivity|].
  rewrite cmp_key in Hgt. lia.
Qed.

Lemma sort_idempotent (l : list A) : sort cmp (sort cmp l) = sort cmp l.
Proof. apply sort_of_sorted, (sort_sorted key cmp cmp_key). Qed.

End SortAgain.

Lemma map_fst_store {V : Type} (k : string) (v : V) (tbl : list (string * V)) :
  map fst (store k v tbl) = map fst tbl.
Proof.
  induction tbl as [|[k' v'] t IH]; [reflexivity|].
  cbn [store]. destruct (k' =? k); cbn [map fst]; [reflexivity|now rewrite IH].
Qed.

Lemma lookup_store {V : Type} (k f : string) (v row : V) (tbl : list (string * V)) :
  lookup k tbl = Some row ->
  lookup f (store k v tbl) = if f =? k then Some v else lookup f tbl.
Proof.
  induction tbl as [|[k' v'] t IH]; cbn [lookup store]; [discriminate|].
  destruct (String.eqb_spec k' k) as [->|Hk].
  - intros _. cbn [lookup]. rewrite (String.eqb_sym f k).
    destruct (k =? f); reflexivity.
  - intro H. cbn [lookup].
    destruct (String.eqb_spec k' f) as [->|Hf].
    + destruct (String.eqb_spec f k) as [->|_]; [contradiction|reflexivity].
    + now apply IH.
Qed.

Lemma rankedRow_store (tbl : Rules) (k f : string) (row : list Transition) :
  lookup k tbl = Some row ->
  Reference.rankedRow (store k (sort byWeightDescending row) tbl) f
  = Reference.rankedRow tbl f.
Proof.
  intro Hk. unfold Reference.rankedRow. rewrite (lookup_store k f _ row tbl Hk).
  destruct (String.eqb_spec f k) as [->|_]; [|reflexivity].
  rewrite Hk. cbn [option_map].
  now rewrite (sort_idempotent _ _ byWeightDescending_key).
Qed.

Lemma sameRanking_refl (s : RulesStore) : Reference.sameRanking s s.
Proof. repeat split. Qed.

Lemma sameRanking_trans (s1 s2 s3 : RulesStore) :
  Reference.sameRanking s1 s2 -> Reference.sameRanking s2 s3 ->
  Reference.sameRanking s1 s3.
Proof.
  intros [K1 [M1 N1]] [K2 [M2 N2]]. repeat split.
  - now rewrite K1.
  - intro f. now rewrite M1.
  - intro f. now rewrite N1.
Qed.

(** A call leaves a store with the same keys and the same ranked rows. *)
Lemma suggest_keeps_ranking (fromChord key : string) (allowBorrowed : bool)
      (st : RulesStore) :
  Reference.sameRanking (snd (getCommonProgressions fromChord key allowBorrowed st)) st.
Proof.
  unfold getCommonProgressions.
  destruct (truthy (findFunctionOfChord (rulesMajor st) fromChord key)) as [f|];
    [|apply sameRanking_refl].
  destruct (endsWith key "m").
  - destruct (lookup f (rulesMinor st)) as [row|] eqn:E; [|apply sameRanking_refl].
    cbn [snd]. repeat split. intro g. cbn [rulesMinor]. now apply rankedRow_store.
  - destruct (lookup f (rulesMajor st)) as [row|] eqn:E; [|apply sameRanking_refl].
    cbn [snd]. repeat split.
    + cbn [rulesMajor]. apply map_fst_store.
    + intro g. cbn [rulesMajor]. now apply rankedRow_store.
Qed.

(** The suggestions are a function of the keys and the ranked rows. *)
Lemma suggest_same_ranking (fromChord key : string) (allowBorrowed : bool)
      (s1 s2 : RulesStore) :
  Reference.sameRanking s1 s2 ->
  fst (getCommonProgressions fromChord key allowBorrowed s1)
  = fst (getCommonProgressions fromChord key allowBorrowed s2).
Proof.
  intros [K [M N]]. unfold getCommonProgressions.
  assert (F : findFunctionOfChord (rulesMajor s1) fromChord key
              = findFunctionOfChord (rulesMajor s2) fromChord key).
  { unfold findFunctionOfChord. now rewrite K. }
  rewrite F.
  destruct (truthy (findFunctionOfChord (rulesMajor s2) fromChord key)) as [f|];
    [|reflexivity].
  specialize (M f). specialize (N f). unfold Reference.rankedRow in M, N.
  destruct (endsWith key "m").
  - destruct (lookup f (rulesMinor s1)), (lookup f (rulesMinor s2));
      cbn [option_map] in N; try discriminate; [|reflexivity].
    injection N as N. cbn [fst]. now rewrite N.
  - destruct (lookup f (rulesMajor s1)), (lookup f (rulesMajor s2));
      cbn [option_map] in M; try discriminate; [|reflexivity].
    injection M as M. cbn [fst]. now rewrite M.
Qed.

Lemma afterCalls_keeps_ranking (calls : list (string * string * bool)) :
  forall st, Reference.sameRanking (Reference.afterCalls calls st) st.
Proof.
  induction calls as [|[[c k] b] calls IH]; intro st; [apply sameRanking_refl|].
  unfold Reference.afterCalls in *. cbn [fold_left].
  eapply sameRanking_trans; [apply IH|apply suggest_keeps_ranking].
Qed.

(** X1.  Whatever suggestion calls came before, a call returns the list
    it returns on the freshly loaded tables, and calling it again changes
    the tables no further. *)
Theorem suggestions_independent_of_history
        (calls : list (string * string * bool))
        (fromChord key : string) (allowBorrowed : bool) (st : RulesStore) :
  fst (getCommonProgressions fromChord key allowBorrowed (Reference.afterCalls calls st))
  = fst (getCommonProgressions fromChord key allowBorrowed st) /\
  snd (getCommonProgressions fromChord key allowBorrowed
         (snd (getCommonProgressions fromChord key allowBorrowed st)))
  = snd (getCommonProgressions fromChord key allowBorrowed st).
Proof.
  split.
  - apply suggest_same_ranking, afterCalls_keeps_ranking.
  - unfold getCommonProgressions at 2 3.
    destruct (truthy (findFunctionOfChord (rulesMajor st) fromChord key)) as [f|] eqn:Ef.
    2: { cbn [snd]. unfold getCommonProgressions. now rewrite Ef. }
    destruct (endsWith key "m") eqn:Em.
    + destruct (lookup f (rulesMinor st)) as [row|] eqn:E.
      2: { cbn [snd]. unfold getCommonProgressions. now rewrite Ef, Em, E. }
      cbn [snd]. unfold getCommonProgressions. cbn [rulesMajor rulesMinor].
      rewrite Ef, Em, (lookup_store f f _ row _ E), String.eqb_refl.
      cbn [snd]. f_equal.
      rewrite (sort_idempotent _ _ byWeightDescending_key).
      clear -E. induction (rulesMinor st) as [|[k' v'] t IH]; [discriminate|].
      cbn [lookup store] in *. destruct (k' =? f) eqn:Ek.
      * cbn [store]. now rewrite Ek.
      * cbn [store]. rewrite Ek. f_equal. now apply IH.
    + destruct (lookup f (rulesMajor st)) as [row|] eqn:E.
      2: { cbn [snd]. unfold getCommonProgressions. now rewrite Ef, Em, E. }
      cbn [snd]. unfold getCommonProgressions. cbn [rulesMajor rulesMinor].
      assert (F : findFunctionOfChord (store f (sort byWeightDescending row) (rulesMajor st))
                                      fromChord key
                  = findFunctionOfChord (rulesMajor st) fromChord key).
      { unfold findFunctionOfChord. now rewrite map_fst_store. }
      rewrite F, Ef, Em, (lookup_store f f _ row _ E), String.eqb_refl.
      cbn [snd]. f_equal.
      rewrite (sort_idempotent _ _ byWeightDescending_key).
      clear -E. induction (rulesMajor st) as [|[k' v'] t IH]; [discriminate|].
      cbn [lookup store] in *. destruct (k' =? f) eqn:Ek.
      * cbn [store]. now rewrite Ek.
      * cbn [store]. rewrite Ek. f_equal. now apply IH.
Qed.

(** ** Successor engine: the list returned *)

Lemma In_uniqueBy_string (x : string) (l : list string) :
  In x (uniqueBy String.eqb l) <-> In x l.
Proof.
  induction l as [|y t IH]; [reflexivity|].
  cbn [uniqueBy]. split.
  - intros [->|H]; [now left|].
    apply filter_In in H. right. now apply IH.
  - intros [->|H]; [now left|].
    destruct (String.eqb_spec y x) as [->|Hne]; [now left|].
    right. apply filter_In. split; [now apply IH|].
    destruct (String.eqb_spec y x); [contradiction|reflexivity].
Qed.

Lemma NoDup_uniqueBy_string (l : list string) : NoDup (uniqueBy String.eqb l).
Proof.
  induction l as [|y t IH]; [constructor|].
  cbn [uniqueBy]. constructor.
  - intro H. apply filter_In in H. destruct H as [_ H].
    now rewrite String.eqb_refl in H.
  - now apply NoDup_filter.
Qed.

(** X2.  The suggestions never repeat a chord, and allowing borrowed
    chords only adds to them; in a minor key the flag changes nothing. *)
Theorem suggestions_distinct_and_monotone
        (fromChord key : string) (st : RulesStore) :
  (forall allowBorrowed,
      NoDup (fst (getCommonProgressions fromChord key allowBorrowed st))) /\
  incl (fst (getCommonProgressions fromChord key false st))
       (fst (getCommonProgressions fromChord key true st)) /\
  (if endsWith key "m"
   then getCommonProgressions fromChord key false st
        = getCommonProgressions fromChord key true st
   else True).
Proof.
  split; [|split].
  - intro b. unfold getCommonProgressions.
    destruct (truthy _) as [f|]; [|constructor].
    destruct (lookup f _); [|constructor].
    apply NoDup_uniqueBy_string.
  - unfold getCommonProgressions.
    destruct (truthy _) as [f|]; [|apply incl_refl].
    destruct (lookup f _) as [row|]; [|apply incl_refl].
    cbn [fst]. intros x Hx.
    apply (proj1 (In_uniqueBy_string _ _)) in Hx. apply (proj2 (In_uniqueBy_string _ _)).
    apply in_flat_map in Hx. destruct Hx as [t [Ht Hx]].
    apply in_flat_map. exists t. split; [|exact Hx].
    destruct (endsWith key "m"); [exact Ht|].
    apply filter_In in Ht. apply filter_In. split; [tauto|reflexivity].
  - destruct (endsWith key "m") eqn:Em; [|exact I].
    unfold getCommonProgressions. rewrite Em. reflexivity.
Qed.

(** X3.  For a key that neither diatonic table lists, and that is not
    the name of a property the tables inherit as objects (constructor,
    toString and the like, under which the table lookup finds the
    inherited function), nothing is realised, no chord has a function,
    and the successor engine returns the empty list and leaves the
    tables alone. *)
Theorem unknown_key_yields_nothing
        (major : Rules) (st : RulesStore) (roman chordName key : string)
        (allowBorrowed : bool) :
  ~ In key objectPrototypeNames ->
  lookup key MAJOR_KEYS_DIATONIC = None ->
  lookup key MINOR_KEYS_DIATONIC = None ->
  realizeRomanNumeral roman key = None /\
  findFunctionOfChord major chordName key = None /\
  getCommonProgressions chordName key allowBorrowed st = ([], st).
Proof.
  intros _ HM Hm.
  assert (F : forall m, findFunctionOfChord m chordName key = None).
  { intro m. unfold findFunctionOfChord. rewrite HM, Hm.
    destruct (endsWith key "m"); reflexivity. }
  split; [|split].
  - unfold realizeRomanNumeral. rewrite HM, Hm.
    destruct (endsWith key "m"); reflexivity.
  - apply F.
  - unfold getCommonProgressions. now rewrite F.
Qed.

Lemma unknown_key_yields_nothing_witness :
  realizeRomanNumeral "V" "H" = None /\
  findFunctionOfChord PROGRESSION_RULES_MAJOR "C" "H" = None /\
  getCommonProgressions "C" "H" true loadedRules = ([], loadedRules).
Proof.
  apply (unknown_key_yields_nothing PROGRESSION_RULES_MAJOR loadedRules "V" "C" "H" true);
    [|reflexivity|reflexivity].
  intro H. repeat (destruct H as [H|H]; [discriminate H|]). exact H.
Defined.

(** ** Harmonic analyser: what a found function means *)

Lemma nonDiatonicFunction_sound (chordName key : string)
      (keyChords : list (string * string)) (allFunctions : list string) (r : string) :
  nonDiatonicFunction chordName key keyChords allFunctions = Some r ->
  exists c, realizeRomanNumeral r key = Some c /\
            (c = chordName \/
             exists pr pc, parseChordName c = Some pr /\
                           parseChordName chordName = Some pc /\
                           root pr = root pc /\
                           (quality pc = "" \/ quality pc = "7")).
Proof.
  induction allFunctions as [|func more IH]; cbn [nonDiatonicFunction]; [discriminate|].
  destruct (truthy (lookup func keyChords)); [exact IH|].
  destruct (realizeRomanNumeral func key) as [r0|] eqn:Er.
  - destruct (String.eqb_spec r0 chordName) as [->|_].
    + intros [= <-]. exists chordName. split; [exact Er|now left].
    + destruct (parseChordName r0) as [pr|] eqn:Epr; [|exact IH].
      destruct (parseChordName chordName) as [pc|] eqn:Epc; [|exact IH].
      destruct (String.eqb_spec (root pr) (root pc)) as [Hroot|_]; [|exact IH].
      cbn [andb].
      destruct (startsWith func "V/"); [|exact IH]. cbn [andb].
      destruct (String.eqb_spec (quality pc) "") as [Hq|_].
      * intros [= <-]. exists r0. split; [exact Er|]. right. exists pr, pc. auto.
      * destruct (String.eqb_spec (quality pc) "7") as [Hq|_]; [|exact IH].
        intros [= <-]. exists r0. split; [exact Er|]. right. exists pr, pc. auto.
  - cbn. exact IH.
Qed.

Ltac exactMatches H chordName :=
  repeat match type of H with
         | context [String.eqb ?a chordName] =>
             destruct (String.eqb_spec a chordName) as [?E|?E];
             [ subst chordName; injection H as <-;
               eexists; split; [vm_compute; reflexivity|left; reflexivity]
             | ]
         end.

(** X4.  Soundness of the analyser: a function it finds for a chord is
    realised, in that key, by the chord itself or by a chord on the same
    root of which the analysed chord is the plain major or dominant
    seventh form. *)
Theorem analysed_function_realises_same_root (major : Rules) (chordName key r : string) :
  findFunctionOfChord major chordName key = Some r ->
  exists c, realizeRomanNumeral r key = Some c /\
            (c = chordName \/
             exists pr pc, parseChordName c = Some pr /\
                           parseChordName chordName = Some pc /\
                           root pr = root pc /\
                           (quality pc = "" \/ quality pc = "7")).
Proof.
  unfold findFunctionOfChord.
  destruct (endsWith key "m") eqn:Em.
  - destruct (lookup key MINOR_KEYS_DIATONIC) as [row|] eqn:El; [|discriminate].
    apply lookup_In in El. cbv [MINOR_KEYS_DIATONIC In] in El.
    intro H.
    repeat (destruct El as [El|El];
            [ injection El as <- <-; cbn [firstRomanOf] in H; exactMatches H chordName;
              cbn [lookup String.eqb Ascii.eqb Bool.eqb truthy] in H
            | ]); try contradiction.
    all: match type of H with
         | context [parseChordName ?v] =>
             let pv := eval vm_compute in (parseChordName v) in
             change (parseChordName v) with pv in H
         end.
    all: destruct (parseChordName chordName) as [pc|] eqn:Epc; [|discriminate].
    all: cbn [root quality] in H.
    all: match type of H with
         | context [String.eqb ?a (root ?p)] =>
             destruct (String.eqb_spec a (root p)) as [Hroot|_]; [|discriminate]
         end.
    all: cbn [andb] in H.
    all: assert (Hq : quality pc = "" \/ quality pc = "7")
      by (destruct (String.eqb_spec (quality pc) ""); [now left|];
          destruct (String.eqb_spec (quality pc) "7"); [now right|discriminate]).
    all: assert (Hr : r = "V")
      by (destruct ((quality pc =? "") || (quality pc =? "7")); [now injection H|discriminate]).
    all: subst r.
    all: eexists; (split; [vm_compute; reflexivity|]).
    all: right; eexists; exists pc.
    all: (split; [vm_compute; reflexivity|]).
    all: (split; [reflexivity|]); (split; [exact Hroot|exact Hq]).
  - destruct (lookup key MAJOR_KEYS_DIATONIC) as [row|] eqn:El; [|discriminate].
    destruct (firstRomanOf chordName row) as [roman|] eqn:Ef.
    2: { apply nonDiatonicFunction_sound. }
    intros [= <-].
    apply lookup_In in El. cbv [MAJOR_KEYS_DIATONIC In] in El.
    repeat (destruct El as [El|El];
            [ injection El as <- <-; cbn [firstRomanOf] in Ef; exactMatches Ef chordName;
              discriminate Ef
            | ]); contradiction.
Qed.

Lemma analysed_function_realises_same_root_witness :
  exists c, realizeRomanNumeral "V/ii" "C" = Some c /\
            (c = "A7" \/
             exists pr pc, parseChordName c = Some pr /\
                           parseChordName "A7" = Some pc /\
                           root pr = root pc /\
                           (quality pc = "" \/ quality pc = "7")).
Proof.
  apply (analysed_function_realises_same_root PROGRESSION_RULES_MAJOR "A7" "C" "V/ii").
  reflexivity.
Defined.

(** ** Transposer: identity and round trip *)

Lemma indexOfFrom_at (xs : list string) (x : string) :
  forall i, 0 <= i ->
    let j := indexOfFrom i xs x in
    j = -1 \/ (i <= j < i + Z.of_nat (List.length xs) /\
               nth_error xs (Z.to_nat (j - i)) = Some x).
Proof.
  induction xs as [|y t IH]; intros i Hi; cbn [indexOfFrom]; [now left|].
  destruct (String.eqb_spec y x) as [->|_].
  - right. split; [cbn [List.length]; lia|]. now rewrite Z.sub_diag.
  - destruct (IH (i + 1) ltac:(lia)) as [H|[H1 H2]]; [now left|].
    right. split; [cbn [List.length]; lia|].
    replace (Z.to_nat (indexOfFrom (i + 1) t x - i))
      with (S (Z.to_nat (indexOfFrom (i + 1) t x - (i + 1)))) by lia.
    exact H2.
Qed.

Lemma indexOf_NOTES (r : string) :
  indexOf NOTES r = -1 \/
  (0 <= indexOf NOTES r < 12 /\ at_ NOTES (indexOf NOTES r) = Some r).
Proof.
  unfold indexOf.
  destruct (indexOfFrom_at NOTES r 0 ltac:(lia)) as [H|[H1 H2]]; [now left|].
  right. change (Z.of_nat (List.length NOTES)) with 12 in H1.
  split; [lia|]. unfold at_.
  destruct (Z.ltb_spec (indexOfFrom 0 NOTES r) 0); [lia|].
  now rewrite Z.sub_0_r in H2.
Qed.

Lemma parseChordName_concat (s : string) (p : ChordInfo) :
  parseChordName s = Some p -> root p ++ quality p = s.
Proof.
  unfold parseChordName. destruct s as [|c t]; [discriminate|].
  destruct (isAtoG c); [|discriminate].
  destruct t as [|d t'].
  - cbn. intros [= <-]. reflexivity.
  - destruct (isAccidental d); destruct (hasLineTerminator _); try discriminate;
      intros [= <-]; reflexivity.
Qed.

Lemma fallbackTranspose_same_tonic (tonic chord : string) :
  fallbackTranspose tonic tonic chord = chord.
Proof.
  unfold fallbackTranspose.
  destruct (parseChordName tonic) as [kp|]; [|reflexivity].
  destruct (indexOf NOTES (root kp) =? -1)%Z; [reflexivity|]. cbn [orb].
  destruct (parseChordName chord) as [p|] eqn:Ep; [|reflexivity].
  destruct (indexOf_NOTES (root p)) as [H|[H1 H2]].
  - rewrite H. reflexivity.
  - destruct (Z.eqb_spec (indexOf NOTES (root p)) (-1)); [lia|].
    replace (indexOf NOTES (root p) + (indexOf NOTES (root kp) - indexOf NOTES (root kp)) + 12)
      with (indexOf NOTES (root p) + 1 * 12) by lia.
    rewrite Z.rem_add by lia. rewrite Z.rem_small by lia.
    rewrite H2. now apply parseChordName_concat.
Qed.

(** X5.  Transposing a sequence from a key to the same key returns the
    sequence, whatever its chords are. *)
Theorem transpose_to_same_key_is_identity
        (major : Rules) (sequence : list string) (key : string) :
  transposeChordSequence major sequence key key = sequence.
Proof.
  unfold transposeChordSequence. rewrite Bool.eqb_reflx.
  induction sequence as [|c t IH]; [reflexivity|].
  cbn [map]. now rewrite fallbackTranspose_same_tonic, IH.
Qed.

Lemma hasLineTerminator_tail (c : ascii) (t : string) :
  hasLineTerminator (String c t) = false -> hasLineTerminator t = false.
Proof.
  cbn [hasLineTerminator]. intro H.
  apply Bool.orb_false_iff in H. tauto.
Qed.

Lemma parseChordName_quality_clean (s : string) (p : ChordInfo) :
  parseChordName s = Some p -> hasLineTerminator (quality p) = false.
Proof.
  unfold parseChordName. destruct s as [|c t]; [discriminate|].
  destruct (isAtoG c); [|discriminate].
  destruct t as [|d t'].
  - cbn. intros [= <-]. reflexivity.
  - destruct (isAccidental d);
      destruct (hasLineTerminator (String d t')) eqn:E; try discriminate;
      intros [= <-]; cbn [quality]; [now apply hasLineTerminator_tail in E|exact E].
Qed.

Lemma parse_note_with_quality (j : Z) (q : string) :
  0 <= j < 12 ->
  hasLineTerminator q = false ->
  Reference.leadingAccidental q = false ->
  exists n, at_ NOTES j = Some n /\
            indexOf NOTES n = j /\
            parseChordName (n ++ q) = Some (mkChordInfo n q).
Proof.
  intros Hj Hq Ha.
  assert (C : j = 0 \/ j = 1 \/ j = 2 \/ j = 3 \/ j = 4 \/ j = 5 \/ j = 6 \/
              j = 7 \/ j = 8 \/ j = 9 \/ j = 10 \/ j = 11) by lia.
  repeat (destruct C as [->|C]); try subst j.
  all: eexists; split; [reflexivity|]; split; [reflexivity|].
  all: unfold parseChordName; cbn [append isAtoG nat_of_ascii].
  all: destruct q as [|d q']; [reflexivity|].
  all: cbn [Reference.leadingAccidental] in Ha.
  all: try (rewrite Ha, Hq; reflexivity).
  all: cbn [isAccidental Ascii.eqb Bool.eqb orb].
  all: cbn [hasLineTerminator Ascii.eqb Bool.eqb orb] in *; rewrite Hq; reflexivity.
Qed.

Lemma fallbackTranspose_round_trip (t1 t2 chord : string) (p : ChordInfo) :
  parseChordName chord = Some p ->
  Reference.leadingAccidental (quality p) = false ->
  fallbackTranspose t2 t1 (fallbackTranspose t1 t2 chord) = chord.
Proof.
  intros Hp Ha.
  unfold fallbackTranspose at 2.
  destruct (parseChordName t1) as [k1|] eqn:E1.
  2: { unfold fallbackTranspose. rewrite E1. destruct (parseChordName t2); reflexivity. }
  destruct (parseChordName t2) as [k2|] eqn:E2.
  2: { unfold fallbackTranspose. now rewrite E2. }
  destruct (indexOf_NOTES (root k1)) as [H1|[B1 _]].
  { rewrite H1, Z.eqb_refl. cbn [orb]. unfold fallbackTranspose.
    rewrite E2, E1, H1, Z.eqb_refl, Bool.orb_true_r. reflexivity. }
  destruct (indexOf_NOTES (root k2)) as [H2|[B2 _]].
  { rewrite H2, Z.eqb_refl, Bool.orb_true_r. unfold fallbackTranspose.
    rewrite E2, E1, H2, Z.eqb_refl. reflexivity. }
  destruct (Z.eqb_spec (indexOf NOTES (root k1)) (-1)); [lia|].
  destruct (Z.eqb_spec (indexOf NOTES (root k2)) (-1)); [lia|].
  cbn [orb]. rewrite Hp.
  destruct (indexOf_NOTES (root p)) as [Hr|[Br Hat]].
  { rewrite Hr, Z.eqb_refl. unfold fallbackTranspose.
    rewrite E2, E1, Hp, Hr, Z.eqb_refl.
    destruct (_ || _); reflexivity. }
  destruct (Z.eqb_spec (indexOf NOTES (root p)) (-1)); [lia|].
  set (i1 := indexOf NOTES (root k1)) in *.
  set (i2 := indexOf NOTES (root k2)) in *.
  set (ri := indexOf NOTES (root p)) in *.
  set (j := Z.rem (ri + (i2 - i1) + 12) 12).
  assert (Bj : 0 <= j < 12).
  { subst j. rewrite Z.rem_mod_nonneg by lia. apply Z.mod_pos_bound. lia. }
  destruct (parse_note_with_quality j (quality p) Bj
              (parseChordName_quality_clean _ _ Hp) Ha) as [nt [Hn [Hi Hpn]]].
  rewrite Hn. unfold fallbackTranspose. rewrite E2, E1.
  fold i1 i2.
  destruct (Z.eqb_spec i2 (-1)); [lia|]. destruct (Z.eqb_spec i1 (-1)); [lia|].
  cbn [orb]. rewrite Hpn. cbn [root quality]. rewrite Hi.
  destruct (Z.eqb_spec j (-1)); [lia|].
  assert (Hback : Z.rem (j + (i1 - i2) + 12) 12 = ri).
  { subst j. rewrite !Z.rem_mod_nonneg by (try lia; rewrite Z.rem_mod_nonneg by lia;
      pose proof (Z.mod_pos_bound (ri + (i2 - i1) + 12) 12 ltac:(lia)); lia).
    pose proof (Z.mod_pos_bound (ri + (i2 - i1) + 12) 12 ltac:(lia)).
    pose proof (Z.div_mod (ri + (i2 - i1) + 12) 12 ltac:(lia)).
    set (a := (ri + (i2 - i1) + 12) mod 12) in *.
    set (k := (ri + (i2 - i1) + 12) / 12) in *.
    replace (a + (i1 - i2) + 12) with (ri + (2 - k) * 12) by lia.
    rewrite Z.mod_add by lia. apply Z.mod_small. lia. }
  rewrite Hback, Hat. now apply parseChordName_concat.
Qed.

(** X6.  Between two keys of one mode, transposing a chord and
    transposing the result back restores the chord, provided its quality
    does not begin with a sharp or flat sign (a sign there would be read
    as part of a one-letter root on the way back). *)
Theorem transpose_there_and_back
        (major : Rules) (K1 K2 chord : string) (p : ChordInfo) :
  endsWith K1 "m" = endsWith K2 "m" ->
  parseChordName chord = Some p ->
  Reference.leadingAccidental (quality p) = false ->
  transposeChordSequence major (transposeChordSequence major [chord] K1 K2) K2 K1
  = [chord].
Proof.
  intros Hm Hp Ha. unfold transposeChordSequence.
  rewrite Hm, !Bool.eqb_reflx. cbn [map].
  now rewrite (fallbackTranspose_round_trip _ _ chord p Hp Ha).
Qed.

Lemma transpose_there_and_back_witness :
  transposeChordSequence PROGRESSION_RULES_MAJOR
    (transposeChordSequence PROGRESSION_RULES_MAJOR ["F#m7"] "C" "D") "D" "C"
  = ["F#m7"].
Proof.
  apply (transpose_there_and_back PROGRESSION_RULES_MAJOR "C" "D" "F#m7"
           (mkChordInfo "F#" "m7")); reflexivity.
Defined.

(** ** Secondary dominants and note arithmetic *)

Lemma In_zrange (lo : Z) (n : nat) (x : Z) :
  lo <= x < lo + Z.of_nat n -> In x (Reference.zrange lo n).
Proof.
  intro H. unfold Reference.zrange. apply in_map_iff.
  exists (Z.to_nat (x - lo)). split; [lia|].
  apply in_seq. lia.
Qed.

(** X7.  In every major key of the table and for every diatonic target,
    the secondary dominant [V/x] is realised as the note name of [NOTES]
    seven semitones above the target's root (a plain major triad); it is
    not realised exactly when [NOTES] does not list the target's root,
    which is the flat-spelled targets of the keys Ab, Eb, Bb and F. *)
Theorem secondary_dominant_a_fifth_above (K x : string) :
  In K (map fst MAJOR_KEYS_DIATONIC) ->
  In x (Spec.diatonicRomans K) ->
  exists target tp,
    realizeRomanNumeral x K = Some target /\
    parseChordName target = Some tp /\
    match realizeRomanNumeral ("V/" ++ x) K with
    | Some c =>
        indexOf NOTES (root tp) <> -1 /\
        indexOf NOTES c = (indexOf NOTES (root tp) + 7) mod 12
    | None => indexOf NOTES (root tp) = -1
    end.
Proof.
  intros HK Hx.
  assert (H : forallb (fun K => forallb (Reference.secondaryDominantCheck K)
                                        (Spec.diatonicRomans K))
                      (map fst MAJOR_KEYS_DIATONIC) = true) by (vm_compute; reflexivity).
  rewrite forallb_forall in H. specialize (H K HK).
  rewrite forallb_forall in H. specialize (H x Hx).
  unfold Reference.secondaryDominantCheck in H.
  destruct (realizeRomanNumeral x K) as [target|]; [|discriminate].
  destruct (parseChordName target) as [tp|] eqn:Etp; [|discriminate].
  exists target, tp. split; [reflexivity|]. split; [exact Etp|].
  destruct (realizeRomanNumeral ("V/" ++ x) K) as [c|].
  - apply andb_prop in H. destruct H as [H1 H2].
    apply Z.eqb_eq in H2.
    destruct (Z.eqb_spec (indexOf NOTES (root tp)) (-1)); [discriminate|]. tauto.
  - now apply Z.eqb_eq in H.
Qed.

Lemma secondary_dominant_a_fifth_above_witness :
  exists target tp,
    realizeRomanNumeral "V" "Eb" = Some target /\
    parseChordName target = Some tp /\
    match realizeRomanNumeral ("V/" ++ "V") "Eb" with
    | Some c =>
        indexOf NOTES (root tp) <> -1 /\
        indexOf NOTES c = (indexOf NOTES (root tp) + 7) mod 12
    | None => indexOf NOTES (root tp) = -1
    end.
Proof.
  apply (secondary_dominant_a_fifth_above "Eb" "V"); vm_compute; tauto.
Defined.

(** X8.  On every open string of the two tunings and for frets 0 to 24,
    the resolver computes a note name, one semitone higher per fret, and
    the serialiser reads that name as the same MIDI number. *)
Theorem fret_raises_pitch (openString : string) (f : Z) :
  In openString (List.app GUITAR_TUNING UKULELE_TUNING) ->
  0 <= f <= 24 ->
  exists name,
    getNoteFromFret openString f = NoteName name /\
    noteToMidi name = noteToMidi openString + f /\
    Midi.noteToMidi (getNoteFromFret openString f)
    = Ok (Some (noteToMidi openString + f)).
Proof.
  intros Ho Hf.
  assert (H : forallb (fun o => forallb (Reference.fretCheck o) (Reference.zrange 0 25))
                      (List.app GUITAR_TUNING UKULELE_TUNING) = true)
    by (vm_compute; reflexivity).
  rewrite forallb_forall in H. specialize (H openString Ho).
  rewrite forallb_forall in H. specialize (H f (In_zrange 0 25 f ltac:(lia))).
  unfold Reference.fretCheck in H.
  destruct (getNoteFromFret openString f) as [name|]; [|discriminate].
  apply andb_prop in H. destruct H as [H1 H2].
  apply Z.eqb_eq in H1. exists name. split; [reflexivity|]. split; [exact H1|].
  destruct (Midi.noteToMidi (NoteName name)) as [[m|]|e]; try discriminate.
  apply Z.eqb_eq in H2. now subst.
Qed.

Lemma fret_raises_pitch_witness :
  exists name,
    getNoteFromFret "A2" 3 = NoteName name /\
    noteToMidi name = noteToMidi "A2" + 3 /\
    Midi.noteToMidi (getNoteFromFret "A2" 3) = Ok (Some (noteToMidi "A2" + 3)).
Proof.
  apply (fret_raises_pitch "A2" 3); [simpl; tauto|lia].
Defined.

(** X9.  For the MIDI numbers 12 to 131 (octaves 0 to 9) [midiToNote]
    prints a name that both [noteToMidi] functions read back as the same
    number. *)
Theorem midi_note_names_round_trip (m : Z) :
  12 <= m <= 131 ->
  exists name,
    midiToNote m = NoteName name /\
    noteToMidi name = m /\
    Midi.noteToMidi (midiToNote m) = Ok (Some m).
Proof.
  intro Hm.
  assert (H : forallb Reference.noteNameCheck (Reference.zrange 12 120) = true)
    by (vm_compute; reflexivity).
  rewrite forallb_forall in H. specialize (H m (In_zrange 12 120 m ltac:(lia))).
  unfold Reference.noteNameCheck in H.
  destruct (midiToNote m) as [name|]; [|discriminate].
  apply andb_prop in H. destruct H as [H1 H2].
  apply Z.eqb_eq in H1. exists name. split; [reflexivity|]. split; [exact H1|].
  destruct (Midi.noteToMidi (NoteName name)) as [[m'|]|e]; try discriminate.
  apply Z.eqb_eq in H2. now subst.
Qed.

Lemma midi_note_names_round_trip_witness :
  exists name,
    midiToNote 60 = NoteName name /\
    noteToMidi name = 60 /\
    Midi.noteToMidi (midiToNote 60) = Ok (Some 60).
Proof. apply (midi_note_names_round_trip 60). lia. Defined.

(** From octave 10 on the serialiser, which reads one octave digit, no
    longer understands the name; below C-1 there is no name to read. *)
Example octave_ten_is_dropped_by_the_serialiser :
  midiToNote 132 = NoteName "C10" /\ noteToMidi "C10" = 132 /\
  Midi.noteToMidi (NoteName "C10") = Ok None /\
  midiToNote (-1) = NaN /\
  Midi.noteToMidi NaN = Throw "TypeError: note.match is not a function".
Proof. repeat split. Qed.

(** ** Voicing resolver *)

Lemma soundedStrings_cells (tuning : list string) (fs : list Fret) :
  forall (k : nat) (cells : list (option ChordVoicing)),
    mapM (fun cell : Fret * Z =>
            let (f, stringIndex) := cell in
            match f with
            | X => Ok None
            | Fr n =>
                match at_ tuning stringIndex with
                | None => Throw "TypeError: note is undefined"
                | Some openString =>
                    Ok (Some (mkVoicing (getNoteFromFret openString n) stringIndex))
                end
            end)
         (mapiFrom (Z.of_nat k) (fun f i => (f, i)) fs) = Ok cells ->
    let notes := flat_map (fun c : option ChordVoicing =>
                             match c with Some v => [v] | None => [] end) cells in
    Forall (fun v => Z.of_nat k <= stringIndex v /\
                     exists openString n,
                       at_ tuning (stringIndex v) = Some openString /\
                       In (Fr n) fs /\
                       note v = getNoteFromFret openString n) notes /\
    StronglySorted Z.lt (map stringIndex notes).
Proof.
  induction fs as [|f fs IH]; intros k cells H.
  - cbn in H. injection H as <-. cbn. split; constructor.
  - cbn [mapiFrom mapM] in H.
    replace (Z.of_nat k + 1) with (Z.of_nat (S k)) in H by lia.
    destruct f as [|n].
    + cbn [bind] in H.
      destruct (mapM _ _) as [cells'|e] eqn:E; [|discriminate].
      cbn [bind] in H. injection H as <-. cbn [flat_map List.app].
      destruct (IH (S k) cells' E) as [F S].
      split; [|exact S].
      eapply Forall_impl; [|exact F]. cbn beta.
      intros v [Hk [o [m [Ho [Hin Hn]]]]]. split; [lia|].
      exists o, m. repeat split; [exact Ho|now right|exact Hn].
    + destruct (at_ tuning (Z.of_nat k)) as [o|] eqn:Eo; [|discriminate].
      cbn [bind] in H.
      destruct (mapM _ _) as [cells'|e] eqn:E; [|discriminate].
      cbn [bind] in H. injection H as <-. cbn [flat_map List.app map].
      destruct (IH (S k) cells' E) as [F S].
      split.
      * constructor.
        -- cbn [stringIndex note]. split; [lia|].
           exists o, n. repeat split; [exact Eo|now left].
        -- eapply Forall_impl; [|exact F]. cbn beta.
           intros v [Hk [o' [m [Ho [Hin Hn]]]]]. split; [lia|].
           exists o', m. repeat split; [exact Ho|now right|exact Hn].
      * constructor; [exact S|].
        apply Forall_map. eapply Forall_impl; [|exact F]. cbn beta.
        intros v [Hk _]. cbn [stringIndex]. lia.
Qed.

(** X10.  The notes the resolver returns are listed by strictly
    increasing string index, and each is the note of some fret on the
    open string of its index: no string sounds twice and none is outside
    the tuning. *)
Theorem resolved_voicing_strings
        (G U : ChordDB) (chordName instrument : string) (idx : Z)
        (voicing : list ChordVoicing) :
  getVoicingForChord G U chordName instrument idx = Ok voicing ->
  StronglySorted Z.lt (map stringIndex voicing) /\
  Forall (fun v =>
            exists openString n,
              at_ (if instrument =? "guitar" then GUITAR_TUNING else UKULELE_TUNING)
                  (stringIndex v) = Some openString /\
              note v = getNoteFromFret openString n) voicing.
Proof.
  unfold getVoicingForChord.
  set (tuning := if instrument =? "guitar" then GUITAR_TUNING else UKULELE_TUNING).
  assert (E0 : forall v : list ChordVoicing,
             Ok ([] : list ChordVoicing) = Ok v ->
             StronglySorted Z.lt (map stringIndex v) /\
             Forall (fun v => exists openString n,
                         at_ tuning (stringIndex v) = Some openString /\
                         note v = getNoteFromFret openString n) v).
  { intros v [= <-]. split; constructor. }
  destruct (lookup chordName _) as [[|first others]|]; try apply E0.
  unfold soundedStrings, mapi. intro H.
  destruct (mapM _ _) as [cells|e] eqn:E; [|discriminate].
  cbn [bind] in H. injection H as <-.
  destruct (soundedStrings_cells tuning _ 0 cells E) as [F S].
  split; [exact S|].
  eapply Forall_impl; [|exact F]. cbn beta.
  intros v [_ [o [n [Ho [_ Hn]]]]]. exists o, n. tauto.
Qed.

(** X11.  A voicing index outside the chord's list of voicings (negative
    or past its end) resolves like index 0. *)
Theorem resolver_falls_back_to_first_voicing
        (G U : ChordDB) (chordName instrument : string) (idx : Z)
        (voicings : list ChordVoicingData) :
  lookup chordName (if instrument =? "guitar" then G else U) = Some voicings ->
  idx < 0 \/ Z.of_nat (List.length voicings) <= idx ->
  getVoicingForChord G U chordName instrument idx
  = getVoicingForChord G U chordName instrument 0.
Proof.
  intros Hl Hi. unfold getVoicingForChord. cbv zeta.
  destruct (instrument =? "guitar"); rewrite Hl.
  all: destruct voicings as [|first others]; [reflexivity|].
  all: assert (E : at_ (first :: others) idx = None)
    by (unfold at_; destruct (Z.ltb_spec idx 0); [reflexivity|];
        apply nth_error_None; destruct Hi; lia).
  all: rewrite E; reflexivity.
Qed.

Lemma resolved_voicing_strings_witness :
  StronglySorted Z.lt
    (map stringIndex [mkVoicing "E4" 0; mkVoicing "C4" 1; mkVoicing "G3" 2;
                      mkVoicing "E3" 3; mkVoicing "C3" 4]) /\
  Forall (fun v =>
            exists openString n,
              at_ (if "guitar" =? "guitar" then GUITAR_TUNING else UKULELE_TUNING)
                  (stringIndex v) = Some openString /\
              note v = getNoteFromFret openString n)
         [mkVoicing "E4" 0; mkVoicing "C4" 1; mkVoicing "G3" 2;
          mkVoicing "E3" 3; mkVoicing "C3" 4].
Proof.
  apply (resolved_voicing_strings openC [] "C" "guitar" 0). reflexivity.
Defined.

Lemma resolver_falls_back_to_first_voicing_witness :
  getVoicingForChord openC [] "C" "guitar" 7 = getVoicingForChord openC [] "C" "guitar" 0.
Proof.
  apply (resolver_falls_back_to_first_voicing openC [] "C" "guitar" 7
           [mkVoicingData [Fr 0; Fr 1; Fr 0; Fr 2; Fr 3; X] []]).
  - reflexivity.
  - right. simpl. lia.
Defined.

(** ** MIDI serialiser: variable-length quantities *)

Lemma land_low_high (a lo k : Z) :
  0 <= k -> 0 <= lo < 2 ^ k -> Z.land (a * 2 ^ k) lo = 0.
Proof.
  intros Hk Hlo.
  rewrite <- (Z.mod_small lo (2 ^ k)) by lia.
  rewrite <- (Z.land_ones lo k) by lia.
  rewrite (Z.land_comm lo), Z.land_assoc, Z.land_ones by lia.
  rewrite Z.mod_mul by lia. apply Z.land_0_l.
Qed.

Lemma lor_low_high (a lo k : Z) :
  0 <= k -> 0 <= lo < 2 ^ k -> Z.lor (a * 2 ^ k) lo = a * 2 ^ k + lo.
Proof.
  intros Hk Hlo.
  pose proof (Z.add_lor_land (a * 2 ^ k) lo) as H.
  rewrite (land_low_high a lo k Hk Hlo) in H. lia.
Qed.

Lemma land_pow2 (x k : Z) :
  0 <= k -> Z.land x (2 ^ k) = if Z.testbit x k then 2 ^ k else 0.
Proof.
  intro Hk. apply Z.bits_inj'. intros n Hn.
  rewrite Z.land_spec, Z.pow2_bits_eqb by lia.
  destruct (Z.eqb_spec k n) as [->|Hne].
  - rewrite Bool.andb_true_r. destruct (Z.testbit x n) eqn:E.
    + now rewrite Z.pow2_bits_true.
    + now rewrite Z.bits_0.
  - rewrite Bool.andb_false_r. destruct (Z.testbit x k).
    + now rewrite Z.pow2_bits_false.
    + now rewrite Z.bits_0.
Qed.

Lemma band_127 (x : Z) : 0 <= x < 2147483648 -> band x 127 = x mod 128.
Proof.
  intro H. unfold band. rewrite toInt32_small by lia.
  change (toInt32 127) with (Z.ones 7). now rewrite Z.land_ones by lia.
Qed.

Lemma band_255 (x : Z) : 0 <= x < 2147483648 -> band x 255 = x mod 256.
Proof.
  intro H. unfold band. rewrite toInt32_small by lia.
  change (toInt32 255) with (Z.ones 8). now rewrite Z.land_ones by lia.
Qed.

Lemma band_128 (x : Z) :
  0 <= x < 2147483648 -> (band x 128 =? 0)%Z = ((x / 128) mod 2 =? 0)%Z.
Proof.
  intro H. unfold band. rewrite toInt32_small by lia.
  change (toInt32 128) with (2 ^ 7). rewrite land_pow2 by lia.
  pose proof (Z.testbit_spec' x 7 ltac:(lia)) as T.
  change (2 ^ 7) with 128 in *.
  destruct (Z.testbit x 7); cbn [Z.b2z] in T; rewrite <- T; reflexivity.
Qed.

Lemma shl_8 (b : Z) : 0 <= b < 8388608 -> shl b 8 = b * 256.
Proof.
  intro H. unfold shl. change (8 mod 32) with 8.
  rewrite (toInt32_small b) by lia. rewrite Z.shiftl_mul_pow2 by lia.
  change (2 ^ 8) with 256. apply toInt32_small. lia.
Qed.

Lemma shr_8 (x : Z) : 0 <= x < 2147483648 -> shr x 8 = x / 256.
Proof.
  intro H. unfold shr. change (8 mod 32) with 8.
  rewrite toInt32_small by lia. now rewrite Z.shiftr_div_pow2 by lia.
Qed.

Lemma bor_group (a g : Z) :
  0 <= a < 8388608 -> 0 <= g < 128 ->
  bor (a * 256) (bor g 128) = a * 256 + (g + 128).
Proof.
  intros Ha Hg.
  assert (E : bor g 128 = g + 128).
  { unfold bor. rewrite !toInt32_small by lia.
    rewrite Z.lor_comm. change 128 with (1 * 2 ^ 7).
    rewrite lor_low_high by (change (2 ^ 7) with 128; lia). lia. }
  rewrite E. unfold bor. rewrite !toInt32_small by lia.
  change 256 with (2 ^ 8). apply lor_low_high; [lia|]. change (2 ^ 8) with 256. lia.
Qed.

Lemma emitBytes_flagged (e : nat) (a g : Z) :
  0 <= a < 8388608 -> 0 <= g < 128 ->
  Midi.emitBytes (S e) (a * 256 + (g + 128))
  = option_map (cons (g + 128)) (Midi.emitBytes e a).
Proof.
  intros Ha Hg. cbn [Midi.emitBytes].
  rewrite band_128, band_255, shr_8 by lia.
  replace ((a * 256 + (g + 128)) / 128) with (a * 2 + 1)
    by (apply Z.div_unique with (r := g); lia).
  replace ((a * 2 + 1) mod 2) with 1
    by (apply Z.mod_unique with (q := a); lia).
  replace ((a * 256 + (g + 128)) mod 256) with (g + 128)
    by (apply Z.mod_unique with (q := a); lia).
  replace ((a * 256 + (g + 128)) / 256) with a
    by (apply Z.div_unique with (r := g + 128); lia).
  reflexivity.
Qed.

Lemma pack_then_emit (m : nat) :
  forall (n e j : nat) (v buf : Z) (tail : list Z),
    (m <= n)%nat -> (m + j <= 3)%nat ->
    0 <= v < 128 * 128 ^ Z.of_nat m ->
    0 <= buf < 128 * 256 ^ Z.of_nat j ->
    Midi.emitBytes e buf = Some tail ->
    Midi.emitBytes (m + e) (Midi.packGroups n v buf)
    = Some (List.app (Reference.highGroups m (v / 128)) tail).
Proof.
  induction m as [|m IH]; intros n e j v buf tail Hn Hj Hv Hbuf Ht.
  - change (128 ^ Z.of_nat 0) with 1 in Hv.
    assert (E : Midi.packGroups n v buf = buf).
    { destruct n; [reflexivity|]. rewrite packGroups_step, shr7_div, toInt32_small by lia.
      rewrite Z.div_small by lia. reflexivity. }
    rewrite E. cbn [Reference.highGroups List.app Nat.add]. exact Ht.
  - destruct n as [|n]; [lia|].
    assert (P4 : 128 ^ Z.of_nat m <= 128 ^ 2)
      by (apply Z.pow_le_mono_r; lia).
    assert (P0 : 0 < 128 ^ Z.of_nat m) by (apply Z.pow_pos_nonneg; lia).
    assert (Q0 : 0 < 256 ^ Z.of_nat j) by (apply Z.pow_pos_nonneg; lia).
    assert (Q4 : 256 ^ Z.of_nat j <= 256 ^ 2)
      by (apply Z.pow_le_mono_r; lia).
    change (128 ^ 2) with 16384 in P4. change (256 ^ 2) with 65536 in Q4.
    rewrite Nat2Z.inj_succ, Z.pow_succ_r in Hv by lia.
    rewrite packGroups_step, shr7_div, toInt32_small by lia.
    cbn [Reference.highGroups].
    assert (V1 : 0 <= v / 128 < 128 * 128 ^ Z.of_nat m).
    { split; [apply Z.div_pos; lia|apply Z.div_lt_upper_bound; lia]. }
    destruct (Z.ltb_spec 0 (v / 128)) as [Hpos|Hz].
    + rewrite band_127, shl_8 by lia.
      pose proof (Z.mod_pos_bound (v / 128) 128 ltac:(lia)) as Hg.
      rewrite bor_group by lia.
      rewrite <- app_assoc. cbn [List.app].
      replace (S m + e)%nat with (m + S e)%nat by lia.
      apply (IH n (S e) (S j)); try lia.
      * rewrite Nat2Z.inj_succ, Z.pow_succ_r by lia. lia.
      * rewrite emitBytes_flagged by lia. now rewrite Ht.
    + cbn [List.app]. now apply emitBytes_fuel with (k := S m) in Ht;
        rewrite Nat.add_comm in Ht.
Qed.

Lemma vlqValue_snoc (l : list Z) (b : Z) :
  Reference.vlqValue (List.app l [b]) = Reference.vlqValue l * 128 + b mod 128.
Proof. unfold Reference.vlqValue. now rewrite fold_left_app. Qed.

Lemma highGroups_value (m : nat) :
  forall x, 0 <= x < 128 ^ Z.of_nat m -> Reference.vlqValue (Reference.highGroups m x) = x.
Proof.
  induction m as [|m IH]; intros x Hx.
  - change (128 ^ Z.of_nat 0) with 1 in Hx. cbn. lia.
  - cbn [Reference.highGroups].
    destruct (Z.ltb_spec 0 x); [|cbn; lia].
    rewrite vlqValue_snoc, IH.
    + rewrite <- Zplus_mod_idemp_r, Z.mod_same, Z.add_0_r, Z.mod_mod by lia.
      pose proof (Z.div_mod x 128 ltac:(lia)). lia.
    + rewrite Nat2Z.inj_succ, Z.pow_succ_r in Hx by lia.
      split; [apply Z.div_pos; lia|apply Z.div_lt_upper_bound; lia].
Qed.

Lemma highGroups_shape (m : nat) :
  forall x, (List.length (Reference.highGroups m x) <= m)%nat /\
            Forall (fun b => 128 <= b < 256) (Reference.highGroups m x).
Proof.
  induction m as [|m IH]; intro x; cbn [Reference.highGroups].
  - split; [cbn; lia|constructor].
  - destruct (0 <? x)%Z; [|split; [cbn; lia|constructor]].
    destruct (IH (x / 128)) as [L F]. split.
    + rewrite length_app. cbn [List.length]. lia.
    + apply Forall_app. split; [exact F|].
      constructor; [|constructor].
      pose proof (Z.mod_pos_bound x 128 ltac:(lia)). lia.
Qed.

(** What [writeVarInt] writes for a value below 2^28. *)
Lemma writeVarInt_groups (v : Z) :
  0 <= v < 268435456 ->
  Midi.writeVarInt v = Some (List.app (Reference.highGroups 3 (v / 128)) [v mod 128]).
Proof.
  intro Hv.
  pose proof (Z.mod_pos_bound v 128 ltac:(lia)) as Hlow.
  unfold Midi.writeVarInt. rewrite band_127 by lia.
  apply (pack_then_emit 3 8 5 0).
  - lia.
  - lia.
  - change (128 * 128 ^ Z.of_nat 3) with 268435456. lia.
  - change (128 * 256 ^ Z.of_nat 0) with 128. lia.
  - cbn [Midi.emitBytes]. rewrite band_128, band_255 by lia.
    rewrite (Z.div_small (v mod 128)) by lia.
    rewrite (Z.mod_small (v mod 128) 256) by lia. reflexivity.
Qed.

(** X12.  For every value below 2^28 [writeVarInt] returns, and what it
    writes is the MIDI variable-length quantity of the value: one to four
    bytes, bit 7 set on all but the last, and the seven-bit groups read
    most significant first give the value back. *)
Theorem writeVarInt_is_a_variable_length_quantity (v : Z) :
  0 <= v < 268435456 ->
  exists bytes,
    Midi.writeVarInt v = Some bytes /\
    Reference.vlqValue bytes = v /\
    (1 <= List.length bytes <= 4)%nat /\
    Forall (fun b => 128 <= b < 256) (removelast bytes) /\
    0 <= last bytes 0 < 128.
Proof.
  intro Hv.
  pose proof (Z.mod_pos_bound v 128 ltac:(lia)) as Hlow.
  pose proof (writeVarInt_groups v Hv) as E.
  exists (List.app (Reference.highGroups 3 (v / 128)) [v mod 128]).
  destruct (highGroups_shape 3 (v / 128)) as [L F].
  split; [exact E|]. split; [|split; [|split]].
  - rewrite vlqValue_snoc, Z.mod_mod by lia.
    rewrite highGroups_value.
    + pose proof (Z.div_mod v 128 ltac:(lia)). lia.
    + split; [apply Z.div_pos; lia|].
      apply Z.div_lt_upper_bound; [lia|].
      change (128 ^ Z.of_nat 3) with 2097152. lia.
  - rewrite length_app. cbn [List.length]. lia.
  - now rewrite removelast_last.
  - now rewrite last_last.
Qed.

Lemma writeVarInt_is_a_variable_length_quantity_witness :
  exists bytes,
    Midi.writeVarInt 1920 = Some bytes /\
    Reference.vlqValue bytes = 1920 /\
    (1 <= List.length bytes <= 4)%nat /\
    Forall (fun b => 128 <= b < 256) (removelast bytes) /\
    0 <= last bytes 0 < 128.
Proof. apply (writeVarInt_is_a_variable_length_quantity 1920). lia. Defined.

(** ** MIDI serialiser: big-endian integers *)

Lemma band_255_any (x : Z) : band x 255 = toInt32 x mod 256.
Proof.
  unfold band. change (toInt32 255) with (Z.ones 8). now rewrite Z.land_ones by lia.
Qed.

Lemma shr_div (v k : Z) : 0 <= k < 32 -> shr v k = toInt32 v / 2 ^ k.
Proof.
  intro Hk. unfold shr. rewrite Z.mod_small by lia.
  now rewrite Z.shiftr_div_pow2 by lia.
Qed.

Lemma toInt32_idem (x : Z) : toInt32 (toInt32 x) = toInt32 x.
Proof.
  pose proof (toInt32_range x) as H. unfold toInt32 at 1.
  rewrite Z.mod_small by lia. lia.
Qed.

Lemma toInt32_small_signed (x : Z) :
  - 2147483648 <= x < 2147483648 -> toInt32 x = x.
Proof. intro H. unfold toInt32. rewrite Z.mod_small by lia. lia. Qed.

Lemma toInt32_cases (v : Z) :
  0 <= v < 4294967296 ->
  toInt32 v = v \/ toInt32 v = v - 4294967296.
Proof.
  intro H. unfold toInt32.
  destruct (Z_lt_le_dec v 2147483648).
  - left. rewrite Z.mod_small by lia. lia.
  - right. replace (v + 2147483648) with (v - 2147483648 + 1 * 4294967296) by lia.
    rewrite Z.mod_add by lia. rewrite Z.mod_small by lia. lia.
Qed.

(** X13.  For every value below 2^32 [writeInt32] writes the four bytes
    of the value, most significant first, each between 0 and 255. *)
Theorem writeInt32_is_big_endian (v : Z) :
  0 <= v < 4294967296 ->
  Midi.writeInt32 v
  = [v / 16777216; (v / 65536) mod 256; (v / 256) mod 256; v mod 256] /\
  Forall (fun b => 0 <= b < 256) (Midi.writeInt32 v) /\
  Reference.bigEndian (Midi.writeInt32 v) = v.
Proof.
  intro Hv.
  assert (E : Midi.writeInt32 v
              = [v / 16777216; (v / 65536) mod 256; (v / 256) mod 256; v mod 256]).
  { unfold Midi.writeInt32.
    rewrite !band_255_any, !shr_div by lia.
    change (2 ^ 24) with 16777216. change (2 ^ 16) with 65536. change (2 ^ 8) with 256.
    pose proof (toInt32_range v) as R.
    assert (T : forall d, 0 < d -> - 2147483648 <= toInt32 v / d < 2147483648).
    { intros d Hd. split.
      - apply Z.div_le_lower_bound; [lia|]. nia.
      - apply Z.div_lt_upper_bound; [lia|]. nia. }
    rewrite (toInt32_small_signed (toInt32 v / 16777216)) by (apply T; lia).
    rewrite (toInt32_small_signed (toInt32 v / 65536)) by (apply T; lia).
    rewrite (toInt32_small_signed (toInt32 v / 256)) by (apply T; lia).
    assert (B3 : 0 <= v / 16777216 < 256)
      by (split; [apply Z.div_pos; lia|apply Z.div_lt_upper_bound; lia]).
    destruct (toInt32_cases v Hv) as [->| ->].
    - rewrite (Z.mod_small (v / 16777216) 256) by exact B3. reflexivity.
    - replace ((v - 4294967296) / 16777216) with (v / 16777216 + (-1) * 256)
        by (replace (v - 4294967296) with (v + (-256) * 16777216) by lia;
            rewrite Z.div_add by lia; lia).
      replace ((v - 4294967296) / 65536) with (v / 65536 + (-256) * 256)
        by (replace (v - 4294967296) with (v + (-65536) * 65536) by lia;
            rewrite Z.div_add by lia; lia).
      replace ((v - 4294967296) / 256) with (v / 256 + (-65536) * 256)
        by (replace (v - 4294967296) with (v + (-16777216) * 256) by lia;
            rewrite Z.div_add by lia; lia).
      replace (v - 4294967296) with (v + (-16777216) * 256) by lia.
      rewrite !Z.mod_add by lia.
      rewrite (Z.mod_small (v / 16777216) 256) by exact B3. reflexivity. }
  rewrite E. split; [reflexivity|]. split.
  - repeat constructor; try (apply Z.mod_pos_bound; lia).
    + apply Z.div_pos; lia.
    + apply Z.div_lt_upper_bound; lia.
  - unfold Reference.bigEndian. cbn [fold_left].
    pose proof (Z.div_mod v 256 ltac:(lia)).
    pose proof (Z.div_mod (v / 256) 256 ltac:(lia)).
    pose proof (Z.div_mod (v / 256 / 256) 256 ltac:(lia)).
    rewrite !Z.div_div in * by lia.
    change (256 * 256) with 65536 in *. change (65536 * 256) with 16777216 in *.
    assert (M : (v / 65536) mod 256 = v / 65536 - 256 * (v / 16777216)) by lia.
    lia.
Qed.

Lemma writeInt32_is_big_endian_witness :
  Midi.writeInt32 52 = [52 / 16777216; (52 / 65536) mod 256; (52 / 256) mod 256; 52 mod 256] /\
  Forall (fun b => 0 <= b < 256) (Midi.writeInt32 52) /\
  Reference.bigEndian (Midi.writeInt32 52) = 52.
Proof. apply (writeInt32_is_big_endian 52). lia. Defined.

(** ** MIDI serialiser: the layout of the file *)

Lemma writeVarInt_zero : Midi.writeVarInt 0 = Some [0].
Proof. reflexivity. Qed.

Lemma trackBytesOf_shape (tempo : Z) (events : list Midi.MidiEvent) (tb : list Z) :
  Midi.trackBytesOf tempo events = Some tb ->
  exists eb, Midi.eventBytes events 0 = Some eb /\
    tb = List.app [0; 255; 81; 3]
           (List.app
              (List.app [band (shr (Midi.microsecondsPerQuarter tempo) 16) 255;
                         band (shr (Midi.microsecondsPerQuarter tempo) 8) 255;
                         band (Midi.microsecondsPerQuarter tempo) 255] eb)
              [0; 255; 47; 0]).
Proof.
  unfold Midi.trackBytesOf. rewrite writeVarInt_zero.
  destruct (Midi.eventBytes events 0) as [eb|]; [|discriminate].
  intro H. exists eb. split; [reflexivity|].
  assert (E : forall a b : list Z, Some a = Some b -> b = a) by (intros a b [= ->]; reflexivity).
  apply E in H. rewrite H. reflexivity.
Qed.

Lemma bytes_mod_256 (l : list Z) : Forall (fun b => 0 <= b < 256) (map (fun b => b mod 256) l).
Proof. apply Forall_map, Forall_forall. intros b _. apply Z.mod_pos_bound. lia. Qed.

Lemma bytes_mod_256_id (l : list Z) :
  Forall (fun b => 0 <= b < 256) l -> map (fun b => b mod 256) l = l.
Proof.
  induction 1 as [|b l Hb _ IH]; [reflexivity|].
  cbn [map]. now rewrite IH, Z.mod_small.
Qed.

Lemma writeInt32_bytes (v : Z) : Forall (fun b => 0 <= b < 256) (Midi.writeInt32 v).
Proof.
  unfold Midi.writeInt32. repeat constructor; rewrite band_255_any;
    apply Z.mod_pos_bound; lia.
Qed.

(** X14.  Whenever the export produces a file, the file is the 14-byte
    header chunk (format 0, one track, 480 ticks per quarter note), then
    the track chunk: the letters MTrk, the length of the track data as
    written by [writeInt32], and the track data, which begin with the
    tempo meta event at delta time 0 and end with the end-of-track meta
    event at delta time 0.  Every byte lies between 0 and 255. *)
Theorem exported_file_layout
        (G U : ChordDB) (instrument : string) (tempo : Z)
        (patterns : string -> option Pattern)
        (progression : list Midi.ProgressionChord) (midiData : list Z) :
  Midi.exportProgressionToMidi G U (Some instrument) tempo patterns progression
  = Midi.File midiData ->
  exists track body : list Z,
    midiData
    = List.app [77; 84; 104; 100; 0; 0; 0; 6; 0; 0; 0; 1; 1; 224]
        (List.app [77; 84; 114; 107]
           (List.app (Midi.writeInt32 (Z.of_nat (List.length track))) track)) /\
    track = List.app [0; 255; 81; 3] (List.app body [0; 255; 47; 0]) /\
    Forall (fun b => 0 <= b < 256) midiData.
Proof.
  unfold Midi.exportProgressionToMidi.
  destruct (Midi.collectEvents _ _ _ _ _ _) as [[evs tk]|e]; [|discriminate].
  destruct (Midi.trackBytesOf tempo (Midi.sortEvents evs)) as [tb|] eqn:Et; [|discriminate].
  intro H.
  assert (E : forall a b : list Z, Midi.File a = Midi.File b -> b = a)
    by (intros a b [= ->]; reflexivity).
  apply E in H. clear E.
  apply trackBytesOf_shape in Et. destruct Et as (eb & _ & Et).
  exists (map (fun b => b mod 256) tb).
  exists (map (fun b => b mod 256)
              (List.app [band (shr (Midi.microsecondsPerQuarter tempo) 16) 255;
                         band (shr (Midi.microsecondsPerQuarter tempo) 8) 255;
                         band (Midi.microsecondsPerQuarter tempo) 255] eb)).
  rewrite length_map.
  split; [|split].
  - rewrite H. rewrite !map_app.
    rewrite (bytes_mod_256_id _ (writeInt32_bytes _)). reflexivity.
  - rewrite Et at 1. rewrite !map_app. reflexivity.
  - rewrite H. apply bytes_mod_256.
Qed.

Lemma exported_file_layout_witness :
  exists midiData : list Z,
    Midi.exportProgressionToMidi highC [] (Some "guitar") 120 samplePatterns
      [Midi.mkProgChord "C" 0 (Some "simple-cut") None] = Midi.File midiData /\
    exists track body : list Z,
      midiData
      = List.app [77; 84; 104; 100; 0; 0; 0; 6; 0; 0; 0; 1; 1; 224]
          (List.app [77; 84; 114; 107]
             (List.app (Midi.writeInt32 (Z.of_nat (List.length track))) track)) /\
      track = List.app [0; 255; 81; 3] (List.app body [0; 255; 47; 0]) /\
      Forall (fun b => 0 <= b < 256) midiData.
Proof.
  eexists. split; [vm_compute; reflexivity|].
  apply (exported_file_layout highC [] "guitar" 120 samplePatterns
           [Midi.mkProgChord "C" 0 (Some "simple-cut") None]).
  vm_compute. reflexivity.
Defined.

(** ** MIDI serialiser: composition *)

Lemma mapiFrom_ext_map {A B C : Type} (g : B -> C) (f : A -> Z -> B) (h : A -> Z -> C)
      (l : list A) :
  forall i, (forall x j, g (f x j) = h x j) -> map g (mapiFrom i f l) = mapiFrom i h l.
Proof.
  induction l as [|x t IH]; intros i H; cbn; [reflexivity|].
  now rewrite H, IH.
Qed.

Lemma concat_map_map {A B : Type} (g : A -> B) (ls : list (list A)) :
  map g (List.concat ls) = List.concat (map (map g) ls).
Proof. apply concat_map. Qed.

Lemma noteOnOff_shift (a b p d : Z) :
  map (Reference.shiftEvent d) (Midi.noteOnOff a b p) = Midi.noteOnOff (a + d) (b + d) p.
Proof. reflexivity. Qed.

Lemma mapM_shift {A B : Type} (f g : A -> Outcome (list B)) (h : B -> B) (l : list A) :
  (forall x, f x = (r <- g x ;; Ok (map h r))) ->
  mapM f l = (rs <- mapM g l ;; Ok (map (map h) rs)).
Proof.
  intro H. induction l as [|x t IH]; [reflexivity|].
  cbn [mapM]. rewrite H, IH.
  destruct (g x) as [r|e]; [|reflexivity]. cbn [bind].
  destruct (mapM g t) as [rs|e]; reflexivity.
Qed.

Lemma arpeggioEvents_shift (voicing : list ChordVoicing) (order : list Z) (t n d : Z) :
  Midi.arpeggioEvents voicing order (t + d) n
  = (r <- Midi.arpeggioEvents voicing order t n ;;
     Ok (map (Reference.shiftEvent d) r)).
Proof.
  unfold Midi.arpeggioEvents.
  match goal with
  | |- context [mapM ?f ?l] =>
      match goal with
      | |- context [bind (bind (mapM ?g l) _) _] =>
          rewrite (mapM_shift f g (Reference.shiftEvent d) l)
      end
  end.
  - destruct (mapM _ _) as [rs|e]; [|reflexivity]. cbn [bind].
    now rewrite concat_map.
  - intros [s j]. destruct (Audio.findString voicing s) as [ni|]; [|reflexivity].
    destruct (Midi.noteToMidi (note ni)) as [[p|]|e]; try reflexivity. cbn [bind].
    destruct (p =? 0)%Z; [reflexivity|]. cbn [bind].
    rewrite noteOnOff_shift. do 2 f_equal; lia.
Qed.

Lemma strumBeatEvents_shift (ns : list Z) (beat : StrumBeat) (t m bt d : Z) :
  Midi.strumBeatEvents ns beat (t + d) m bt
  = map (Reference.shiftEvent d) (Midi.strumBeatEvents ns beat t m bt).
Proof.
  unfold Midi.strumBeatEvents.
  destruct (beatType beat); [| |reflexivity];
    unfold mapi; rewrite concat_map; f_equal; symmetry;
    apply mapiFrom_ext_map; intros p j;
    rewrite noteOnOff_shift; f_equal; lia.
Qed.

Lemma strumEvents_shift (ns : list Z) (bs : list StrumBeat) (t tpm d : Z) :
  forall m,
    Midi.strumEvents ns bs (t + d) tpm m
    = map (Reference.shiftEvent d) (Midi.strumEvents ns bs t tpm m).
Proof.
  induction bs as [|b bs IH]; intro m; cbn [Midi.strumEvents]; [reflexivity|].
  cbv zeta. now rewrite map_app, strumBeatEvents_shift, IH.
Qed.

Lemma blockEvents_shift (ns : list Z) (t n d : Z) :
  Midi.blockEvents ns (t + d) n
  = map (Reference.shiftEvent d) (Midi.blockEvents ns t n).
Proof.
  unfold Midi.blockEvents. induction ns as [|p ns IH]; [reflexivity|].
  cbn [flat_map]. rewrite map_app, IH. f_equal.
  rewrite noteOnOff_shift. f_equal; lia.
Qed.

Lemma chordEvents_shift (patterns : string -> option Pattern)
      (voicing : list ChordVoicing) (pc : Midi.ProgressionChord) (t d : Z) :
  Midi.chordEvents patterns voicing pc (t + d)
  = (r <- Midi.chordEvents patterns voicing pc t ;;
     Ok (map (Reference.shiftEvent d) (fst r), snd r + d)).
Proof.
  unfold Midi.chordEvents.
  destruct (List.length voicing =? 0)%nat; [reflexivity|].
  destruct (Midi.patternFor patterns (Midi.arpeggioPatternId pc)) as [[st|arp]|];
    cbv zeta.
  2:{ destruct (Z.of_nat _ =? 0)%Z; [reflexivity|].
      rewrite arpeggioEvents_shift.
      destruct (Midi.arpeggioEvents _ _ _ _) as [evs|e]; [|reflexivity].
      cbn [bind fst snd]. do 2 f_equal. lia. }
  all: destruct (Midi.patternFor patterns (Midi.strumPatternId pc)) as [[st'|arp']|];
    destruct (Midi.midiNotesOf voicing) as [midiNotes|e]; try reflexivity;
    cbn [bind fst snd];
    rewrite ?strumEvents_shift, ?blockEvents_shift; do 2 f_equal; lia.
Qed.

Lemma collectEvents_shift (G U : ChordDB) (patterns : string -> option Pattern)
      (instrument : string) (progression : list Midi.ProgressionChord) (d : Z) :
  forall t,
    Midi.collectEvents G U patterns instrument progression (t + d)
    = (r <- Midi.collectEvents G U patterns instrument progression t ;;
       Ok (map (Reference.shiftEvent d) (fst r), snd r + d)).
Proof.
  induction progression as [|pc more IH]; intro t; [reflexivity|].
  cbn [Midi.collectEvents].
  destruct (getVoicingForChord G U (Midi.chord pc) instrument (Midi.voicingIndex pc))
    as [v|e]; [|reflexivity].
  cbn [bind]. rewrite chordEvents_shift.
  destruct (Midi.chordEvents patterns v pc t) as [[evs t']|e]; [|reflexivity].
  cbn [bind fst snd]. rewrite IH.
  destruct (Midi.collectEvents G U patterns instrument more t') as [[evs2 t2]|e];
    [|reflexivity].
  cbn [bind fst snd]. now rewrite map_app.
Qed.

Lemma collectEvents_app (G U : ChordDB) (patterns : string -> option Pattern)
      (instrument : string) (p1 p2 : list Midi.ProgressionChord) :
  forall t,
    Midi.collectEvents G U patterns instrument (List.app p1 p2) t
    = (r1 <- Midi.collectEvents G U patterns instrument p1 t ;;
       r2 <- Midi.collectEvents G U patterns instrument p2 (snd r1) ;;
       Ok (List.app (fst r1) (fst r2), snd r2)).
Proof.
  induction p1 as [|pc more IH]; intro t.
  - cbn. destruct (Midi.collectEvents G U patterns instrument p2 t) as [[e2 t2]|e];
      reflexivity.
  - cbn [List.app Midi.collectEvents].
    destruct (getVoicingForChord G U (Midi.chord pc) instrument (Midi.voicingIndex pc))
      as [v|e]; [|reflexivity].
    cbn [bind]. destruct (Midi.chordEvents patterns v pc t) as [[evs t']|e];
      [|reflexivity].
    cbn [bind]. rewrite IH.
    destruct (Midi.collectEvents G U patterns instrument more t') as [[e1 t1]|e];
      [|reflexivity].
    cbn [bind fst snd].
    destruct (Midi.collectEvents G U patterns instrument p2 t1) as [[e2 t2]|e];
      [|reflexivity].
    cbn [bind fst snd]. now rewrite app_assoc.
Qed.

(** X15.  Exporting is compositional: when two progressions each
    export on their own, the events of their concatenation are the events
    of the first followed by the events of the second moved later by the
    length of the first, and the lengths add up. *)
Theorem export_of_concatenation
        (G U : ChordDB) (patterns : string -> option Pattern) (instrument : string)
        (p1 p2 : list Midi.ProgressionChord)
        (e1 e2 : list Midi.MidiEvent) (t1 t2 : Z) :
  Midi.collectEvents G U patterns instrument p1 0 = Ok (e1, t1) ->
  Midi.collectEvents G U patterns instrument p2 0 = Ok (e2, t2) ->
  Midi.collectEvents G U patterns instrument (List.app p1 p2) 0
  = Ok (List.app e1 (map (Reference.shiftEvent t1) e2), t1 + t2).
Proof.
  intros H1 H2. rewrite collectEvents_app, H1. cbn [bind snd fst].
  replace t1 with (0 + t1) at 1 by lia.
  rewrite collectEvents_shift, H2. cbn [bind fst snd]. f_equal. f_equal. lia.
Qed.

Lemma export_of_concatenation_witness :
  exists (e1 e2 : list Midi.MidiEvent) (t1 t2 : Z),
    Midi.collectEvents highC [] samplePatterns "guitar"
      [Midi.mkProgChord "C" 0 (Some "simple-cut") None] 0 = Ok (e1, t1) /\
    Midi.collectEvents highC [] samplePatterns "guitar"
      [Midi.mkProgChord "C" 0 None (Some "asc-44")] 0 = Ok (e2, t2) /\
    Midi.collectEvents highC [] samplePatterns "guitar"
      (List.app [Midi.mkProgChord "C" 0 (Some "simple-cut") None]
                [Midi.mkProgChord "C" 0 None (Some "asc-44")]) 0
    = Ok (List.app e1 (map (Reference.shiftEvent t1) e2), t1 + t2).
Proof.
  do 4 eexists. split; [vm_compute; reflexivity|]. split; [vm_compute; reflexivity|].
  apply (export_of_concatenation highC [] samplePatterns "guitar"
           [Midi.mkProgChord "C" 0 (Some "simple-cut") None]
           [Midi.mkProgChord "C" 0 None (Some "asc-44")]);
    vm_compute; reflexivity.
Defined.

(** ** The pattern library *)







Lemma stepTicks_at_least_120 (n : nat) (ts : string) (ty : BeatType) :
  (3 <= n <= 12)%nat ->
  120 <= Midi.beatTicksOf (mkBeat ty (Qdiv 1 (inject_Z (Z.of_nat n))))
                          (Strumming.beatsOfSignature ts * Midi.timeDivision).
Proof.
  intro Hn. unfold Strumming.beatsOfSignature.
  do 13 (destruct n as [|n]; [try lia; destruct (ts =? "3/4"), (ts =? "6/8");
                              vm_compute; discriminate|]).
  lia.
Qed.

(** X17.  A custom strum drawn on a grid of 3 to 12 steps, the grids the
    rhythm editor builds, is converted to one beat per grid cell, of the
    cell's type; all its beats have the same duration; its measure has 3
    beats under the signature 3/4, 6 under 6/8 and 4 under any other;
    and every beat lasts at least 120 ticks in the exported file, so the
    strings of a strum, started 5 ticks apart, all start within it. *)
Theorem custom_strum_beats_follow_the_grid (c : Strumming.CustomStrumPattern) :
  (3 <= List.length (Strumming.csGrid c) <= 12)%nat ->
  let p := Strumming.convertGridToStrumPattern c in
  map beatType (beats p) = Strumming.csGrid c /\
  (forall b b', In b (beats p) -> In b' (beats p) -> duration b = duration b') /\
  strumBeatsPerMeasure p
  = (if Strumming.csTimeSignature c =? "3/4" then 3
     else if Strumming.csTimeSignature c =? "6/8" then 6 else 4) /\
  Forall (fun b => 120 <= Midi.beatTicksOf b (strumBeatsPerMeasure p * Midi.timeDivision))
         (beats p) /\
  staggerFits (Strum p).
Proof.
  intros Hn p.
  assert (T : Forall (fun b => 120 <= Midi.beatTicksOf b
                                        (strumBeatsPerMeasure p * Midi.timeDivision))
                     (beats p)).
  { subst p. unfold Strumming.convertGridToStrumPattern. cbn [beats strumBeatsPerMeasure].
    apply Forall_map, Forall_forall. intros ty _. now apply stepTicks_at_least_120. }
  split; [|split; [|split; [|split]]].
  - subst p. unfold Strumming.convertGridToStrumPattern. cbn [beats].
    rewrite map_map. cbn. apply map_id.
  - subst p. unfold Strumming.convertGridToStrumPattern. cbn [beats].
    intros b b' Hb Hb'. apply in_map_iff in Hb, Hb'.
    destruct Hb as (ty & <- & _). destruct Hb' as (ty' & <- & _). reflexivity.
  - reflexivity.
  - exact T.
  - cbn [staggerFits]. revert T. apply Forall_impl. intros b Hb. right. lia.
Qed.

Lemma custom_strum_beats_follow_the_grid_witness :
  let c := Strumming.mkCustomStrum "custom_pattern_1" "Mine" "3/4" [down; up; rest] in
  let p := Strumming.convertGridToStrumPattern c in
  map beatType (beats p) = [down; up; rest] /\
  (forall b b', In b (beats p) -> In b' (beats p) -> duration b = duration b') /\
  strumBeatsPerMeasure p = 3 /\
  Forall (fun b => 120 <= Midi.beatTicksOf b (strumBeatsPerMeasure p * Midi.timeDivision))
         (beats p) /\
  staggerFits (Strum p).
Proof.
  apply (custom_strum_beats_follow_the_grid
           (Strumming.mkCustomStrum "custom_pattern_1" "Mine" "3/4" [down; up; rest])).
  simpl. lia.
Defined.

(** X18.  A custom arpeggio grid is converted to an order in which a
    string occurs exactly when one of its cells is ticked in a column
    the first row has; every entry is a row index of the grid. *)
Theorem custom_arpeggio_order (c : Strumming.CustomArpeggioPattern) (s : nat) :
  let grid := Strumming.caGrid c in
  let width := match grid with row0 :: _ => List.length row0 | [] => 0%nat end in
  (In (Z.of_nat s) (noteOrder (Strumming.convertGridToArpeggioPattern c)) <->
   exists i, (i < width)%nat /\ Strumming.cell grid s i = true) /\
  Forall (fun x => 0 <= x < Z.of_nat (List.length grid))
         (noteOrder (Strumming.convertGridToArpeggioPattern c)).
Proof.
  intros grid width.
  unfold Strumming.convertGridToArpeggioPattern. cbn [noteOrder].
  fold grid. fold width. split.
  - rewrite in_flat_map. split.
    + intros (i & Hi & H). apply in_seq in Hi.
      apply in_flat_map in H. destruct H as (s' & Hs' & H).
      destruct (Strumming.cell grid s' i) eqn:Ec; [|contradiction].
      destruct H as [H|[]]. apply Nat2Z.inj in H. subst s'.
      exists i. split; [lia|exact Ec].
    + intros (i & Hi & Ec). exists i. split; [apply in_seq; lia|].
      apply in_flat_map. exists s. split.
      * apply in_seq. split; [lia|]. cbn.
        unfold Strumming.cell in Ec.
        destruct (nth_error grid s) eqn:En; [|discriminate].
        apply nth_error_Some. congruence.
      * rewrite Ec. now left.
  - apply Forall_forall. intros x Hx.
    apply in_flat_map in Hx. destruct Hx as (i & _ & Hx).
    apply in_flat_map in Hx. destruct Hx as (s' & Hs' & Hx).
    apply in_seq in Hs'.
    destruct (Strumming.cell grid s' i); [|contradiction].
    destruct Hx as [<-|[]]. lia.
Qed.

(** ** The arpeggio scheduler *)

Lemma findString_sounded (voicing : list ChordVoicing) (s : Z) :
  In s (map stringIndex voicing) ->
  exists v, Audio.findString voicing s = Some v /\ stringIndex v = s /\ In v voicing.
Proof.
  intro H. unfold Audio.findString.
  destruct (find _ voicing) as [v|] eqn:E.
  - apply find_some in E. destruct E as [Hin Heq].
    exists v. repeat split; [now apply Z.eqb_eq | exact Hin].
  - apply in_map_iff in H. destruct H as (v & Hv & Hin).
    pose proof (find_none _ _ E v Hin) as C. cbn in C.
    rewrite Hv, Z.eqb_refl in C. discriminate.
Qed.

Lemma findString_In (voicing : list ChordVoicing) (s : Z) (v : ChordVoicing) :
  Audio.findString voicing s = Some v -> stringIndex v = s /\ In v voicing.
Proof.
  unfold Audio.findString. intro E. apply find_some in E.
  destruct E as [Hin Heq]. split; [now apply Z.eqb_eq | exact Hin].
Qed.

Lemma StronglySorted_weaken {A : Type} (R S : A -> A -> Prop) (l : list A) :
  (forall a b, R a b -> S a b) -> StronglySorted R l -> StronglySorted S l.
Proof.
  intros H. induction 1 as [|a l Hs IH Ha]; constructor; [exact IH|].
  eapply Forall_impl; [|exact Ha]. intros b. apply H.
Qed.

Lemma scheduled_all (voicing : list ChordVoicing) (l : list Z) :
  incl l (map stringIndex voicing) ->
  forall i,
    let played :=
      List.concat
        (mapiFrom i (fun stringIndexToPlay j =>
                       match Audio.findString voicing stringIndexToPlay with
                       | Some noteInfo =>
                           [Audio.mkScheduled (note noteInfo) (stringIndex noteInfo) j]
                       | None => []
                       end) l) in
    map Audio.playedString played = l /\
    map Audio.step played = Reference.zrange i (List.length l).
Proof.
  induction l as [|s l IH]; intros Hincl i; [split; reflexivity|].
  cbn [mapiFrom List.concat].
  destruct (findString_sounded voicing s (Hincl s (or_introl eq_refl))) as (v & -> & Hs & _).
  destruct (IH (fun x Hx => Hincl x (or_intror Hx)) (i + 1)) as [IH1 IH2].
  cbn [List.app map Audio.playedString Audio.step]. split.
  - now rewrite IH1, Hs.
  - rewrite IH2. unfold Reference.zrange. cbn [List.length seq map].
    f_equal; [lia|]. rewrite <- seq_shift, map_map.
    apply map_ext. intro k. lia.
Qed.

(** X19.  For a scalable pattern the order of a chord is the chord's
    sounded strings rearranged, descending by string index when the name
    contains Ascending and ascending otherwise; the scheduler plays one
    note per step on exactly these strings, at the steps 0, 1, 2, ...,
    and the MIDI serialiser walks the same order. *)
Theorem scalable_arpeggio_plays_every_string
        (voicing : list ChordVoicing) (pattern : ArpeggioPattern) :
  noteOrder pattern = [] ->
  let order := Audio.arpeggiatedNoteOrder voicing pattern in
  Permutation order (map stringIndex voicing) /\
  (if includes (name pattern) "Ascending"
   then StronglySorted Z.ge order else StronglySorted Z.le order) /\
  map Audio.playedString (Audio.playArpeggiatedChord voicing pattern) = order /\
  map Audio.step (Audio.playArpeggiatedChord voicing pattern)
  = Reference.zrange 0 (List.length voicing) /\
  Midi.exportNoteOrder voicing pattern = order.
Proof.
  intros Hs order.
  assert (Hperm : Permutation order (map stringIndex voicing)).
  { unfold order, Audio.arpeggiatedNoteOrder. rewrite Hs. cbn [List.length Nat.eqb].
    destruct (includes (name pattern) "Ascending");
      apply sort_perm. }
  split; [exact Hperm|]. split; [|split; [|split]].
  - unfold order, Audio.arpeggiatedNoteOrder. rewrite Hs. cbn [List.length Nat.eqb].
    destruct (includes (name pattern) "Ascending").
    + eapply StronglySorted_weaken;
        [|apply (sort_sorted (fun x => - x) (fun a b => b - a)); intros; lia].
      cbn. intros; lia.
    + apply (sort_sorted (fun x => x) (fun a b => a - b)). intros; lia.
  - unfold Audio.playArpeggiatedChord, mapi. fold order.
    apply (scheduled_all voicing order).
    intros x Hx. eapply Permutation_in; [exact Hperm|exact Hx].
  - unfold Audio.playArpeggiatedChord, mapi. fold order.
    replace (List.length voicing) with (List.length order).
    + apply (scheduled_all voicing order).
      intros x Hx. eapply Permutation_in; [exact Hperm|exact Hx].
    + rewrite (Permutation_length Hperm). apply length_map.
  - reflexivity.
Qed.

Lemma scalable_arpeggio_plays_every_string_witness :
  let voicing := [mkVoicing "F4" 0; mkVoicing "D4" 1; mkVoicing "A3" 2; mkVoicing "D3" 3] in
  let pattern := mkArpeggio "Ascending" 120 4 "4/4" [] in
  let order := Audio.arpeggiatedNoteOrder voicing pattern in
  Permutation order (map stringIndex voicing) /\
  (if includes (name pattern) "Ascending"
   then StronglySorted Z.ge order else StronglySorted Z.le order) /\
  map Audio.playedString (Audio.playArpeggiatedChord voicing pattern) = order /\
  map Audio.step (Audio.playArpeggiatedChord voicing pattern)
  = Reference.zrange 0 (List.length voicing) /\
  Midi.exportNoteOrder voicing pattern = order.
Proof.
  apply (scalable_arpeggio_plays_every_string
           [mkVoicing "F4" 0; mkVoicing "D4" 1; mkVoicing "A3" 2; mkVoicing "D3" 3]
           (mkArpeggio "Ascending" 120 4 "4/4" [])).
  reflexivity.
Defined.

Lemma scheduled_sound (voicing : list ChordVoicing) (l : list Z) :
  forall i sc,
    In sc (List.concat
             (mapiFrom i (fun stringIndexToPlay j =>
                            match Audio.findString voicing stringIndexToPlay with
                            | Some noteInfo =>
                                [Audio.mkScheduled (note noteInfo) (stringIndex noteInfo) j]
                            | None => []
                            end) l)) ->
    exists n : nat,
      Audio.step sc = i + Z.of_nat n /\
      nth_error l n = Some (Audio.playedString sc) /\
      In (mkVoicing (Audio.playedNote sc) (Audio.playedString sc)) voicing.
Proof.
  induction l as [|s l IH]; intros i sc H; [contradiction|].
  cbn [mapiFrom List.concat] in H. apply in_app_or in H. destruct H as [H|H].
  - destruct (Audio.findString voicing s) as [v|] eqn:E; [|contradiction].
    destruct H as [<-|[]]. apply findString_In in E. destruct E as [Es Hin].
    exists 0%nat. cbn. repeat split; [lia|now rewrite Es|now destruct v].
  - destruct (IH _ _ H) as (n & H1 & H2 & H3).
    exists (S n). repeat split; [lia|exact H2|exact H3].
Qed.

(** X20.  For every pattern, each note the scheduler plays is a note of
    the voicing, on the string the order names at the note's step; a
    step whose string the voicing lacks stays silent but keeps its
    place. *)
Theorem scheduled_notes_follow_the_order
        (voicing : list ChordVoicing) (pattern : ArpeggioPattern) :
  Forall (fun sc =>
            at_ (Audio.arpeggiatedNoteOrder voicing pattern) (Audio.step sc)
            = Some (Audio.playedString sc) /\
            In (mkVoicing (Audio.playedNote sc) (Audio.playedString sc)) voicing)
         (Audio.playArpeggiatedChord voicing pattern) /\
  (List.length (Audio.playArpeggiatedChord voicing pattern)
   <= List.length (Audio.arpeggiatedNoteOrder voicing pattern))%nat.
Proof.
  split.
  - apply Forall_forall. intros sc H.
    unfold Audio.playArpeggiatedChord, mapi in H.
    apply scheduled_sound in H. destruct H as (n & H1 & H2 & H3).
    split; [|exact H3]. rewrite H1. cbn. now rewrite at_of_nat.
  - unfold Audio.playArpeggiatedChord, mapi.
    generalize (Audio.arpeggiatedNoteOrder voicing pattern) as l. generalize 0 as i.
    intros i l. revert i. induction l as [|s l IH]; intro i; [apply le_n|].
    cbn [mapiFrom List.concat]. rewrite length_app. specialize (IH (i + 1)).
    destruct (Audio.findString voicing s); cbn [List.length] in *; lia.
Qed.

Lemma sorted_permutation_unique (key : Z -> Z) (l1 : list Z) :
  (forall a b, key a = key b -> a = b) ->
  forall l2,
    StronglySorted (fun a b => key a <= key b) l1 ->
    StronglySorted (fun a b => key a <= key b) l2 ->
    Permutation l1 l2 -> l1 = l2.
Proof.
  intro inj. induction l1 as [|a l1 IH]; intros l2 S1 S2 P.
  - apply Permutation_nil in P. now subst.
  - destruct l2 as [|b l2]; [symmetry in P; now apply Permutation_nil in P|].
    inversion S1 as [|? ? S1' F1]; subst. inversion S2 as [|? ? S2' F2]; subst.
    assert (E : a = b).
    { apply inj.
      assert (Ha : In a (b :: l2)) by (eapply Permutation_in; [exact P|now left]).
      assert (Hb : In b (a :: l1))
        by (eapply Permutation_in; [symmetry; exact P|now left]).
      rewrite Forall_forall in F1, F2.
      destruct Ha as [Ha|Ha]; [now subst|]. destruct Hb as [Hb|Hb]; [now subst|].
      specialize (F1 _ Hb). specialize (F2 _ Ha). lia. }
    subst b. f_equal. apply IH; [exact S1'|exact S2'|].
    now apply Permutation_cons_inv in P.
Qed.

(** X21.  For a scalable pattern named Ascending or Descending, the
    order shown without a chord is the order played for a voicing that
    sounds every string of the instrument. *)
Theorem preview_order_matches_full_voicing
        (pattern : ArpeggioPattern) (instrument : string)
        (voicing : list ChordVoicing) :
  noteOrder pattern = [] ->
  includes (name pattern) "Ascending" = true \/
  includes (name pattern) "Descending" = true ->
  Permutation (map stringIndex voicing)
              (Reference.zrange 0 (if instrument =? "guitar" then 6 else 4)) ->
  noteOrder (Strumming.getEffectiveArpeggioPattern pattern instrument)
  = Audio.arpeggiatedNoteOrder voicing pattern.
Proof.
  intros Hs Hname Hperm.
  unfold Strumming.getEffectiveArpeggioPattern, Audio.arpeggiatedNoteOrder.
  rewrite Hs. cbn [List.length Nat.eqb]. cbv zeta.
  destruct (includes (name pattern) "Ascending") eqn:Ea.
  - cbn [noteOrder]. symmetry.
    apply (sorted_permutation_unique (fun x => - x)); [intros; lia| | |].
    + apply (sort_sorted (fun x => - x) (fun a b => b - a)). intros; lia.
    + destruct (instrument =? "guitar"); cbv [Strumming.arrayFrom seq map];
        repeat constructor; cbn; lia.
    + rewrite sort_perm, Hperm.
      destruct (instrument =? "guitar");
        [apply (Permutation_rev [0; 1; 2; 3; 4; 5])|apply (Permutation_rev [0; 1; 2; 3])].
  - destruct Hname as [C|Hd]; [discriminate|]. rewrite Hd. cbn [noteOrder]. symmetry.
    apply (sorted_permutation_unique (fun x => x)); [intros; lia| | |].
    + apply (sort_sorted (fun x => x) (fun a b => a - b)). intros; lia.
    + destruct (instrument =? "guitar"); cbv [Strumming.arrayFrom seq map];
        repeat constructor; cbn; lia.
    + rewrite sort_perm, Hperm.
      destruct (instrument =? "guitar"); reflexivity.
Qed.

Lemma preview_order_matches_full_voicing_witness :
  noteOrder (Strumming.getEffectiveArpeggioPattern
               (mkArpeggio "Ascending (3/4)" 140 3 "3/4" []) "ukulele")
  = Audio.arpeggiatedNoteOrder
      [mkVoicing "A4" 0; mkVoicing "E4" 1; mkVoicing "C4" 2; mkVoicing "G4" 3]
      (mkArpeggio "Ascending (3/4)" 140 3 "3/4" []).
Proof.
  apply (preview_order_matches_full_voicing
           (mkArpeggio "Ascending (3/4)" 140 3 "3/4" []) "ukulele"
           [mkVoicing "A4" 0; mkVoicing "E4" 1; mkVoicing "C4" 2; mkVoicing "G4" 3]).
  - reflexivity.
  - left. reflexivity.
  - apply Permutation_refl.
Defined.

(** ** The catalogue validator and the log *)

Lemma numEqb_eq (a b : Validator.Num) : Validator.numEqb a b = true <-> a = b.
Proof.
  destruct a as [x|], b as [y|]; cbn; split; intro H; try discriminate; try reflexivity.
  - apply Z.eqb_eq in H. now subst.
  - injection H as ->. apply Z.eqb_refl.
Qed.

Lemma existsb_numEqb (w : Validator.Num) (l : list Validator.Num) :
  existsb (Validator.numEqb w) l = true <-> In w l.
Proof.
  rewrite existsb_exists. split.
  - intros (x & Hx & E). apply numEqb_eq in E. now subst.
  - intro H. exists w. split; [exact H|now apply numEqb_eq].
Qed.

Lemma In_uniqueBy_num (x : Validator.Num) (l : list Validator.Num) :
  In x (uniqueBy Validator.numEqb l) <-> In x l.
Proof.
  induction l as [|y t IH]; [reflexivity|].
  cbn [uniqueBy]. split.
  - intros [H|H]; [now left|]. apply filter_In in H. right. now apply IH.
  - intros [H|H]; [now left|].
    destruct (Validator.numEqb y x) eqn:E.
    + left. now apply numEqb_eq.
    + right. apply filter_In. split; [now apply IH|]. now rewrite E.
Qed.

Lemma filter_nil_all {A : Type} (f : A -> bool) (l : list A) :
  filter f l = [] -> forall x, In x l -> f x = false.
Proof.
  induction l as [|y t IH]; intros H x Hx; [contradiction|].
  cbn in H. destruct (f y) eqn:E; [discriminate|].
  destruct Hx as [<-|Hx]; [exact E|now apply IH].
Qed.

Lemma concat_nil_all {A : Type} (ls : list (list A)) :
  List.concat ls = [] -> forall l, In l ls -> l = [].
Proof.
  induction ls as [|l0 ls IH]; intros H l Hl; [contradiction|].
  cbn in H. apply app_eq_nil in H. destruct H as [H0 H1].
  destruct Hl as [<-|Hl]; [exact H0|now apply IH].
Qed.

Lemma In_mapiFrom {A B : Type} (f : A -> Z -> B) (l : list A) (x : A) :
  In x l -> forall i, exists j, In (f x j) (mapiFrom i f l).
Proof.
  induction l as [|y t IH]; intros H i; [contradiction|].
  destruct H as [<-|H].
  - exists i. now left.
  - destruct (IH H (i + 1)) as (j & Hj). exists j. now right.
Qed.

Lemma validateVoicing_clean (sym : string) (want openPcs : list Validator.Num)
      (v : ChordVoicingData) (idx : Z) :
  Validator.validateVoicing sym want openPcs v idx = [] ->
  exists pcs,
    Validator.voicingToPcs v openPcs = Ok pcs /\
    pcs <> [] /\
    (forall p, In p pcs <-> In p want).
Proof.
  unfold Validator.validateVoicing.
  destruct (Validator.voicingToPcs v openPcs) as [pcs|e]; [|discriminate].
  cbv zeta.
  remember (filter (fun w => negb (existsb (Validator.numEqb w)
                                     (uniqueBy Validator.numEqb pcs))) want)
    as missing eqn:Em.
  remember (filter (fun p => negb (existsb (Validator.numEqb p) want))
                   (uniqueBy Validator.numEqb pcs))
    as extraneous eqn:Ex.
  intro H. exists pcs. split; [reflexivity|].
  destruct missing as [|m ms]; [|discriminate].
  destruct extraneous as [|x xs]; [|discriminate].
  cbn [List.length Nat.ltb Nat.leb List.app] in H.
  destruct (List.length pcs =? 0)%nat eqn:El; [discriminate|].
  split; [intros ->; discriminate|].
  symmetry in Em, Ex.
  intro p. split.
  - intro Hp. apply In_uniqueBy_num in Hp.
    pose proof (filter_nil_all _ _ Ex p Hp) as F. cbn in F.
    apply negb_false_iff in F. now apply existsb_numEqb.
  - intro Hp. pose proof (filter_nil_all _ _ Em p Hp) as F. cbn in F.
    apply negb_false_iff in F. apply existsb_numEqb in F. now apply In_uniqueBy_num.
Qed.

Lemma tunings_have_pitch_classes :
  Validator.tuningToPcs GUITAR_TUNING
  = Ok [Some 4; Some 11; Some 7; Some 2; Some 9; Some 4] /\
  Validator.tuningToPcs UKULELE_TUNING = Ok [Some 9; Some 4; Some 0; Some 7].
Proof. split; reflexivity. Qed.

(** X22.  When the validator reports nothing for a catalogue, every
    voicing of every chord has one fret per string of the tuning, sounds
    at least one string, and sounds exactly the pitch classes of the
    chord its symbol names. *)
Theorem clean_catalogue_is_sound
        (label : string) (chords : ChordDB)
        (sym : string) (voicings : list ChordVoicingData) (v : ChordVoicingData) :
  Validator.validateCatalog label chords = Ok [] ->
  In (sym, voicings) chords ->
  In v voicings ->
  exists rootPc quality openPcs pcs,
    Validator.parseRoot sym = Ok (rootPc, quality) /\
    Validator.tuningToPcs (if label =? "guitar" then GUITAR_TUNING else UKULELE_TUNING)
    = Ok openPcs /\
    Validator.voicingToPcs v openPcs = Ok pcs /\
    pcs <> [] /\
    List.length (frets v) = List.length openPcs /\
    (forall p, In p pcs <-> In p (Validator.expectedSet rootPc quality)).
Proof.
  intros H Hs Hv. unfold Validator.validateCatalog in H.
  assert (T : exists openPcs,
             Validator.tuningToPcs (if label =? "guitar" then GUITAR_TUNING
                                    else UKULELE_TUNING) = Ok openPcs /\
             (if label =? "guitar" then Validator.tuningToPcs GUITAR_TUNING
              else Validator.tuningToPcs UKULELE_TUNING) = Ok openPcs).
  { destruct tunings_have_pitch_classes as [Eg Eu].
    destruct (label =? "guitar"); eexists; split; eassumption. }
  destruct T as (openPcs & T1 & T2). rewrite T2 in H. cbn [bind] in H.
  assert (E : forall a b : list Validator.Issue, Ok a = Ok b -> a = b)
    by (intros a b [= ->]; reflexivity).
  apply E in H. clear E.
  pose proof (concat_nil_all _ H (Validator.validateSymbol openPcs (sym, voicings))
                (in_map _ _ _ Hs)) as Hsym.
  unfold Validator.validateSymbol in Hsym.
  destruct (Validator.parseRoot sym) as [[rootPc quality]|e]; [|discriminate].
  destruct (In_mapiFrom (Validator.validateVoicing sym
                           (Validator.expectedSet rootPc quality) openPcs)
                        voicings v Hv 0) as (j & Hj).
  pose proof (concat_nil_all _ Hsym _ Hj) as Hvoicing.
  apply validateVoicing_clean in Hvoicing. destruct Hvoicing as (pcs & P1 & P2 & P3).
  exists rootPc, quality, openPcs, pcs. repeat split; try assumption.
  - unfold Validator.voicingToPcs in P1.
    destruct (List.length (frets v) =? List.length openPcs)%nat eqn:El;
      [now apply Nat.eqb_eq|discriminate].
  - now apply P3.
  - now apply P3.
Qed.

Lemma clean_catalogue_is_sound_witness :
  exists rootPc quality openPcs pcs,
    Validator.parseRoot "C" = Ok (rootPc, quality) /\
    Validator.tuningToPcs (if "guitar" =? "guitar" then GUITAR_TUNING else UKULELE_TUNING)
    = Ok openPcs /\
    Validator.voicingToPcs
      (mkVoicingData [Fr 0; Fr 1; Fr 0; Fr 2; Fr 3; X] []) openPcs = Ok pcs /\
    pcs <> [] /\
    List.length (frets (mkVoicingData [Fr 0; Fr 1; Fr 0; Fr 2; Fr 3; X] []))
    = List.length openPcs /\
    (forall p, In p pcs <-> In p (Validator.expectedSet rootPc quality)).
Proof.
  apply (clean_catalogue_is_sound "guitar" openC "C"
           [mkVoicingData [Fr 0; Fr 1; Fr 0; Fr 2; Fr 3; X] []]
           (mkVoicingData [Fr 0; Fr 1; Fr 0; Fr 2; Fr 3; X] [])).
  - reflexivity.
  - left. reflexivity.
  - left. reflexivity.
Defined.

Lemma validateCatalog_unfolded (label : string) (chords : ChordDB) :
  exists openPcs,
    Validator.validateCatalog label chords
    = Ok (List.concat (map (Validator.validateSymbol openPcs) chords)).
Proof.
  unfold Validator.validateCatalog.
  destruct tunings_have_pitch_classes as [Eg Eu].
  destruct (label =? "guitar"); [rewrite Eg|rewrite Eu]; eexists; reflexivity.
Qed.

Lemma In_concat_mapiFrom {A B : Type} (f : A -> Z -> list B) (l : list A) (y : B) :
  forall i, In y (List.concat (mapiFrom i f l)) ->
            exists (n : nat) (x : A), nth_error l n = Some x /\ In y (f x (i + Z.of_nat n)).
Proof.
  induction l as [|x t IH]; intros i H; [contradiction|].
  cbn [mapiFrom List.concat] in H. apply in_app_or in H. destruct H as [H|H].
  - exists 0%nat, x. split; [reflexivity|]. now replace (i + Z.of_nat 0) with i by lia.
  - destruct (IH _ H) as (n & x' & Hn & Hy). exists (S n), x'. split; [exact Hn|].
    now replace (i + Z.of_nat (S n)) with (i + 1 + Z.of_nat n) by lia.
Qed.

Lemma validateVoicing_issue (sym : string) (want openPcs : list Validator.Num)
      (v : ChordVoicingData) (idx : Z) (issue : Validator.Issue) :
  In issue (Validator.validateVoicing sym want openPcs v idx) ->
  Validator.validateVoicing sym want openPcs v idx = [issue] /\
  Validator.symbol issue = sym /\ Validator.index issue = idx /\
  Validator.problems issue <> [].
Proof.
  unfold Validator.validateVoicing.
  destruct (Validator.voicingToPcs v openPcs) as [pcs|e].
  - cbv zeta. match goal with |- context [(0 <? List.length ?p)%nat] => set (prob := p) end.
    destruct prob as [|p0 ps] eqn:Ep; [contradiction|].
    cbn [List.length Nat.ltb Nat.leb]. intros [<-|[]]. cbn. repeat split. discriminate.
  - intros [<-|[]]. cbn. repeat split. discriminate.
Qed.

(** X23.  The validator returns for every catalogue.  Each issue has at
    least one problem and names a symbol of the catalogue; its index is
    that of one of the symbol's voicings, or -1, and -1 exactly when the
    symbol is rejected by [parseRoot]. *)
Theorem validator_reports_instead_of_raising (label : string) (chords : ChordDB) :
  exists issues,
    Validator.validateCatalog label chords = Ok issues /\
    Forall (fun issue =>
              Validator.problems issue <> [] /\
              exists voicings,
                In (Validator.symbol issue, voicings) chords /\
                - 1 <= Validator.index issue < Z.of_nat (List.length voicings) /\
                (Validator.index issue = - 1 <->
                 exists e, Validator.parseRoot (Validator.symbol issue) = Throw e))
           issues.
Proof.
  destruct (validateCatalog_unfolded label chords) as (openPcs & E).
  eexists. split; [exact E|].
  apply Forall_forall. intros issue H.
  apply in_concat in H. destruct H as (l & Hl & Hi).
  apply in_map_iff in Hl. destruct Hl as ([sym voicings] & <- & Hc).
  unfold Validator.validateSymbol in Hi.
  destruct (Validator.parseRoot sym) as [[rootPc quality]|e] eqn:Ep.
  - apply In_concat_mapiFrom in Hi. destruct Hi as (n & v & Hn & Hi).
    apply validateVoicing_issue in Hi. destruct Hi as (_ & Hs & Hx & Hp).
    split; [exact Hp|]. exists voicings. rewrite Hs, Hx, Ep.
    assert (n < List.length voicings)%nat by (apply nth_error_Some; congruence).
    split; [exact Hc|]. split; [lia|]. split; [lia|intros (e & C); discriminate].
  - destruct Hi as [<-|[]]. cbn. split; [discriminate|].
    exists voicings. rewrite Ep. split; [exact Hc|]. split; [lia|].
    split; [intros _; now exists e|reflexivity].
Qed.

Lemma addEntry_firstn (t : Logger.LogType) (msg : string) (d : option string)
      (entries : list Logger.LogEntry) :
  (List.length entries <= 200)%nat ->
  Logger.addEntry t msg d entries = firstn 200 (Logger.mkEntry t msg d :: entries).
Proof.
  intro H. unfold Logger.addEntry. cbv zeta.
  destruct (Nat.ltb_spec 200 (List.length (Logger.mkEntry t msg d :: entries))) as [L|L].
  - assert (E : List.length (Logger.mkEntry t msg d :: entries) = 201%nat)
      by (cbn [List.length] in *; lia).
    generalize dependent (Logger.mkEntry t msg d :: entries). intros l _ E.
    destruct (exists_last (l := l)) as (l' & a & ->);
      [intros ->; discriminate|].
    rewrite removelast_last. rewrite length_app in E. cbn in E.
    rewrite firstn_app. replace (200 - List.length l')%nat with 0%nat by lia.
    rewrite firstn_all2 by lia. cbn. now rewrite app_nil_r.
  - symmetry. apply firstn_all2. lia.
Qed.

(** X24.  Adding an entry puts it first and keeps the newest 200
    entries; clearing the log leaves the single entry that says so. *)
Theorem log_keeps_the_newest_200
        (t : Logger.LogType) (msg : string) (d : option string)
        (entries : list Logger.LogEntry) :
  (List.length entries <= 200)%nat ->
  Logger.addEntry t msg d entries = firstn 200 (Logger.mkEntry t msg d :: entries) /\
  (List.length (Logger.addEntry t msg d entries) <= 200)%nat /\
  List.length (clearLog (Logger.addEntry t msg d entries)) = 1%nat.
Proof.
  intro H. split; [now apply addEntry_firstn|]. split; [|reflexivity].
  rewrite addEntry_firstn by exact H. rewrite length_firstn. lia.
Qed.

Lemma log_keeps_the_newest_200_witness :
  Logger.addEntry Logger.warn "w" None [Logger.mkEntry Logger.info "i" None]
  = firstn 200 [Logger.mkEntry Logger.warn "w" None; Logger.mkEntry Logger.info "i" None] /\
  (List.length (Logger.addEntry Logger.warn "w" None [Logger.mkEntry Logger.info "i" None])
   <= 200)%nat /\
  List.length (clearLog (Logger.addEntry Logger.warn "w" None
                                         [Logger.mkEntry Logger.info "i" None])) = 1%nat.
Proof.
  apply (log_keeps_the_newest_200 Logger.warn "w" None [Logger.mkEntry Logger.info "i" None]).
  cbn. lia.
Defined.

Lemma addEntry_bounded (t : Logger.LogType) (msg : string) (d : option string)
      (entries : list Logger.LogEntry) :
  (List.length entries <= 200)%nat ->
  (List.length (Logger.addEntry t msg d entries) <= 200)%nat.
Proof. intro H. rewrite addEntry_firstn by exact H. rewrite length_firstn. lia. Qed.

Lemma logIssues_bounded (found allValid : string) (issues : list Validator.Issue)
      (entries : list Logger.LogEntry) :
  (List.length entries <= 200)%nat ->
  (List.length (Validator.logIssues found allValid issues entries) <= 200)%nat.
Proof.
  intro H. unfold Validator.logIssues.
  destruct (0 <? List.length issues)%nat; [|now apply addEntry_bounded].
  assert (H0 : (List.length (Logger.logWarn
                               (found ++ showZ (Z.of_nat (List.length issues))) entries)
                <= 200)%nat) by now apply addEntry_bounded.
  revert H0. generalize (Logger.logWarn (found ++ showZ (Z.of_nat (List.length issues))) entries).
  induction issues as [|i more IH]; intros log Hl; [exact Hl|].
  cbn [fold_left]. apply IH. now apply addEntry_bounded.
Qed.

Lemma firstn_cons_firstn {A : Type} (n : nat) (x : A) (l : list A) :
  firstn (S n) (x :: firstn (S n) l) = firstn (S n) (x :: l).
Proof.
  cbn [firstn]. f_equal. change (match l with [] => [] | a :: l0 => a :: firstn n l0 end)
    with (firstn (S n) l). rewrite firstn_firstn. f_equal. lia.
Qed.

(** X25.  The validation run returns for every pair of catalogues and
    keeps the log within 200 entries; when both catalogues are clean it
    adds exactly three information entries. *)
Theorem validation_run_completes
        (G U : ChordDB) (entries : list Logger.LogEntry) :
  (List.length entries <= 200)%nat ->
  exists entries',
    Validator.runChordVoicingValidator G U entries = Ok entries' /\
    (List.length entries' <= 200)%nat /\
    (Validator.validateCatalog "guitar" G = Ok [] ->
     Validator.validateCatalog "ukulele" U = Ok [] ->
     entries'
     = firstn 200
         (List.app
            [Logger.mkEntry Logger.info "✅ All ukulele chord voicings are valid." None;
             Logger.mkEntry Logger.info "✅ All guitar chord voicings are valid." None;
             Logger.mkEntry Logger.info "Running chord voicing validation..." None]
            entries)).
Proof.
  intro H. unfold Validator.runChordVoicingValidator.
  destruct (validateCatalog_unfolded "guitar" G) as (pg & Eg).
  destruct (validateCatalog_unfolded "ukulele" U) as (pu & Eu).
  rewrite Eg, Eu. cbn [bind]. eexists. split; [reflexivity|]. split.
  - apply logIssues_bounded, logIssues_bounded. now apply addEntry_bounded.
  - intros Cg Cu.
    assert (E : forall a b : list Validator.Issue, Ok a = Ok b -> a = b)
      by (intros a b [= ->]; reflexivity).
    apply E in Cg, Cu. rewrite Cg, Cu. clear E.
    unfold Validator.logIssues. cbn [List.length Nat.ltb Nat.leb]. unfold Logger.logInfo.
    assert (B1 := addEntry_bounded Logger.info "Running chord voicing validation..." None
                    entries H).
    rewrite (addEntry_firstn _ _ _ _
               (addEntry_bounded _ "✅ All guitar chord voicings are valid." None _ B1)).
    rewrite (addEntry_firstn _ _ _ _ B1).
    rewrite (addEntry_firstn _ _ _ _ H).
    cbn [List.app].
    rewrite (firstn_cons_firstn 199 (Logger.mkEntry Logger.info
                                       "✅ All guitar chord voicings are valid." None)).
    now rewrite firstn_cons_firstn.
Qed.

Lemma validation_run_completes_witness :
  exists entries',
    Validator.runChordVoicingValidator openC [] [] = Ok entries' /\
    (List.length entries' <= 200)%nat /\
    (Validator.validateCatalog "guitar" openC = Ok [] ->
     Validator.validateCatalog "ukulele" [] = Ok [] ->
     entries'
     = firstn 200
         (List.app
            [Logger.mkEntry Logger.info "✅ All ukulele chord voicings are valid." None;
             Logger.mkEntry Logger.info "✅ All guitar chord voicings are valid." None;
             Logger.mkEntry Logger.info "Running chord voicing validation..." None]
            [])).
Proof.
  apply (validation_run_completes openC [] []). cbn. lia.
Defined.

(** ** Spelling, classification and substitutions *)

Lemma spelled_chord_names (chordName r : string) (notes : list string) :
  getNotesInChord chordName = Some (r, notes) ->
  exists q, In r NOTES /\ In q (map fst CHORD_INTERVALS) /\ chordName = r ++ q.
Proof.
  unfold getNotesInChord.
  destruct (parseChordName chordName) as [p|] eqn:Ep; [|discriminate].
  destruct (lookup (quality p) CHORD_INTERVALS) as [ivs|] eqn:El; [|discriminate].
  destruct (indexOf NOTES (root p) =? -1)%Z eqn:Ei; [discriminate|].
  intros [= <- _]. exists (quality p). split; [|split].
  - destruct (indexOf_NOTES (root p)) as [C|[_ H]].
    + rewrite C in Ei. discriminate.
    + now apply at_In in H.
  - apply lookup_In in El. now apply (in_map fst) in El.
  - symmetry. now apply parseChordName_concat.
Qed.

(** X26.  Whenever [getNotesInChord] spells a chord, the validator
    accepts the same symbol, with the same root and a quality of
    [CHORD_INTERVALS], and expects exactly the pitch classes of the
    spelled notes, in the same order. *)
Theorem validator_expects_the_spelled_notes
        (chordName r : string) (notes : list string) :
  getNotesInChord chordName = Some (r, notes) ->
  exists rootPc quality,
    Validator.parseRoot chordName = Ok (rootPc, quality) /\
    rootPc = indexOf NOTES r /\
    lookup quality CHORD_INTERVALS <> None /\
    Validator.expectedSet rootPc quality = map (fun n => Some (indexOf NOTES n)) notes.
Proof.
  intro H. destruct (spelled_chord_names _ _ _ H) as (q & Hr & Hq & ->).
  cbv [NOTES In] in Hr. cbv [CHORD_INTERVALS map fst In] in Hq.
  repeat (destruct Hr as [<-|Hr]); try contradiction;
    (repeat (destruct Hq as [<-|Hq]); try contradiction;
     (vm_compute in H; injection H as <-;
      eexists; eexists;
      (split; [vm_compute; reflexivity|
               split; [reflexivity|split; [discriminate|reflexivity]]]))).
Qed.

Lemma validator_expects_the_spelled_notes_witness :
  exists rootPc quality,
    Validator.parseRoot "F#m7" = Ok (rootPc, quality) /\
    rootPc = indexOf NOTES "F#" /\
    lookup quality CHORD_INTERVALS <> None /\
    Validator.expectedSet rootPc quality
    = map (fun n => Some (indexOf NOTES n)) ["F#"; "A"; "C#"; "E"].
Proof.
  apply (validator_expects_the_spelled_notes "F#m7" "F#" ["F#"; "A"; "C#"; "E"]).
  reflexivity.
Defined.

Lemma sameGroup_eq (a b : option Analysis.ChordFunctionGroup) :
  Reference.sameGroup a b = true -> a = b.
Proof. destruct a as [[]|], b as [[]|]; cbn; congruence. Qed.

(** X27.  In each of the 24 keys, the chord realised from a diatonic
    numeral is classified by that numeral alone: primary, secondary or
    tense as the classifier's lists say, whatever the transition table
    holds; only the major IV that the minor table lists gets no group. *)
Theorem diatonic_chords_are_classified (major : Rules) (K r : string) :
  In K Spec.supportedKeys ->
  In r (Spec.diatonicRomans K) ->
  exists c,
    realizeRomanNumeral r K = Some c /\
    Analysis.getChordFunctionGroup major c K
    = Reference.groupOfNumeral (endsWith K "m") r /\
    (Analysis.getChordFunctionGroup major c K = None <->
     endsWith K "m" = true /\ r = "IV").
Proof.
  intros HK Hr.
  assert (H : forallb (fun K => forallb (Reference.classifiedByNumeral major K)
                                        (Spec.diatonicRomans K))
                      Spec.supportedKeys = true) by (vm_compute; reflexivity).
  rewrite forallb_forall in H. specialize (H K HK).
  rewrite forallb_forall in H. specialize (H r Hr).
  unfold Reference.classifiedByNumeral in H.
  destruct (realizeRomanNumeral r K) as [c|]; [|discriminate].
  apply andb_prop in H. destruct H as [H1 H2]. apply sameGroup_eq in H1.
  exists c. split; [reflexivity|]. split; [exact H1|]. rewrite H1.
  apply Bool.eqb_prop in H2.
  destruct (Reference.groupOfNumeral (endsWith K "m") r) as [g|].
  - split; [discriminate|]. intros [Em Er]. rewrite Em in H2. subst r. discriminate.
  - split; [|reflexivity]. intros _. symmetry in H2. apply andb_prop in H2.
    destruct H2 as [Em Er]. split; [exact Em|now apply String.eqb_eq].
Qed.

Lemma diatonic_chords_are_classified_witness :
  exists c,
    realizeRomanNumeral "vii" "G" = Some c /\
    Analysis.getChordFunctionGroup PROGRESSION_RULES_MAJOR c "G"
    = Reference.groupOfNumeral (endsWith "G" "m") "vii" /\
    (Analysis.getChordFunctionGroup PROGRESSION_RULES_MAJOR c "G" = None <->
     endsWith "G" "m" = true /\ "vii" = "IV").
Proof.
  apply (diatonic_chords_are_classified PROGRESSION_RULES_MAJOR "G" "vii");
    vm_compute; tauto.
Defined.

Lemma uniqueWithVoicing_inv (chordDB : ChordDB) (subs : list (string * string)) :
  forall acc,
    NoDup (map Analysis.subName acc) ->
    Forall (fun s => exists rest,
                lookup (Analysis.subName s) chordDB = Some (Analysis.subVoicing s :: rest)) acc ->
    Forall (fun s => In (Analysis.subName s, Analysis.subDescription s) subs \/ In s acc)
           (Analysis.uniqueWithVoicing chordDB subs acc) /\
    NoDup (map Analysis.subName (Analysis.uniqueWithVoicing chordDB subs acc)) /\
    Forall (fun s => exists rest,
                lookup (Analysis.subName s) chordDB = Some (Analysis.subVoicing s :: rest))
           (Analysis.uniqueWithVoicing chordDB subs acc) /\
    (List.length (Analysis.uniqueWithVoicing chordDB subs acc)
     <= List.length acc + List.length subs)%nat.
Proof.
  induction subs as [|[n d] more IH]; intros acc Hnd Hv; cbn [Analysis.uniqueWithVoicing].
  - repeat split; [|exact Hnd|exact Hv|lia].
    apply Forall_forall. intros s Hs. now right.
  - assert (Skip : Forall (fun s => In (Analysis.subName s, Analysis.subDescription s)
                                      ((n, d) :: more) \/ In s acc)
                          (Analysis.uniqueWithVoicing chordDB more acc) /\
                   NoDup (map Analysis.subName (Analysis.uniqueWithVoicing chordDB more acc)) /\
                   Forall (fun s => exists rest,
                               lookup (Analysis.subName s) chordDB
                               = Some (Analysis.subVoicing s :: rest))
                          (Analysis.uniqueWithVoicing chordDB more acc) /\
                   (List.length (Analysis.uniqueWithVoicing chordDB more acc)
                    <= List.length acc + List.length ((n, d) :: more))%nat).
    { destruct (IH acc Hnd Hv) as (I1 & I2 & I3 & I4). repeat split; try assumption.
      - eapply Forall_impl; [|exact I1]. cbn. intros s [Hs|Hs]; [left; now right|now right].
      - cbn [List.length]. lia. }
    destruct (lookup n chordDB) as [[|v vs]|] eqn:El; [exact Skip| |exact Skip].
    destruct (existsb (fun u => Analysis.subName u =? n) acc) eqn:Ee; [exact Skip|].
    assert (Hn : ~ In n (map Analysis.subName acc)).
    { intro C. apply in_map_iff in C. destruct C as (u & Hu & Hin).
      assert (T : existsb (fun u => Analysis.subName u =? n) acc = true).
      { apply existsb_exists. exists u. split; [exact Hin|]. now apply String.eqb_eq. }
      congruence. }
    destruct (IH (List.app acc [Analysis.mkSubstitution n d v])) as (I1 & I2 & I3 & I4).
    + rewrite map_app. cbn. apply NoDup_app; [exact Hnd|repeat constructor; intros []|].
      intros x Hx [<-|[]]. contradiction.
    + apply Forall_app. split; [exact Hv|]. constructor; [|constructor].
      cbn. exists vs. exact El.
    + repeat split; try assumption.
      * eapply Forall_impl; [|exact I1]. cbn. intros s [Hs|Hs]; [left; now right|].
        apply in_app_or in Hs. destruct Hs as [Hs|[<-|[]]]; [now right|].
        left. now left.
      * rewrite length_app in I4. cbn [List.length] in *. lia.
Qed.

Lemma substitutionCandidates_length (major : Rules) (chordName key : string) :
  (List.length (Analysis.substitutionCandidates major chordName key) <= 4)%nat.
Proof.
  unfold Analysis.substitutionCandidates.
  destruct (parseChordName chordName) as [p|]; [|cbn; lia].
  cbv zeta.
  destruct (truthy (findFunctionOfChord major chordName key)) as [func|];
    [destruct (lookup key MAJOR_KEYS_DIATONIC) as [kc|]|];
    repeat match goal with
           | |- context [String.eqb ?a ?b] =>
               destruct (String.eqb_spec a b) as [?E|?E];
               [try rewrite E in *|]; try congruence
           end;
    cbn; lia.
Qed.

(** X28.  The substitutions offered for a chord have distinct names,
    each comes with the first voicing the instrument's catalogue lists
    under its name, and there are at most four of them. *)
Theorem substitutions_are_distinct_and_voiced
        (G U : ChordDB) (major : Rules) (chordName key instrument : string) :
  let subs := Analysis.getChordSubstitutions G U major chordName key instrument in
  NoDup (map Analysis.subName subs) /\
  Forall (fun s =>
            exists rest,
              lookup (Analysis.subName s) (if instrument =? "guitar" then G else U)
              = Some (Analysis.subVoicing s :: rest)) subs /\
  (List.length subs <= 4)%nat.
Proof.
  intro subs. unfold subs, Analysis.getChordSubstitutions. cbv zeta.
  destruct (uniqueWithVoicing_inv (if instrument =? "guitar" then G else U)
              (Analysis.substitutionCandidates major chordName key) []
              (NoDup_nil _) (Forall_nil _)) as (_ & I2 & I3 & I4).
  repeat split; try assumption.
  pose proof (substitutionCandidates_length major chordName key). cbn in I4. lia.
Qed.

(** ** MIDI serialiser: a file for every progression, and its tempo *)

Lemma eventBytes_returns (evs : list Midi.MidiEvent) :
  forall lastTick,
    Forall (fun d => 0 <= d < 268435456) (Midi.deltaTimes evs lastTick) ->
    exists bytes, Midi.eventBytes evs lastTick = Some bytes.
Proof.
  induction evs as [|e evs IH]; intros lastTick H; cbn [Midi.eventBytes].
  - now exists [].
  - cbn [Midi.deltaTimes] in H. inversion H as [|? ? Hd Hrest]; subst.
    rewrite (writeVarInt_groups _ Hd).
    destruct (IH _ Hrest) as (bytes & ->). cbn [option_map]. now eexists.
Qed.

Lemma deltaTimes_bounded (evs : list Midi.MidiEvent) (bound : Z) :
  StronglySorted (fun a b => Midi.tick a <= Midi.tick b) evs ->
  Forall (fun e => Midi.tick e < bound) evs ->
  forall lastTick,
    0 <= lastTick ->
    Forall (fun e => lastTick <= Midi.tick e) evs ->
    Forall (fun d => 0 <= d < bound) (Midi.deltaTimes evs lastTick).
Proof.
  induction 1 as [|e evs _ IH He]; intros Hb lastTick H0 Hl; cbn [Midi.deltaTimes];
    constructor.
  - inversion Hl; subst. inversion Hb; subst. lia.
  - inversion Hl; subst. inversion Hb; subst. apply IH; [assumption|lia|exact He].
Qed.

(** X29.  On catalogues that fit the tunings and hold no negative fret,
    and patterns that respect the data model, the export of a progression
    whose events all lie before tick 2^28 produces a file: the voicing
    resolver does not raise, every fretted note has a name the pitch
    parser accepts, and no delta time sends [writeVarInt] into its
    endless loop. *)
Theorem export_produces_a_file
        (G U : ChordDB) (patterns : string -> option Pattern)
        (instrument : string) (tempo : Z)
        (progression : list Midi.ProgressionChord) :
  fitsTuning GUITAR_TUNING G ->
  fitsTuning UKULELE_TUNING U ->
  noNegativeFret G ->
  noNegativeFret U ->
  (forall id p, patterns id = Some p -> wellFormedPattern p) ->
  (forall evs finalTick,
      Midi.collectEvents G U patterns instrument progression 0 = Ok (evs, finalTick) ->
      Forall (fun e => Midi.tick e < 268435456) evs) ->
  exists midiData,
    Midi.exportProgressionToMidi G U (Some instrument) tempo patterns progression
    = Midi.File midiData.
Proof.
  intros HG HU NG NU HP Hbound.
  destruct (collectEvents_ok G U patterns HP False (fun H => False_ind _ H) HG HU NG NU
              instrument progression 0 ltac:(lia))
    as (evs & final & E & _ & Hp).
  assert (N : nonNegativeTicks evs) by exact (soundNote_nonNegative _ _ Hp).
  specialize (Hbound _ _ E).
  assert (Hperm : Permutation (Midi.sortEvents evs) evs) by apply sort_perm.
  assert (Hsorted : StronglySorted (fun a b => Midi.tick a <= Midi.tick b)
                                   (Midi.sortEvents evs)).
  { apply (sort_sorted Midi.tick). reflexivity. }
  assert (D : Forall (fun d => 0 <= d < 268435456)
                     (Midi.deltaTimes (Midi.sortEvents evs) 0)).
  { apply deltaTimes_bounded; [exact Hsorted| |lia|].
    - eapply Permutation_Forall; [symmetry; exact Hperm|exact Hbound].
    - eapply Permutation_Forall; [symmetry; exact Hperm|exact N]. }
  destruct (eventBytes_returns _ _ D) as (bytes & Eb).
  unfold Midi.exportProgressionToMidi. rewrite E.
  unfold Midi.trackBytesOf. rewrite Eb.
  change (Midi.writeVarInt 0) with (Some [0]). cbv beta iota. now eexists.
Qed.

Lemma export_produces_a_file_witness :
  exists midiData,
    Midi.exportProgressionToMidi openC [] (Some "guitar") 90 samplePatterns
      [Midi.mkProgChord "C" 0 (Some "simple-cut") None;
       Midi.mkProgChord "C" 0 None (Some "asc-44")]
    = Midi.File midiData.
Proof.
  apply (export_produces_a_file openC [] samplePatterns "guitar" 90
           [Midi.mkProgChord "C" 0 (Some "simple-cut") None;
            Midi.mkProgChord "C" 0 None (Some "asc-44")]).
  - intros sym voicings v Hl Hv. unfold openC in Hl. cbn [lookup] in Hl.
    destruct ("C" =? sym); [|discriminate].
    injection Hl as <-. destruct Hv as [<-|[]]. simpl. lia.
  - intros sym voicings v Hl. discriminate Hl.
  - intros sym voicings v n Hl Hv Hf. unfold openC in Hl. cbn [lookup] in Hl.
    destruct ("C" =? sym); [|discriminate].
    injection Hl as <-. destruct Hv as [<-|[]]. simpl in Hf.
    repeat (destruct Hf as [Hf|Hf]; [try discriminate; injection Hf as <-; lia|]).
    contradiction.
  - intros sym voicings v n Hl. discriminate Hl.
  - intros id p Hp. unfold samplePatterns in Hp.
    destruct (id =? "asc-44"); [injection Hp as <-; simpl; lia|].
    destruct (id =? "simple-cut"); [|discriminate].
    injection Hp as <-. simpl. split; [lia|].
    repeat constructor; unfold Qle; simpl; lia.
  - intros evs finalTick H. vm_compute in H. injection H as <- _.
    repeat constructor.
Defined.

Lemma microsecondsPerQuarter_div (tempo : Z) :
  0 < tempo ->
  Midi.microsecondsPerQuarter tempo = (120000000 + tempo) / (2 * tempo).
Proof.
  intro H. unfold Midi.microsecondsPerQuarter.
  destruct (Z.eqb_spec tempo 0) as [->|_]; [lia|].
  destruct tempo as [|p|p]; try lia.
  unfold round, Qfloor, Qplus, Qdiv, Qmult, Qinv, inject_Z. cbn [Qnum Qden].
  f_equal; lia.
Qed.

(** X30.  For a tempo of at least 4 beats per minute, or none (then
    120), the three bytes of the tempo meta event are the big-endian
    bytes of the microseconds per quarter note, 60000000 divided by the
    tempo and rounded to the nearest integer. *)
Theorem tempo_event_holds_the_tempo
        (tempo : Z) (events : list Midi.MidiEvent) (trackBytes : list Z) :
  tempo = 0 \/ 4 <= tempo ->
  Midi.trackBytesOf tempo events = Some trackBytes ->
  let bpm := if (tempo =? 0)%Z then 120 else tempo in
  exists us rest,
    trackBytes
    = List.app [0; 255; 81; 3; us / 65536; (us / 256) mod 256; us mod 256] rest /\
    0 <= us < 16777216 /\
    120000000 - bpm < 2 * bpm * us <= 120000000 + bpm.
Proof.
  intros Ht H bpm.
  apply trackBytesOf_shape in H. destruct H as (eb & _ & ->).
  assert (Hb : 4 <= bpm) by (subst bpm; destruct Ht as [->|Ht]; [cbn; lia|];
                             destruct (Z.eqb_spec tempo 0); lia).
  assert (E : Midi.microsecondsPerQuarter tempo = (120000000 + bpm) / (2 * bpm)).
  { subst bpm. destruct Ht as [->|Ht]; [reflexivity|].
    destruct (Z.eqb_spec tempo 0); [lia|]. apply microsecondsPerQuarter_div. lia. }
  set (us := (120000000 + bpm) / (2 * bpm)) in *.
  assert (Hdm := Z.div_mod (120000000 + bpm) (2 * bpm) ltac:(lia)).
  assert (Hmod := Z.mod_pos_bound (120000000 + bpm) (2 * bpm) ltac:(lia)).
  fold us in Hdm.
  assert (Hus : 0 <= us < 16777216).
  { split; [apply Z.div_pos; lia|]. apply Z.div_lt_upper_bound; lia. }
  exists us. eexists. split; [|split; [exact Hus|lia]].
  rewrite E. cbn [List.app]. do 4 f_equal.
  rewrite !band_255_any, !shr_div by lia.
  rewrite (toInt32_small us) by lia.
  change (2 ^ 16) with 65536. change (2 ^ 8) with 256.
  assert (B1 : 0 <= us / 65536 < 256)
    by (split; [apply Z.div_pos; lia|apply Z.div_lt_upper_bound; lia]).
  assert (B2 : 0 <= us / 256 < 65536)
    by (split; [apply Z.div_pos; lia|apply Z.div_lt_upper_bound; lia]).
  rewrite (toInt32_small (us / 65536)), (toInt32_small (us / 256)) by lia.
  rewrite (Z.mod_small (us / 65536)) by lia. reflexivity.
Qed.

Lemma tempo_event_holds_the_tempo_witness :
  let bpm := if (90 =? 0)%Z then 120 else 90 in
  exists us rest,
    [0; 255; 81; 3; 10; 44; 43; 0; 255; 47; 0]
    = List.app [0; 255; 81; 3; us / 65536; (us / 256) mod 256; us mod 256] rest /\
    0 <= us < 16777216 /\
    120000000 - bpm < 2 * bpm * us <= 120000000 + bpm.
Proof.
  apply (tempo_event_holds_the_tempo 90 [] [0; 255; 81; 3; 10; 44; 43; 0; 255; 47; 0]).
  - right. lia.
  - reflexivity.
Defined.
